(** * api-gateway-backend: fetch-with-retry, upsert/sync pipeline and
    read-through cache, embedded from the Go sources.

  Layout: one Module per Go package ([Errors], [Ctx], [client],
  [database], [redis], [jobs], [api]) holding the embedding, followed
  by the lemmas and theorems about them.  The external
  collaborators (the HTTP source, MySQL, Redis, the wall clock) are
  explicit state plus an environment record [Env] of oracles that the
  theorems quantify over. *)

From Stdlib Require Import ZArith Lia Ascii String.
From stdpp Require Import base numbers list strings gmap pretty sorting.

Local Open Scope string_scope.
Local Open Scope list_scope.
Local Open Scope Z_scope.

(** ** Go basics: int64 durations and errors *)

(** [time.Duration] is an int64 count of nanoseconds. *)
Definition Duration := Z.

Definition wrap64 (z : Z) : Z := (z + 2 ^ 63) mod 2 ^ 64 - 2 ^ 63.

Definition Second : Duration := 1000000000.
Definition Minute : Duration := 60 * Second.

(** [strconv.Atoi] on a platform with 64-bit ints: an optional sign, then
    one or more decimal digits whose value fits an int64; anything else
    is an error. *)
Module strconv.

Definition digit (a : ascii) : option Z :=
  let k := Z.of_N (N_of_ascii a) - 48 in
  if (0 <=? k) && (k <=? 9) then Some k else None.

Fixpoint digits (acc : Z) (s : string) : option Z :=
  match s with
  | EmptyString => Some acc
  | String a s' =>
      match digit a with
      | Some d => digits (acc * 10 + d) s'
      | None => None
      end
  end.

Definition Atoi (s : string) : option Z :=
  match s with
  | EmptyString => None
  | String a rest =>
      let '(neg, body) :=
        if Ascii.eqb a "-"%char then (true, rest)
        else if Ascii.eqb a "+"%char then (false, rest)
        else (false, s) in
      match body with
      | EmptyString => None
      | _ =>
          match digits 0 body with
          | Some v =>
              let n := if neg then - v else v in
              if (- 2 ^ 63 <=? n) && (n <=? 2 ^ 63 - 1) then Some n else None
          | None => None
          end
      end
  end.

(** [strconv.Quote], the [%q] verb on a string, byte by byte: exact on
    ASCII; a byte from 0x80 on is copied, which is what Quote does with
    the bytes of a printable rune. *)
Definition hex (k : N) : ascii :=
  match k with
  | 0 => "0" | 1 => "1" | 2 => "2" | 3 => "3" | 4 => "4" | 5 => "5"
  | 6 => "6" | 7 => "7" | 8 => "8" | 9 => "9" | 10 => "a" | 11 => "b"
  | 12 => "c" | 13 => "d" | 14 => "e" | _ => "f"
  end%char%N.

Definition double_quote : ascii := ascii_of_N 34.

Definition quote_byte (a : ascii) : string :=
  match N_of_ascii a with
  | 34 => String "\" (String double_quote EmptyString)
  | 92 => String "\" (String "\" EmptyString)
  | 7 => "\a" | 8 => "\b" | 12 => "\f" | 10 => "\n" | 13 => "\r"
  | 9 => "\t" | 11 => "\v"
  | k =>
      if (k <? 32) || (k =? 127)
      then String "\" (String "x" (String (hex (k / 16))
                                    (String (hex (k mod 16)) EmptyString)))
      else String a EmptyString
  end%N.

Fixpoint quote_bytes (s : string) : string :=
  match s with
  | EmptyString => EmptyString
  | String a s' => quote_byte a +:+ quote_bytes s'
  end.

Definition Quote (s : string) : string :=
  String double_quote (quote_bytes s +:+ String double_quote EmptyString).

End strconv.

Module Errors.

(** Go [error] values as the sources build them: the two context
    sentinels, errors handed up by a library or a substrate,
    [fmt.Errorf] without [%w], [fmt.Errorf] with a trailing [%w]
    ([WrapNil] when the operand of [%w] is a nil error), and the
    [*url.Error] in which [http.Client.Do] hands up a failure of its own
    ([URL] is the text of the URL the failing request went to). *)
Inductive error : Type :=
| Canceled
| DeadlineExceeded
| External (msg : string)
| ErrorString (msg : string)
| Wrap (prefix : string) (inner : error)
| WrapNil (prefix : string)
| URLError (Op URL : string) (inner : error).

Fixpoint Error (e : error) : string :=
  match e with
  | Canceled => "context canceled"
  | DeadlineExceeded => "context deadline exceeded"
  | External msg => msg
  | ErrorString msg => msg
  | Wrap prefix e' => prefix +:+ Error e'
  | WrapNil prefix => prefix +:+ "%!w(<nil>)"
  | URLError Op URL e' =>
      Op +:+ " " +:+ strconv.Quote URL +:+ ": " +:+ Error e'
  end.

(** [errors.Unwrap]. *)
Definition Unwrap (e : error) : option error :=
  match e with
  | Wrap _ inner => Some inner
  | URLError _ _ inner => Some inner
  | _ => None
  end.

(** A Go call returning [(value, error)]. *)
Inductive result (A : Type) : Type :=
| Ok (a : A)
| Err (e : error).
Global Arguments Ok {A} a.
Global Arguments Err {A} e.

Definition is_Err {A} (r : result A) : bool :=
  match r with Ok _ => false | Err _ => true end.

End Errors.
Export Errors.

(** [strconv.Itoa] and the [%d] verb on an int. *)
Definition Itoa (n : Z) : string := pretty n.

(** ** package context *)

Module Ctx.

(** A context is observed through the instant at which its deadline
    passes and the instant at which somebody calls its cancel function
    (both absolute, in nanoseconds of the model clock). *)
Record Context : Type := mkContext {
  deadline : option Z;
  cancelAt : option Z
}.

Definition Background : Context := mkContext None None.

Definition omin (a b : option Z) : option Z :=
  match a, b with
  | Some x, Some y => Some (Z.min x y)
  | Some x, None => Some x
  | None, b => b
  end.

(** [context.WithTimeout(parent, d)] called at instant [t]: the child
    keeps an earlier parent deadline. *)
Definition WithTimeout (parent : Context) (d : Duration) (t : Z) : Context :=
  mkContext (omin (deadline parent) (Some (t + d))) (cancelAt parent).

(** Instant at which [ctx.Done()] is closed, if ever. *)
Definition doneAt (ctx : Context) : option Z :=
  omin (deadline ctx) (cancelAt ctx).

(** [ctx.Err()] read at instant [t]; the first of the two events fixes
    the error (a cancel at the very instant of the deadline is reported
    as a cancel). *)
Definition Err_at (ctx : Context) (t : Z) : option error :=
  match deadline ctx, cancelAt ctx with
  | None, None => None
  | Some d, None => if d <=? t then Some DeadlineExceeded else None
  | None, Some c => if c <=? t then Some Canceled else None
  | Some d, Some c =>
      if c <=? d
      then (if c <=? t then Some Canceled else None)
      else (if d <=? t then Some DeadlineExceeded else None)
  end.

(** The context is not done at any instant up to and including [t]. *)
Definition alive_until (ctx : Context) (t : Z) : Prop :=
  match doneAt ctx with
  | Some td => t < td
  | None => True
  end.

End Ctx.
Export Ctx.

(** ** Environment: the oracles standing for the external collaborators *)

(** Record [PostResponse] of package client (a post of the external API). *)
Record PostResponse : Type := mkPost {
  UserID : Z;
  ID : Z;
  Title : string;
  Body : string
}.

(** A JSON document as [json.Unmarshal] reads it into a
    [[]PostResponse].  A member of an object either stores a value in
    the field its key names, or has a value the field cannot take (a
    string for a number, a number that is no int, an object, ...): the
    field is then left alone and the error [e] is recorded ([MBad]).
    Members with an unknown key or with the value null store nothing and
    are not listed.  An element of the array is an object, null (which
    leaves a struct alone), or something else, which is an error
    ([EBad]). *)
Inductive Member : Type :=
| MUserID (v : Z)
| MID (v : Z)
| MTitle (s : string)
| MBody (s : string)
| MBad (e : error).

Inductive Element : Type :=
| ENull
| EObject (members : list Member)
| EBad (e : error).

(** The body of a response, read in full: [Posts ps] is an array whose
    objects spell out all four fields of [ps], one object per post;
    [Elements es] is any array, element by element ([[]] and a
    top-level null both count as the empty array); [Undecodable e] is a
    body that is not JSON, or JSON that is neither an array nor null, on
    which [json.Unmarshal] fails with [e] before it stores anything. *)
Inductive Payload : Type :=
| Posts (ps : list PostResponse)
| Undecodable (e : error)
| Elements (es : list Element).

(** What the body stream of a response yields to [io.ReadAll]. *)
Inductive BodyStream : Type :=
| ReadFails (e : error)
| Bytes (p : Payload).

(** What [c.client.Do] returns: an error, or a response. *)
Inductive Reply : Type :=
| TransportError (e : error)
| Response (StatusCode : Z) (body : BodyStream).

(** What the network holds in store for one call of [c.client.Do].
    [Final r]: the request fails in the transport with the error that
    [Do] returns, or is answered by a response without a [Location]
    header.  [Located s loc b d x]: it is answered by a response with
    status [s], body [b] and the header [Location: loc] (an absolute
    URL); should the client follow it, the request to [loc] is answered
    after [d] by [x]. *)
Inductive Exchange : Type :=
| Final (r : Reply)
| Located (StatusCode : Z) (Location : string) (body : BodyStream)
          (latency : Duration) (next : Exchange).

(** Record [Item] of package database; the two [time.Time] fields hold a
    MySQL DATETIME, in seconds. *)
Record Item : Type := mkItem {
  item_ID : Z;
  ExternalID : string;
  item_Title : string;
  item_Body : string;
  item_UserID : Z;
  CreatedAt : Z;
  UpdatedAt : Z
}.

(** Statements sent to MySQL and commands sent to Redis. *)
Inductive Query : Type :=
| QUpsert (external_id title body : string) (user_id : Z)
| QSelectItems.

(** A value stored in Redis, as [json.Unmarshal] into a
    [[]database.Item] sees it: a text that decodes into [items] (what
    [json.Marshal] writes for [items], as long as their strings are
    valid UTF-8, is such a text), or a text on which decoding fails with
    [e]. *)
Inductive CachePayload : Type :=
| JSONItems (items : list Item)
| JSONOther (e : error).

Inductive Cmd : Type :=
| CGet (key : string)
| CSet (key : string) (value : CachePayload) (ttl : Duration)
| CKeys (pattern : string)
| CDel (keys : list string).

(** The environment of a run.  [server k] is the latency and the answer
    of the external source to the request of the [k]-th call of
    [c.client.Do] that goes out to the network (a latency is the time
    until the client has the answer; its body is then at hand);
    [new_request_err] is the error, if any, of
    [http.NewRequestWithContext] for a URL; [db_fault k q] and
    [redis_fault k c] say whether the [k]-th statement or command sent
    to the substrate fails (connection loss, constraint violation,
    expired context, ...); [redis_ran k] says, for a command that fails,
    whether the server had run it all the same (its reply was lost or
    came too late). *)
Record Env : Type := mkEnv {
  server : nat → Duration * Exchange;
  new_request_err : string → option error;
  db_fault : nat → Query → option error;
  redis_fault : nat → Cmd → option error;
  redis_ran : nat → bool
}.

(** ** package client *)

Module client.

(** [ExternalAPIClient]: the [http.Client] is represented by its
    [Timeout]. *)
Record ExternalAPIClient : Type := mkClient {
  Timeout : Duration;
  baseURL : string
}.

Record ExternalAPIConfig : Type := mkExternalAPIConfig {
  cfg_BaseURL : string;
  cfg_Timeout : Z
}.

Definition New (cfg : ExternalAPIConfig) : ExternalAPIClient :=
  mkClient (wrap64 (wrap64 (cfg_Timeout cfg) * Second)) (cfg_BaseURL cfg).

(** Observable network activity of the client. *)
Inductive NetEvent : Type :=
| EvRequest (attempt : Z) (at_time : Z)
| EvSleep (d : Duration)
| EvInterrupted (at_time : Z).

(** The clock and the network seen by the client: [now] is the model
    clock in nanoseconds, [sent] counts the calls of [c.client.Do] whose
    request reached the external source, [trace] lists the client's
    activity, oldest first. *)
Record Net : Type := mkNet {
  now : Z;
  sent : nat;
  trace : list NetEvent
}.

(** The attempt numbers of the requests issued, and their count. *)
Definition requests (tr : list NetEvent) : list Z :=
  omap (λ e, match e with EvRequest a _ => Some a | _ => None end) tr.

Definition attempts (tr : list NetEvent) : nat := length (requests tr).

Definition sleeps (tr : list NetEvent) : list Duration :=
  omap (λ e, match e with EvSleep d => Some d | _ => None end) tr.

(** The earliest instant, with its error, at which a call of [Do]
    started at [t] is cut off: the context being done, or the client's
    own [Timeout] (zero means none), which runs from the start of the
    call over all its requests. *)
Definition cutoff (c : ExternalAPIClient) (ctx : Context) (t : Z)
  : option (Z * error) :=
  let by_client :=
    if 0 <? Timeout c
    then Some (t + Timeout c,
               External "context deadline exceeded (Client.Timeout exceeded while awaiting headers)")
    else None in
  match doneAt ctx, by_client with
  | Some td, Some (tc, ec) =>
      if td <=? tc
      then Some (td, default DeadlineExceeded (Err_at ctx td))
      else Some (tc, ec)
  | Some td, None => Some (td, default DeadlineExceeded (Err_at ctx td))
  | None, by_client => by_client
  end.

(** The statuses on which [http.Client] follows the [Location] of the
    answer to a GET. *)
Definition shouldRedirect (StatusCode : Z) : bool :=
  (StatusCode =? 301) || (StatusCode =? 302) || (StatusCode =? 303)
  || (StatusCode =? 307) || (StatusCode =? 308).

(** The loop of [http.Client.Do]: the request to [url], sent at [t] as
    number [via] of the call, is answered after [latency] by [x].  An
    answer that does not come before the cut-off instant is lost (also
    when it is due at that very instant) and the call fails then, with a
    [*url.Error] for the request in flight; a redirect that carries a
    [Location] is followed, up to the tenth request; anything else is
    what the call returns. *)
Fixpoint send (url : string) (via : nat) (t : Z) (latency : Duration)
    (x : Exchange) (cut : option (Z * error)) : Reply * Z :=
  let t_reply := t + Z.max 0 latency in
  let lost :=
    match cut with
    | Some (tc, e) => if tc <=? t_reply then Some (tc, e) else None
    | None => None
    end in
  match lost with
  | Some (tc, e) => (TransportError (URLError "Get" url e), tc)
  | None =>
      match x with
      | Final r => (r, t_reply)
      | Located StatusCode loc body d next =>
          if shouldRedirect StatusCode && negb (String.eqb loc "") then
            if (10 <=? via)%nat
            then (TransportError
                    (URLError "Get" loc
                       (ErrorString "stopped after 10 redirects")), t_reply)
            else send loc (S via) t_reply d next cut
          else (Response StatusCode body, t_reply)
      end
  end.

(** [c.client.Do(req)] for the request to [url] of attempt number
    [attempt].  Under a context that is already done the call fails with
    the context's error, in a [*url.Error], without a request reaching
    the source. *)
Definition Do (E : Env) (c : ExternalAPIClient) (ctx : Context)
    (url : string) (attempt : Z) (n : Net) : Reply * Net :=
  let t := now n in
  let tr := trace n ++ [EvRequest attempt t] in
  match Err_at ctx t with
  | Some e => (TransportError (URLError "Get" url e), mkNet t (sent n) tr)
  | None =>
      let '(latency, x) := server E (sent n) in
      let '(r, t') := send url 1 t latency x (cutoff c ctx t) in
      (r, mkNet t' (S (sent n)) tr)
  end.

(** [time.Duration(1<<uint(attempt-1)) * time.Second], in int64. *)
Definition backoff (attempt : Z) : Duration :=
  wrap64 (wrap64 (Z.shiftl 1 (attempt - 1)) * Second).

(** The [select] between [ctx.Done()] and [time.After(backoff)]: [None]
    when the timer fires first, the context's error otherwise.  When both
    are ready at the same instant the model lets the context win. *)
Definition select_backoff (ctx : Context) (d : Duration) (n : Net)
  : option error * Net :=
  let t := now n in
  let wake := t + Z.max 0 d in
  match doneAt ctx with
  | Some td =>
      if td <=? wake
      then (Some (default Canceled (Err_at ctx (Z.max t td))),
            mkNet (Z.max t td) (sent n) (trace n ++ [EvInterrupted (Z.max t td)]))
      else (None, mkNet wake (sent n) (trace n ++ [EvSleep d]))
  | None => (None, mkNet wake (sent n) (trace n ++ [EvSleep d]))
  end.

(** The variable [posts] behind [dest]: the elements of the slice, and
    what its backing array holds beyond its length. *)
Record Slice : Type := mkSlice {
  elems : list PostResponse;
  spare : list PostResponse
}.

(** [var posts []PostResponse]. *)
Definition nil_slice : Slice := mkSlice [] [].

(** The zero value of [PostResponse]. *)
Definition zero : PostResponse := mkPost 0 0 "" "".

(** [json.Unmarshal(body, dest)] for a [dest] that points to a
    [[]PostResponse].  An object is decoded into the element the slice or
    its backing array already holds at that index (into a zero value
    where the array has to grow): a field that the object does not set
    keeps what it held.  Decoding goes on after a value that does not
    fit; the first such error is the one returned.  The empty array
    leaves a fresh empty slice. *)
Definition complete (p : PostResponse) : Element :=
  EObject [MUserID (UserID p); MID (ID p); MTitle (Title p); MBody (Body p)].

Definition elements (p : Payload) : list Element :=
  match p with
  | Posts ps => complete <$> ps
  | Elements es => es
  | Undecodable _ => []
  end.

Definition store_member (p : PostResponse) (m : Member) : PostResponse :=
  match m with
  | MUserID v => mkPost v (ID p) (Title p) (Body p)
  | MID v => mkPost (UserID p) v (Title p) (Body p)
  | MTitle s => mkPost (UserID p) (ID p) s (Body p)
  | MBody s => mkPost (UserID p) (ID p) (Title p) s
  | MBad _ => p
  end.

Definition store_element (e : Element) (p : PostResponse) : PostResponse :=
  match e with
  | EObject members => fold_left store_member members p
  | ENull | EBad _ => p
  end.

Fixpoint store_elements (es : list Element) (held : list PostResponse)
  : list PostResponse :=
  match es with
  | [] => []
  | e :: es' => store_element e (hd zero held) :: store_elements es' (tl held)
  end.

Definition element_errors (e : Element) : list error :=
  match e with
  | ENull => []
  | EObject members =>
      omap (λ m, match m with MBad e => Some e | _ => None end) members
  | EBad e => [e]
  end.

Definition saved_error (es : list Element) : option error :=
  head (concat (element_errors <$> es)).

Definition unmarshal_error (p : Payload) : option error :=
  match p with
  | Undecodable e => Some e
  | _ => saved_error (elements p)
  end.

Definition Unmarshal (p : Payload) (dest : Slice) : option error * Slice :=
  (unmarshal_error p,
   match p with
   | Undecodable _ => dest
   | _ =>
       let held := elems dest ++ spare dest in
       match elements p with
       | [] => mkSlice [] []
       | es => mkSlice (store_elements es held) (drop (length es) held)
       end
   end).

(** What one pass through the body of the retry loop decides. *)
Inductive Verdict : Type :=
| Succeed
| Return (e : error)
| Retry (lastErr : error).

(** Lines 80-117 of client.go: the handling of the outcome of
    [c.client.Do], first as to the control flow, then as to what it
    leaves in [dest]. *)
Definition classify (r : Reply) : Verdict :=
  match r with
  | TransportError e => Retry (Wrap "request failed: " e)
  | Response StatusCode body =>
      if (200 <=? StatusCode) && (StatusCode <? 300) then
        match body with
        | ReadFails e => Retry (Wrap "failed to read response body: " e)
        | Bytes p =>
            match unmarshal_error p with
            | Some e => Retry (Wrap "failed to unmarshal response: " e)
            | None => Succeed
            end
        end
      else if 500 <=? StatusCode then
        Retry (ErrorString ("server error: " +:+ Itoa StatusCode))
      else if StatusCode =? 429 then
        Retry (ErrorString ("rate limited: " +:+ Itoa StatusCode))
      else if 400 <=? StatusCode then
        Return (ErrorString ("client error: " +:+ Itoa StatusCode))
      else
        Retry (ErrorString ("unexpected status code: " +:+ Itoa StatusCode))
  end.

Definition decoded (r : Reply) (dest : Slice) : Slice :=
  match r with
  | Response StatusCode (Bytes p) =>
      if (200 <=? StatusCode) && (StatusCode <? 300)
      then (Unmarshal p dest).2
      else dest
  | _ => dest
  end.

Definition max_retries_exceeded (lastErr : option error) : error :=
  match lastErr with
  | Some e => Wrap "max retries exceeded, last error: " e
  | None => WrapNil "max retries exceeded, last error: "
  end.

(** The [for attempt := ...; attempt <= maxRetries; attempt++] loop, with
    [iters] the number of iterations still to run; every iteration
    decodes into the same [dest].  On success the result carries the
    slice that [dest] then holds. *)
Fixpoint retry_loop (E : Env) (c : ExternalAPIClient) (ctx : Context)
    (url : string) (iters : nat) (attempt : Z) (lastErr : option error)
    (dest : Slice) (n : Net) : result (list PostResponse) * Net :=
  match iters with
  | O => (Err (max_retries_exceeded lastErr), n)
  | S iters' =>
      let '(interrupted, n1) :=
        if 0 <? attempt
        then select_backoff ctx (backoff attempt) n
        else (None, n) in
      match interrupted with
      | Some e => (Err e, n1)
      | None =>
          match new_request_err E url with
          | Some e => (Err (Wrap "failed to create request: " e), n1)
          | None =>
              let '(reply, n2) := Do E c ctx url attempt n1 in
              let dest' := decoded reply dest in
              match classify reply with
              | Succeed => (Ok (elems dest'), n2)
              | Return e => (Err e, n2)
              | Retry e =>
                  retry_loop E c ctx url iters' (attempt + 1) (Some e) dest' n2
              end
          end
      end
  end.

(** [retryRequest(ctx, url, dest, maxRetries)].  The loop runs for
    [attempt] from 0 to [maxRetries], not at all when [maxRetries] is
    negative. *)
Definition retryRequest (E : Env) (c : ExternalAPIClient) (ctx : Context)
    (url : string) (dest : Slice) (maxRetries : Z) (n : Net)
  : result (list PostResponse) * Net :=
  retry_loop E c ctx url (Z.to_nat (maxRetries + 1)) 0 None dest n.

Definition FetchPosts (E : Env) (c : ExternalAPIClient) (ctx : Context)
    (n : Net) : result (list PostResponse) * Net :=
  let url := baseURL c +:+ "/posts" in
  match retryRequest E c ctx url nil_slice 3 n with
  | (Err err, n') => (Err (Wrap "failed to fetch posts: " err), n')
  | (Ok posts, n') => (Ok posts, n')
  end.

End client.

(** ** package database *)

Module database.

(** The MySQL side as the two statements of database.go see it: table
    [items] in storage order with its UNIQUE key [external_id], the
    AUTO_INCREMENT counter of column [id], and the statements received
    so far (oldest first, failed ones included). *)
Record DB : Type := mkDB {
  rows : list Item;
  next_id : Z;
  statements : list Query
}.

(** [NOW()] for a model clock in nanoseconds. *)
Definition NOW (t : Z) : Z := t / Second.

Definition has_key (external_id : string) (rs : list Item) : bool :=
  existsb (λ r, String.eqb (ExternalID r) external_id) rs.

(** The [ON DUPLICATE KEY UPDATE] clause applied to the conflicting row. *)
Definition on_duplicate_key_update (title body : string) (user_id now_s : Z)
    (r : Item) : Item :=
  mkItem (item_ID r) (ExternalID r) title body user_id (CreatedAt r) now_s.

(** [INSERT INTO items ... VALUES (?, ?, ?, ?, NOW(), NOW())
     ON DUPLICATE KEY UPDATE ...] on the table contents. *)
Fixpoint insert_or_update (id : Z) (external_id title body : string)
    (user_id now_s : Z) (rs : list Item) : list Item :=
  match rs with
  | [] => [mkItem id external_id title body user_id now_s now_s]
  | r :: rs' =>
      if String.eqb (ExternalID r) external_id
      then on_duplicate_key_update title body user_id now_s r :: rs'
      else r :: insert_or_update id external_id title body user_id now_s rs'
  end.

(** [UpsertItem(item)], executed by the server at model instant [t]. *)
Definition UpsertItem (E : Env) (t : Z) (item : Item) (db : DB)
  : option error * DB :=
  let q := QUpsert (ExternalID item) (item_Title item) (item_Body item)
                   (item_UserID item) in
  let sent := statements db ++ [q] in
  match db_fault E (length (statements db)) q with
  | Some err => (Some err, mkDB (rows db) (next_id db) sent)
  | None =>
      (None,
       mkDB (insert_or_update (next_id db) (ExternalID item) (item_Title item)
               (item_Body item) (item_UserID item) (NOW t) (rows db))
            (if has_key (ExternalID item) (rows db)
             then next_id db else next_id db + 1)
            sent)
  end.

(** [ORDER BY created_at DESC]. *)
Definition created_desc (a b : Item) : Prop := CreatedAt b ≤ CreatedAt a.

Global Instance created_desc_dec a b : Decision (created_desc a b).
Proof. unfold created_desc. apply _. Defined.

(** [GetAllItems()]. *)
Definition GetAllItems (E : Env) (db : DB) : result (list Item) * DB :=
  let sent := statements db ++ [QSelectItems] in
  match db_fault E (length (statements db)) QSelectItems with
  | Some err => (Err err, mkDB (rows db) (next_id db) sent)
  | None =>
      (Ok (merge_sort created_desc (rows db)),
       mkDB (rows db) (next_id db) sent)
  end.

(** The UNIQUE constraint on [external_id]. *)
Definition unique_keys (rs : list Item) : Prop := NoDup (ExternalID <$> rs).

(** Number of stored rows with a given [external_id]. *)
Definition count_key (external_id : string) (rs : list Item) : nat :=
  length (filter (λ r, ExternalID r = external_id) rs).

Definition find_key (external_id : string) (rs : list Item) : option Item :=
  find (λ r, String.eqb (ExternalID r) external_id) rs.

End database.

(** ** package redis *)

Module redis.

Record Entry : Type := mkEntry {
  payload : CachePayload;
  expiry : option Z
}.

(** The Redis side: the key space with expiry instants, and the commands
    sent so far (oldest first, failed ones included). *)
Record Client : Type := mkClient {
  kv : gmap string Entry;
  commands : list Cmd
}.

Definition live (t : Z) (e : Entry) : bool :=
  match expiry e with
  | Some x => t <? x
  | None => true
  end.

(** What a read of [key] at instant [t] finds. *)
Definition lookup_live (t : Z) (key : string) (m : gmap string Entry)
  : option CachePayload :=
  match m !! key with
  | Some e => if live t e then Some (payload e) else None
  | None => None
  end.

Definition Nil : error := External "redis: nil".

(** Glob matching of KEYS for patterns made of literal characters, [?],
    [*] and backslash escapes (the program's only pattern is
    ["items:*"]; character classes are not modelled). *)
Fixpoint glob (p s : list ascii) : bool :=
  match p with
  | [] => match s with [] => true | _ => false end
  | c :: p' =>
      if Ascii.eqb c "*"%char then
        (fix star (s : list ascii) : bool :=
           glob p' s || match s with [] => false | _ :: s' => star s' end) s
      else if Ascii.eqb c "?"%char then
        match s with [] => false | _ :: s' => glob p' s' end
      else if Ascii.eqb c "\"%char then
        match p' with
        | e :: p'' =>
            match s with [] => false | x :: s' => Ascii.eqb e x && glob p'' s' end
        | [] =>
            match s with
            | [x] => Ascii.eqb c x
            | _ => false
            end
        end
      else
        match s with [] => false | x :: s' => Ascii.eqb c x && glob p' s' end
  end.

Definition matches (pattern key : string) : bool :=
  glob (list_ascii_of_string pattern) (list_ascii_of_string key).

(** The four commands the program issues, at model instant [t].  The two
    reads have no effect on the key space; a write that fails may or may
    not have been run by the server ([redis_ran]). *)
Definition Get (E : Env) (t : Z) (key : string) (r : Client)
  : result CachePayload * Client :=
  let r' := mkClient (kv r) (commands r ++ [CGet key]) in
  match redis_fault E (length (commands r)) (CGet key) with
  | Some err => (Err err, r')
  | None =>
      match lookup_live t key (kv r) with
      | Some v => (Ok v, r')
      | None => (Err Nil, r')
      end
  end.

Definition KeepTTL : Duration := -1.

Definition Millisecond : Duration := 1000000.

(** The expiry arguments go-redis appends to SET: [PX] with whole
    milliseconds for an expiration below a second or not a whole number
    of seconds, [EX] with whole seconds otherwise, and at least 1 of
    either unit for a positive expiration. *)
Inductive Expiration : Type :=
| PX (milliseconds : Z)
| EX (seconds : Z)
| KEEPTTL
| Persist.

Definition usePrecise (dur : Duration) : bool :=
  (dur <? Second) || negb (Z.rem dur Second =? 0).

Definition formatMs (dur : Duration) : Z :=
  if (0 <? dur) && (dur <? Millisecond) then 1 else Z.quot dur Millisecond.

Definition formatSec (dur : Duration) : Z :=
  if (0 <? dur) && (dur <? Second) then 1 else Z.quot dur Second.

Definition set_args (expiration : Duration) : Expiration :=
  if 0 <? expiration then
    if usePrecise expiration then PX (formatMs expiration)
    else EX (formatSec expiration)
  else if expiration =? KeepTTL then KEEPTTL
  else Persist.

(** The instant at which a key written at [t] expires. *)
Definition expires (t : Z) (old : option Entry) (a : Expiration) : option Z :=
  match a with
  | PX ms => Some (t + ms * Millisecond)
  | EX s => Some (t + s * Second)
  | KEEPTTL =>
      match old with
      | Some e => if live t e then expiry e else None
      | None => None
      end
  | Persist => None
  end.

Definition Set_ (E : Env) (t : Z) (key : string) (value : CachePayload)
    (ttl : Duration) (r : Client) : option error * Client :=
  let cmd := CSet key value ttl in
  let k := length (commands r) in
  let sent := commands r ++ [cmd] in
  let exp := expires t (kv r !! key) (set_args ttl) in
  let written := mkClient (<[key := mkEntry value exp]> (kv r)) sent in
  match redis_fault E k cmd with
  | Some err => (Some err, if redis_ran E k then written else mkClient (kv r) sent)
  | None => (None, written)
  end.

Definition Keys (E : Env) (t : Z) (pattern : string) (r : Client)
  : result (list string) * Client :=
  let r' := mkClient (kv r) (commands r ++ [CKeys pattern]) in
  match redis_fault E (length (commands r)) (CKeys pattern) with
  | Some err => (Err err, r')
  | None =>
      (Ok (omap (λ ke : string * Entry,
                   if live t ke.2 && matches pattern ke.1
                   then Some ke.1 else None)
                (map_to_list (kv r))), r')
  end.

Definition Del (E : Env) (keys : list string) (r : Client)
  : option error * Client :=
  let k := length (commands r) in
  let sent := commands r ++ [CDel keys] in
  let deleted := mkClient (foldr delete (kv r) keys) sent in
  match redis_fault E k (CDel keys) with
  | Some err => (Some err, if redis_ran E k then deleted else mkClient (kv r) sent)
  | None => (None, deleted)
  end.

(** [json.Marshal] of a slice of items and [json.Unmarshal] into one. *)
Definition json_Marshal (items : list Item) : result CachePayload :=
  Ok (JSONItems items).

Definition json_Unmarshal (data : CachePayload) : result (list Item) :=
  match data with
  | JSONItems items => Ok items
  | JSONOther e => Err e
  end.

Definition SetJSON (E : Env) (ctx : Context) (t : Z) (key : string)
    (value : list Item) (ttl : Duration) (r : Client) : option error * Client :=
  match json_Marshal value with
  | Err err => (Some (Wrap "failed to marshal JSON: " err), r)
  | Ok data => Set_ E t key data ttl r
  end.

Definition GetJSON (E : Env) (ctx : Context) (t : Z) (key : string)
    (r : Client) : result (list Item) * Client :=
  match Get E t key r with
  | (Err err, r') => (Err err, r')
  | (Ok data, r') => (json_Unmarshal data, r')
  end.

Definition InvalidatePattern (E : Env) (ctx : Context) (t : Z)
    (pattern : string) (r : Client) : option error * Client :=
  match Keys E t pattern r with
  | (Err err, r') => (Some err, r')
  | (Ok keys, r') =>
      if 0 <? Z.of_nat (length keys)
      then Del E keys r'
      else (None, r')
  end.

End redis.

(** ** package logger *)

Module logger.

Inductive Level : Type := Debug | Info | Warn | Error_.

Inductive Field : Type :=
| FInt (n : Z)
| FString (s : string)
| FDuration (d : Duration)
| FError (e : error).

Record Entry : Type := mkEntry {
  level : Level;
  message : string;
  fields : list (string * Field)
}.

Definition field (name : string) (e : Entry) : option Field :=
  snd <$> find (λ kv, String.eqb kv.1 name) (fields e).

End logger.

(** ** The process state shared by the jobs and the handlers *)

Record World : Type := mkWorld {
  net : client.Net;
  db : database.DB;
  rdb : redis.Client;
  logs : list logger.Entry
}.

Definition clock (w : World) : Z := client.now (net w).

Definition log (l : logger.Level) (msg : string)
    (fs : list (string * logger.Field)) (w : World) : World :=
  mkWorld (net w) (db w) (rdb w) (logs w ++ [logger.mkEntry l msg fs]).

(** ** package jobs *)

Module jobs.

(** [Manager]: its database, Redis and logger handles point into the
    [World]; [ctx] is the manager's own context, cancelled by [Stop]. *)
Record Manager : Type := mkManager {
  m_client : client.ExternalAPIClient;
  m_ctx : Context
}.

(** The item built from a post in the loop of [syncData]. *)
Definition item_of_post (post : PostResponse) : Item :=
  mkItem 0 (Itoa (ID post)) (Title post) (Body post) (UserID post) 0 0.

(** The local variables of the upsert loop. *)
Record Counts : Type := mkCounts {
  successCount : Z;
  errorCount : Z
}.

(** One iteration of [for _, post := range posts]. *)
Definition upsert_post (E : Env) (acc : Counts * World) (post : PostResponse)
  : Counts * World :=
  let '(cnt, w) := acc in
  let item := item_of_post post in
  match database.UpsertItem E (clock w) item (db w) with
  | (Some err, db') =>
      (mkCounts (successCount cnt) (errorCount cnt + 1),
       log logger.Error_ "Failed to upsert item"
         [("error", logger.FError err);
          ("external_id", logger.FString (ExternalID item))]
         (mkWorld (net w) db' (rdb w) (logs w)))
  | (None, db') =>
      (mkCounts (successCount cnt + 1) (errorCount cnt),
       mkWorld (net w) db' (rdb w) (logs w))
  end.

Definition items_pattern : string := "items:*".

(** [syncData()]. *)
Definition syncData (E : Env) (m : Manager) (w : World) : option error * World :=
  let ctx := WithTimeout (m_ctx m) (2 * Minute) (clock w) in
  let w := log logger.Info "Starting data sync" [] w in
  let start := clock w in
  match client.FetchPosts E (m_client m) ctx (net w) with
  | (Err err, n') =>
      (Some (Wrap "failed to fetch posts: " err),
       mkWorld n' (db w) (rdb w) (logs w))
  | (Ok posts, n') =>
      let w := log logger.Info "Fetched posts from external API"
                 [("count", logger.FInt (Z.of_nat (length posts)))]
                 (mkWorld n' (db w) (rdb w) (logs w)) in
      let '(cnt, w) := fold_left (upsert_post E) posts (mkCounts 0 0, w) in
      let w :=
        if 0 <? successCount cnt then
          match redis.InvalidatePattern E ctx (clock w) items_pattern (rdb w) with
          | (Some err, r') =>
              log logger.Warn "Failed to invalidate cache"
                [("error", logger.FError err)]
                (mkWorld (net w) (db w) r' (logs w))
          | (None, r') => mkWorld (net w) (db w) r' (logs w)
          end
        else w in
      let duration := clock w - start in
      let w := log logger.Info "Data sync completed"
                 [("success_count", logger.FInt (successCount cnt));
                  ("error_count", logger.FInt (errorCount cnt));
                  ("duration", logger.FDuration duration)] w in
      if 0 <? errorCount cnt then
        (Some (ErrorString ("sync completed with " +:+ Itoa (errorCount cnt)
                 +:+ " errors out of " +:+ Itoa (Z.of_nat (length posts))
                 +:+ " items")), w)
      else (None, w)
  end.

(** [SyncDataManual(ctx)]. *)
Definition SyncDataManual (E : Env) (m : Manager) (ctx : Context) (w : World)
  : option error * World :=
  syncData E m w.

(** The function registered with cron by [Start] for every 15 minutes. *)
Definition scheduled_sync (E : Env) (m : Manager) (w : World) : World :=
  match syncData E m w with
  | (Some err, w') =>
      log logger.Error_ "Failed to sync data" [("error", logger.FError err)] w'
  | (None, w') => w'
  end.

(** [Stop()] called at instant [t], as far as the manager's context is
    concerned. *)
Definition Stop (m : Manager) (t : Z) : Manager :=
  mkManager (m_client m)
    (mkContext (deadline (m_ctx m)) (omin (cancelAt (m_ctx m)) (Some t))).

End jobs.

(** ** package api *)

Module api.

Definition itemsCacheKey : string := "items:all".
Definition itemsCacheTTL : Duration := 5 * Minute.

Record Handler : Type := mkHandler {
  jobManager : jobs.Manager
}.

(** The [gin.H] bodies the handlers write. *)
Inductive JSON : Type :=
| ItemsBody (data : list Item) (count : Z) (cached : bool) (timestamp : Z)
| ErrorBody (error_ : string) (message : string)
| MessageBody (message : string) (timestamp : Z).

Record HTTPResponse : Type := mkResponse {
  status : Z;
  X_Cache : option string;
  body : JSON
}.

Definition StatusOK : Z := 200.
Definition StatusInternalServerError : Z := 500.

(** [syncData(c)], the handler of POST /api/v1/sync; [request_ctx] is
    [c.Request.Context()]. *)
Definition syncData (E : Env) (h : Handler) (request_ctx : Context) (w : World)
  : HTTPResponse * World :=
  let ctx := WithTimeout request_ctx (3 * Minute) (clock w) in
  let w := log logger.Info "Manual sync requested" [] w in
  match jobs.SyncDataManual E (jobManager h) ctx w with
  | (Some err, w') =>
      (mkResponse StatusInternalServerError None
         (ErrorBody "sync failed" (Error err)),
       log logger.Error_ "Manual sync failed" [("error", logger.FError err)] w')
  | (None, w') =>
      (mkResponse StatusOK None
         (MessageBody "sync completed successfully" (clock w')), w')
  end.

(** [getItems(c)], the handler of GET /api/v1/items. *)
Definition getItems (E : Env) (h : Handler) (request_ctx : Context) (w : World)
  : HTTPResponse * World :=
  let ctx := WithTimeout request_ctx (30 * Second) (clock w) in
  match redis.GetJSON E ctx (clock w) itemsCacheKey (rdb w) with
  | (Ok items, r') =>
      let w := log logger.Debug "Items served from cache" []
                 (mkWorld (net w) (db w) r' (logs w)) in
      (mkResponse StatusOK (Some "HIT")
         (ItemsBody items (Z.of_nat (length items)) true (clock w)), w)
  | (Err _, r') =>
      let w := mkWorld (net w) (db w) r' (logs w) in
      match database.GetAllItems E (db w) with
      | (Err err, db') =>
          (mkResponse StatusInternalServerError None
             (ErrorBody "failed to retrieve items" (Error err)),
           log logger.Error_ "Failed to get items from database"
             [("error", logger.FError err)]
             (mkWorld (net w) db' (rdb w) (logs w)))
      | (Ok items, db') =>
          let w := mkWorld (net w) db' (rdb w) (logs w) in
          let w :=
            match redis.SetJSON E ctx (clock w) itemsCacheKey items
                    itemsCacheTTL (rdb w) with
            | (Some err, r'') =>
                log logger.Warn "Failed to cache items"
                  [("error", logger.FError err)]
                  (mkWorld (net w) (db w) r'' (logs w))
            | (None, r'') => mkWorld (net w) (db w) r'' (logs w)
            end in
          let w := log logger.Debug "Items served from database"
                     [("count", logger.FInt (Z.of_nat (length items)))] w in
          (mkResponse StatusOK (Some "MISS")
             (ItemsBody items (Z.of_nat (length items)) false (clock w)), w)
      end
  end.

End api.

(** ** Vocabulary of the statements *)

(** What the [k]-th call of [c.client.Do] that goes out returns when
    nothing cuts it off, and the time it takes to do so, redirects
    included. *)
Definition exchange (E : Env) (k : nat) : Reply * Z :=
  client.send "" 1 0 (server E k).1 (server E k).2 None.

Definition latency (E : Env) (k : nat) : Duration := (exchange E k).2.
Definition reply (E : Env) (k : nat) : Reply := (exchange E k).1.

(** The request is answered before the context is done and before the
    client's own timeout: the answer is what [Do] returns. *)
Definition in_time (c : client.ExternalAPIClient) (d : Duration) : Prop :=
  client.Timeout c ≤ 0 ∨ d < client.Timeout c.

(** The failures the retry policy is specified for. *)
Inductive TransientKind : Reply → Prop :=
| transient_transport e : TransientKind (TransportError e)
| transient_5xx s b : 500 ≤ s → TransientKind (Response s b)
| transient_429 b : TransientKind (Response 429 b)
| transient_read s e :
    200 ≤ s < 300 → TransientKind (Response s (ReadFails e))
| transient_parse s e :
    200 ≤ s < 300 → TransientKind (Response s (Bytes (Undecodable e)))
| transient_mismatch s es e :
    200 ≤ s < 300 → client.saved_error es = Some e →
    TransientKind (Response s (Bytes (Elements es))).

(** The error a retried answer leaves in [lastErr]. *)
Definition retry_err (r : Reply) : option error :=
  match client.classify r with
  | client.Retry e => Some e
  | _ => None
  end.

(** Time slept before attempt number [attempt], the sleeps of [iters]
    consecutive attempts starting at [attempt], and the time they take
    when every answer arrives within [L]. *)
Definition pause (attempt : Z) : Duration :=
  if 0 <? attempt then Z.max 0 (client.backoff attempt) else 0.

Fixpoint pauses (attempt : Z) (iters : nat) : list Duration :=
  match iters with
  | O => []
  | S i =>
      (if 0 <? attempt then [client.backoff attempt] else [])
      ++ pauses (attempt + 1) i
  end.

Fixpoint horizon (L : Duration) (attempt : Z) (iters : nat) : Z :=
  match iters with
  | O => 0
  | S i => pause attempt + L + horizon L (attempt + 1) i
  end.

Fixpoint attempt_numbers (attempt : Z) (iters : nat) : list Z :=
  match iters with
  | O => []
  | S i => attempt :: attempt_numbers (attempt + 1) i
  end.

(** [lastErr] after [iters] retried answers starting at request [k]. *)
Definition last_err (E : Env) (k : nat) (iters : nat) (lastErr : option error)
  : option error :=
  match iters with
  | O => lastErr
  | S i => retry_err (reply E (k + i))
  end.

(** The upsert statement built from a post by [syncData]. *)
Definition query_of_post (p : PostResponse) : Query :=
  QUpsert (Itoa (ID p)) (Title p) (Body p) (UserID p).

(** Whether the statements [qs], sent as numbers [k], [k+1], ..., go
    through ([true]) or fail ([false]). *)
Fixpoint outcomes (E : Env) (k : nat) (qs : list Query) : list bool :=
  match qs with
  | [] => []
  | q :: qs' =>
      match db_fault E k q with None => true | Some _ => false end
      :: outcomes E (S k) qs'
  end.

Fixpoint tally (bs : list bool) : Z * Z :=
  match bs with
  | [] => (0, 0)
  | b :: bs' =>
      let '(s, f) := tally bs' in
      if b then (s + 1, f) else (s, f + 1)
  end.

(** The statements a run sent to the store, and the SyncOutcome counts
    of the run: how many of its upserts succeeded and how many failed. *)
Definition executed (w w' : World) : list Query :=
  drop (length (database.statements (db w))) (database.statements (db w')).

Definition succeeded (E : Env) (w w' : World) : Z :=
  (tally (outcomes E (length (database.statements (db w))) (executed w w'))).1.

Definition failed (E : Env) (w w' : World) : Z :=
  (tally (outcomes E (length (database.statements (db w))) (executed w w'))).2.

(** The commands a run sent to the cache. *)
Definition issued (w w' : World) : list Cmd :=
  drop (length (redis.commands (rdb w))) (redis.commands (rdb w')).

(** The fetch step of a run started in [w] by manager [m]. *)
Definition fetch_of (E : Env) (m : jobs.Manager) (w : World)
  : result (list PostResponse) * client.Net :=
  client.FetchPosts E (jobs.m_client m)
    (WithTimeout (jobs.m_ctx m) (2 * Minute) (clock w)) (net w).

(** The stored row that mirrors a post. *)
Definition mirrors (r : Item) (p : PostResponse) : Prop :=
  ExternalID r = Itoa (ID p) ∧ item_Title r = Title p ∧
  item_Body r = Body p ∧ item_UserID r = UserID p.

(** The store after the upserts of [posts], all executed at instant
    [t]. *)
Definition db_after (E : Env) (t : Z) (posts : list PostResponse)
    (d : database.DB) : database.DB :=
  fold_left (λ d p, (database.UpsertItem E t (jobs.item_of_post p) d).2) posts d.

(** Two environments that differ at most in the behaviour of the cache. *)
Definition same_but_cache (E E' : Env) : Prop :=
  server E' = server E ∧ new_request_err E' = new_request_err E ∧
  db_fault E' = db_fault E.

(** A text between double quotes. *)
Definition quoted (s : string) : string :=
  String strconv.double_quote (s +:+ String strconv.double_quote EmptyString).

(** The log entries and the summary error of a run. *)
Definition starting : logger.Entry :=
  logger.mkEntry logger.Info "Starting data sync" [].

Definition completed (s f : Z) (duration : Duration) : logger.Entry :=
  logger.mkEntry logger.Info "Data sync completed"
    [("success_count", logger.FInt s); ("error_count", logger.FInt f);
     ("duration", logger.FDuration duration)].

Definition invalidation_warning (err : error) : logger.Entry :=
  logger.mkEntry logger.Warn "Failed to invalidate cache"
    [("error", logger.FError err)].

Definition errors_out_of (f : Z) (M : nat) : error :=
  ErrorString ("sync completed with " +:+ Itoa f +:+ " errors out of "
               +:+ Itoa (Z.of_nat M) +:+ " items").

(** ** Scenarios used to exercise the statements *)

Module scenario.

Definition no_faults_db : nat → Query → option error := λ _ _, None.
Definition no_faults_redis : nat → Cmd → option error := λ _ _, None.

(** A source answering every request with status [s] after 50 ms. *)
Definition always_status (s : Z) : Env :=
  mkEnv (λ _, (50000000, Final (Response s (Bytes (Posts [])))))
        (λ _, None) no_faults_db no_faults_redis (λ _, false).

Definition api_client : client.ExternalAPIClient :=
  client.New (client.mkExternalAPIConfig "https://jsonplaceholder.typicode.com" 30).

Definition idle : client.Net := client.mkNet 0 0 [].

(** A context whose deadline is two seconds away, and one cancelled
    before the call. *)
Definition two_seconds : Context := mkContext (Some (2 * Second)) None.
Definition cancelled : Context := mkContext None (Some 0).

(** An empty store and an empty cache. *)
Definition empty_db : database.DB := database.mkDB [] 1 [].
Definition empty_cache : redis.Client := redis.mkClient ∅ [].
Definition start : World := mkWorld idle empty_db empty_cache [].

Definition post_A : PostResponse := mkPost 1 1 "A" "b".
Definition post_B : PostResponse := mkPost 1 2 "B" "c".

(** Ten posts with the IDs 1 to 10. *)
Definition ten_posts : list PostResponse :=
  (λ i, mkPost 1 i ("title " +:+ Itoa i) "body") <$> seqZ 1 10.

(** A source that serves [posts] after 50 ms, with a store whose
    statements numbered in [bad] fail and a cache whose commands
    numbered in [bad_cmd] fail. *)
Definition serving (posts : list PostResponse) (bad bad_cmd : list nat) : Env :=
  mkEnv (λ _, (50000000, Final (Response 200 (Bytes (Posts posts)))))
        (λ _, None)
        (λ k _, if bool_decide (k ∈ bad)
                then Some (External "driver: bad connection") else None)
        (λ k _, if bool_decide (k ∈ bad_cmd)
                then Some (External "redis: connection refused") else None)
        (λ _, false).

(** A source that answers 500 three times and then serves [posts], each
    time after 29 s. *)
Definition recovering (posts : list PostResponse) : Env :=
  mkEnv (λ k, (29 * Second,
               Final (if bool_decide (k < 3)%nat
                      then Response 500 (Bytes (Posts []))
                      else Response 200 (Bytes (Posts posts)))))
        (λ _, None) no_faults_db no_faults_redis (λ _, false).

(** A source that has moved: it answers every request with status [s]
    and a Location, under which [posts] are served; 50 ms each. *)
Definition moved (s : Z) (posts : list PostResponse) : Env :=
  mkEnv (λ _, (50000000,
               Located s "https://example.org/posts" (Bytes (Posts []))
                 50000000 (Final (Response 200 (Bytes (Posts posts))))))
        (λ _, None) no_faults_db no_faults_redis (λ _, false).


(** A cache connection that loses the reply to its second command: the
    server runs the command, the client reports an error. *)
Definition lost_reply : Env :=
  mkEnv (λ _, (50000000, Final (Response 200 (Bytes (Posts [])))))
        (λ _, None) no_faults_db
        (λ k _, if bool_decide (k = 1)%nat
                then Some (External "read tcp: i/o timeout") else None)
        (λ _, true).

(** A cached value that is no listing of items, such as [{}]. *)
Definition orders_payload : CachePayload :=
  JSONOther (External "json: cannot unmarshal object into Go value of type []database.Item").

(** A cache holding a listing under the items key and an unrelated key,
    neither with an expiry. *)
Definition warm_cache : redis.Client :=
  redis.mkClient
    (<["items:all" := redis.mkEntry (JSONItems []) None]>
       (<["orders:all" := redis.mkEntry orders_payload None]> ∅)) [].
Definition warm : World := mkWorld idle empty_db warm_cache [].

(** A store with one row and a cache that holds its listing. *)
Definition cached : World :=
  mkWorld idle (database.mkDB [mkItem 1 "1" "A" "b" 1 0 0] 2 [])
    (redis.mkClient
       (<["items:all" := redis.mkEntry (JSONItems [mkItem 1 "1" "A" "b" 1 0 0])
                           None]> ∅) []) [].

(** The manager built by [jobs.New]: its context is never cancelled
    unless [Stop] is called. *)
Definition manager : jobs.Manager := jobs.mkManager api_client Background.

End scenario.

(** ** Construction, configuration and the passing of time *)

(** package config; the process environment is a finite map, and
    [os.Getenv] yields the empty string for a variable that is not
    set. *)
Module config.

Record DatabaseConfig : Type := mkDatabaseConfig {
  db_Host : string;
  db_Port : Z;
  db_User : string;
  db_Password : string;
  db_Name : string
}.

Record RedisConfig : Type := mkRedisConfig {
  redis_Host : string;
  redis_Port : Z;
  redis_Password : string;
  redis_DB : Z
}.

Record Config : Type := mkConfig {
  Environment : string;
  Port : string;
  Database : DatabaseConfig;
  Redis : RedisConfig;
  ExternalAPI : client.ExternalAPIConfig
}.

Definition Getenv (env : gmap string string) (key : string) : string :=
  default "" (env !! key).

Definition getEnv (env : gmap string string) (key defaultValue : string)
  : string :=
  let value := Getenv env key in
  if negb (String.eqb value "") then value else defaultValue.

Definition getEnvAsInt (env : gmap string string) (key : string)
    (defaultValue : Z) : Z :=
  let value := Getenv env key in
  if negb (String.eqb value "") then
    match strconv.Atoi value with
    | Some intValue => intValue
    | None => defaultValue
    end
  else defaultValue.

Definition Load (env : gmap string string) : Config :=
  mkConfig
    (getEnv env "ENVIRONMENT" "development")
    (getEnv env "PORT" "8080")
    (mkDatabaseConfig
       (getEnv env "DB_HOST" "localhost")
       (getEnvAsInt env "DB_PORT" 3306)
       (getEnv env "DB_USER" "apiuser")
       (getEnv env "DB_PASSWORD" "apipassword")
       (getEnv env "DB_NAME" "api_gateway"))
    (mkRedisConfig
       (getEnv env "REDIS_HOST" "localhost")
       (getEnvAsInt env "REDIS_PORT" 6379)
       (getEnv env "REDIS_PASSWORD" "")
       (getEnvAsInt env "REDIS_DB" 0))
    (client.mkExternalAPIConfig
       (getEnv env "EXTERNAL_API_URL" "https://jsonplaceholder.typicode.com")
       (getEnvAsInt env "EXTERNAL_API_TIMEOUT" 30)).

End config.

(** [jobs.New]: the manager's client is built from the configuration and
    its context is a cancellable child of [context.Background()]. *)
Definition jobs_New (apiCfg : client.ExternalAPIConfig) : jobs.Manager :=
  jobs.mkManager (client.New apiCfg) Background.

(** [api.NewRouter], as far as the handler's dependencies go: the handler
    gets a job manager of its own. *)
Definition NewRouter (apiCfg : client.ExternalAPIConfig) : api.Handler :=
  api.mkHandler (jobs_New apiCfg).

(** [dt] nanoseconds during which the process does nothing. *)
Definition elapse (dt : Duration) (w : World) : World :=
  mkWorld (client.mkNet (clock w + dt) (client.sent (net w))
             (client.trace (net w)))
          (db w) (rdb w) (logs w).

(** The listing [GetAllItems] returns for a table. *)
Definition listing (rs : list Item) : list Item :=
  merge_sort database.created_desc rs.

(** The cache holds no stale listing at instant [t]: whatever listing a
    read of the items key would find then is the listing of the store. *)
Definition fresh_cache (t : Z) (w : World) : Prop :=
  ∀ items,
    redis.lookup_live t api.itemsCacheKey (redis.kv (rdb w))
      = Some (JSONItems items) →
    items = listing (database.rows (db w)).

(** * Lemmas and theorems *)

(** Case analysis on the integer comparisons of the goal. *)
Ltac zcases :=
  repeat match goal with
  | |- context [?a <=? ?b] => destruct (Z.leb_spec a b)
  | |- context [?a <? ?b] => destruct (Z.ltb_spec a b)
  | |- context [?a =? ?b] => destruct (Z.eqb_spec a b)
  end; cbn [andb orb negb]; try lia.


(** ** Contexts *)

Lemma alive_until_mono ctx t t' :
  alive_until ctx t' → t ≤ t' → alive_until ctx t.
Proof. unfold alive_until. destruct (doneAt ctx); [lia | done]. Qed.

Lemma alive_Err_at ctx t : alive_until ctx t → Err_at ctx t = None.
Proof.
  unfold alive_until, doneAt, Err_at, omin.
  destruct (deadline ctx) as [d|], (cancelAt ctx) as [c|]; intros H;
    repeat case_match; try done; lia.
Qed.

Lemma done_Err_at ctx t td :
  doneAt ctx = Some td → td ≤ t → is_Some (Err_at ctx t).
Proof.
  unfold doneAt, Err_at, omin.
  destruct (deadline ctx) as [d|], (cancelAt ctx) as [c|]; intros H Hle;
    simplify_eq; repeat case_match; try (by eexists); lia.
Qed.

(** ** The retrying client *)

Section Client.

Import client.

Variable E : Env.
Variable c : ExternalAPIClient.
Variable ctx : Context.

Lemma requests_app tr tr' : requests (tr ++ tr') = requests tr ++ requests tr'.
Proof. unfold requests. apply omap_app. Qed.

Lemma sleeps_app tr tr' : sleeps (tr ++ tr') = sleeps tr ++ sleeps tr'.
Proof. unfold sleeps. apply omap_app. Qed.

(** Without a cut-off, what [send] returns does not depend on the URL,
    and the time it takes does not depend on the instant it starts. *)
Lemma send_None x : ∀ url via t d,
  send url via t d x None =
    ((send "" via 0 d x None).1, t + (send "" via 0 d x None).2).
Proof.
  induction x as [r|s loc b d' next IH]; intros url via t d; cbn [send].
  - cbn; f_equal; lia.
  - destruct (shouldRedirect s && negb (String.eqb loc "")).
    + destruct (10 <=? via)%nat; [cbn; f_equal; lia|].
      rewrite (IH loc (S via) (t + Z.max 0 d) d').
      rewrite (IH loc (S via) (0 + Z.max 0 d) d'). cbn; f_equal; lia.
    + cbn; f_equal; lia.
Qed.

Lemma send_time_nonneg x : ∀ via d, 0 ≤ (send "" via 0 d x None).2.
Proof.
  induction x as [r|s loc b d' next IH]; intros via d; cbn [send].
  - cbn. lia.
  - destruct (shouldRedirect s && negb (String.eqb loc "")).
    + destruct (10 <=? via)%nat; [cbn; lia|].
      rewrite send_None. cbn. specialize (IH (S via) d'). lia.
    + cbn. lia.
Qed.

(** What [send] returns under a cut-off: it ends by the cut-off instant,
    and it either fails or returns, on time, what it would return
    without a cut-off. *)
Lemma send_facts x : ∀ url via t d cut r t',
  send url via t d x cut = (r, t') →
  (∀ tc e, cut = Some (tc, e) → t ≤ tc) →
  t ≤ t' ∧
  (∀ tc e, cut = Some (tc, e) → t' ≤ tc) ∧
  ((∃ e, r = TransportError e) ∨
   (r = (send "" via 0 d x None).1 ∧ t' = t + (send "" via 0 d x None).2)).
Proof.
  induction x as [r0|s loc b d' next IH]; intros url via t d cut r t' Hs Hcut;
    cbn [send] in Hs |- *.
  - destruct cut as [[tc e]|].
    + specialize (Hcut tc e eq_refl).
      destruct (Z.leb_spec tc (t + Z.max 0 d)); simplify_eq.
      * split; [lia|]. split; [by intros ? ? [= <- <-]|]. left. by eexists.
      * split; [lia|]. split; [intros ? ? [= <- <-]; lia|]. right.
        cbn. split; [done | lia].
    + simplify_eq. split; [lia|]. split; [done|]. right. cbn. split; [done|lia].
  - pose proof (send_time_nonneg next (S via) d') as Hnn.
    destruct cut as [[tc e]|].
    + specialize (Hcut tc e eq_refl).
      destruct (Z.leb_spec tc (t + Z.max 0 d)) as [Hle|Hgt].
      { simplify_eq. split; [lia|]. split; [by intros ? ? [= <- <-]|].
        left. by eexists. }
      destruct (shouldRedirect s && negb (String.eqb loc "")).
      * destruct (10 <=? via)%nat.
        { simplify_eq. split; [lia|]. split; [intros ? ? [= <- <-]; lia|].
          left. by eexists. }
        apply IH in Hs as (Ht & Htc & Hr);
          [|intros ? ? [= <- <-]; lia].
        split; [lia|]. split; [done|].
        destruct Hr as [?|[-> ->]]; [by left|]. right.
        rewrite (send_None next loc (S via) (0 + Z.max 0 d) d'). cbn.
        split; [done | lia].
      * simplify_eq. split; [lia|]. split; [intros ? ? [= <- <-]; lia|].
        right. cbn. split; [done | lia].
    + destruct (shouldRedirect s && negb (String.eqb loc "")).
      * destruct (10 <=? via)%nat.
        { simplify_eq. split; [lia|]. split; [done|]. right. cbn.
          split; [done | lia]. }
        rewrite send_None in Hs.
        rewrite (send_None next loc (S via) (0 + Z.max 0 d) d').
        simplify_eq. cbn. split; [lia|]. split; [done|]. right.
        split; [done | lia].
      * simplify_eq. split; [lia|]. split; [done|]. right. cbn.
        split; [done | lia].
Qed.

(** A call that nothing cuts off. *)
Lemma send_uncut x url via t d cut :
  (∀ tc e, cut = Some (tc, e) → t + (send "" via 0 d x None).2 < tc) →
  send url via t d x cut =
    ((send "" via 0 d x None).1, t + (send "" via 0 d x None).2).
Proof.
  destruct cut as [[tc e]|]; [|intros _; apply send_None].
  intros Hcut. specialize (Hcut tc e eq_refl).
  revert url via t d Hcut.
  induction x as [r0|s loc b d' next IH]; intros url via t d Hcut;
    cbn [send] in *.
  - cbn in Hcut.
    destruct (Z.leb_spec tc (t + Z.max 0 d)); [lia|]. cbn; f_equal; lia.
  - pose proof (send_time_nonneg next (S via) d') as Hnn.
    destruct (shouldRedirect s && negb (String.eqb loc "")).
    + destruct (10 <=? via)%nat.
      { cbn in Hcut. destruct (Z.leb_spec tc (t + Z.max 0 d)); [lia|].
        cbn; f_equal; lia. }
      rewrite (send_None next loc (S via) (0 + Z.max 0 d) d') in Hcut |- *.
      cbn [fst snd] in Hcut |- *.
      destruct (Z.leb_spec tc (t + Z.max 0 d)); [lia|].
      rewrite IH; [f_equal; lia | lia].
    + cbn in Hcut. destruct (Z.leb_spec tc (t + Z.max 0 d)); [lia|].
      cbn; f_equal; lia.
Qed.

Lemma latency_nonneg k : 0 ≤ latency E k.
Proof. apply send_time_nonneg. Qed.

Lemma Do_delivered url attempt n :
  alive_until ctx (now n + latency E (sent n)) →
  in_time c (latency E (sent n)) →
  Do E c ctx url attempt n =
    (reply E (sent n),
     mkNet (now n + latency E (sent n)) (S (sent n))
           (trace n ++ [EvRequest attempt (now n)])).
Proof.
  pose proof (latency_nonneg (sent n)) as Hnn.
  unfold Do, latency, reply, exchange, in_time in *. intros Hal Hto.
  destruct (server E (sent n)) as [lat x]; cbn [fst snd] in *.
  rewrite (alive_Err_at ctx (now n)) by (eapply alive_until_mono; [done | lia]).
  rewrite send_uncut; [done|].
  unfold cutoff, alive_until in *. intros tc e.
  destruct (doneAt ctx) as [td|]; repeat case_match; intros; simplify_eq; lia.
Qed.

Lemma Do_done url attempt n e :
  Err_at ctx (now n) = Some e →
  Do E c ctx url attempt n =
    (TransportError (URLError "Get" url e),
     mkNet (now n) (sent n) (trace n ++ [EvRequest attempt (now n)])).
Proof. unfold Do. by intros ->. Qed.

Lemma select_backoff_fires d n :
  alive_until ctx (now n + Z.max 0 d) →
  select_backoff ctx d n =
    (None, mkNet (now n + Z.max 0 d) (sent n) (trace n ++ [EvSleep d])).
Proof.
  unfold select_backoff, alive_until.
  destruct (doneAt ctx) as [td|]; [|done].
  intros H. case_match; [lia | done].
Qed.

Lemma select_backoff_interrupted d n td :
  doneAt ctx = Some td →
  td < now n + Z.max 0 d →
  ∃ e, Err_at ctx (Z.max (now n) td) = Some e ∧
       select_backoff ctx d n =
         (Some e, mkNet (Z.max (now n) td) (sent n)
                        (trace n ++ [EvInterrupted (Z.max (now n) td)])).
Proof.
  intros Hd Hlt.
  destruct (done_Err_at ctx (Z.max (now n) td) td Hd) as [e He]; [lia|].
  exists e. split; [done|].
  unfold select_backoff. rewrite Hd, He. case_match; [done | lia].
Qed.

Lemma Err_at_sentinel t e :
  Err_at ctx t = Some e → e = Canceled ∨ e = DeadlineExceeded.
Proof.
  unfold Err_at. repeat case_match; intros; simplify_eq; auto.
Qed.

End Client.

Section Retry.

Import client.

Variable E : Env.
Variable c : ExternalAPIClient.
Variable ctx : Context.
Variable url : string.
Hypothesis url_ok : new_request_err E url = None.

Lemma retry_loop_S iters attempt lastErr dest n :
  retry_loop E c ctx url (S iters) attempt lastErr dest n =
    let '(interrupted, n1) :=
      if 0 <? attempt
      then select_backoff ctx (backoff attempt) n
      else (None, n) in
    match interrupted with
    | Some e => (Err e, n1)
    | None =>
        match new_request_err E url with
        | Some e => (Err (Wrap "failed to create request: " e), n1)
        | None =>
            let '(reply, n2) := Do E c ctx url attempt n1 in
            let dest' := decoded reply dest in
            match classify reply with
            | Succeed => (Ok (elems dest'), n2)
            | Return e => (Err e, n2)
            | Retry e =>
                retry_loop E c ctx url iters (attempt + 1) (Some e) dest' n2
            end
        end
    end.
Proof. reflexivity. Qed.

(** One pass through the loop body when the request is answered. *)
Lemma retry_loop_iter iters attempt lastErr dest n :
  alive_until ctx (now n + pause attempt + latency E (sent n)) →
  in_time c (latency E (sent n)) →
  retry_loop E c ctx url (S iters) attempt lastErr dest n =
    let n2 :=
      mkNet (now n + pause attempt + latency E (sent n)) (S (sent n))
            (trace n ++ (if 0 <? attempt then [EvSleep (backoff attempt)] else [])
                     ++ [EvRequest attempt (now n + pause attempt)]) in
    let dest' := decoded (reply E (sent n)) dest in
    match classify (reply E (sent n)) with
    | Succeed => (Ok (elems dest'), n2)
    | Return e => (Err e, n2)
    | Retry e => retry_loop E c ctx url iters (attempt + 1) (Some e) dest' n2
    end.
Proof.
  intros Hal Hto. cbn [retry_loop]. unfold pause in *.
  pose proof (latency_nonneg E (sent n)).
  destruct (0 <? attempt) eqn:Hpos.
  - rewrite select_backoff_fires by (eapply alive_until_mono; [done | lia]).
    rewrite url_ok, Do_delivered by done. cbn [now sent trace].
    rewrite <- app_assoc. done.
  - rewrite url_ok, Do_delivered
      by first [done | eapply alive_until_mono; [done | lia]].
    rewrite !Z.add_0_r. done.
Qed.

(** A retry whose backoff wait is cut short by the context. *)
Lemma retry_loop_interrupted iters attempt lastErr dest n td :
  0 < attempt →
  doneAt ctx = Some td →
  td < now n + Z.max 0 (backoff attempt) →
  ∃ e n',
    retry_loop E c ctx url (S iters) attempt lastErr dest n = (Err e, n') ∧
    Err_at ctx (Z.max (now n) td) = Some e ∧
    (e = Canceled ∨ e = DeadlineExceeded) ∧
    now n' = Z.max (now n) td ∧
    sent n' = sent n ∧
    requests (trace n') = requests (trace n).
Proof.
  intros Hpos Hd Hlt. cbn [retry_loop].
  apply Z.ltb_lt in Hpos. rewrite Hpos.
  destruct (select_backoff_interrupted ctx _ n td Hd Hlt) as (e & He & ->).
  eexists _, _. split; [done|]. split; [done|].
  split; [by eapply Err_at_sentinel|].
  cbn. rewrite requests_app. cbn. by rewrite app_nil_r.
Qed.

(** [iters] retried answers in a row exhaust the loop. *)
Lemma horizon_nonneg L attempt iters : 0 ≤ L → 0 ≤ horizon L attempt iters.
Proof.
  intros HL. revert attempt.
  induction iters as [|j IHj]; intros a; cbn; [lia|].
  specialize (IHj (a + 1)). unfold pause. case_match; lia.
Qed.

Lemma retry_loop_exhausted L iters :
  0 ≤ L →
  in_time c L →
  ∀ attempt lastErr dest n,
    (∀ k, (sent n ≤ k < sent n + iters)%nat →
          latency E k ≤ L ∧ is_Some (retry_err (reply E k))) →
    alive_until ctx (now n + horizon L attempt iters) →
    ∃ n',
      retry_loop E c ctx url iters attempt lastErr dest n =
        (Err (max_retries_exceeded (last_err E (sent n) iters lastErr)), n') ∧
      sent n' = (sent n + iters)%nat ∧
      now n' ≤ now n + horizon L attempt iters ∧
      requests (trace n') = requests (trace n) ++ attempt_numbers attempt iters ∧
      sleeps (trace n') = sleeps (trace n) ++ pauses attempt iters.
Proof.
  intros HL0 Hto.
  induction iters as [|i IH]; intros attempt lastErr dest n Hsrv Hal.
  - exists n. cbn. rewrite !app_nil_r, Nat.add_0_r. repeat split; lia.
  - cbn [horizon] in Hal.
    assert (0 ≤ pause attempt) by (unfold pause; case_match; lia).
    pose proof (latency_nonneg E (sent n)).
    destruct (Hsrv (sent n)) as [HL [e He]]; [lia|].
    pose proof (horizon_nonneg L (attempt + 1) i HL0).
    rewrite retry_loop_iter; cycle 1.
    { eapply alive_until_mono; [done | lia]. }
    { destruct Hto; [by left | right; lia]. }
    unfold retry_err in He. cbn zeta.
    destruct (classify (reply E (sent n))) eqn:Hc; simplify_eq.
    match goal with
    | |- context [retry_loop _ _ _ _ _ _ _ ?dest2 ?n2] =>
        destruct (IH (attempt + 1) (Some e) dest2 n2)
          as (n' & Hrun & Hs & Hn & Hr & Hsl);
          [ cbn [sent]; intros k Hk; apply Hsrv; lia
          | cbn [now]; eapply alive_until_mono; [done | lia]
          | rewrite Hrun ]
    end.
    cbn [sent now trace] in *. exists n'.
    split.
    { do 2 f_equal. unfold last_err. destruct i as [|j].
      - cbn. unfold retry_err. by rewrite Nat.add_0_r, Hc.
      - cbn [last_err]. do 3 f_equal. lia. }
    split; [lia|]. split; [cbn [horizon]; lia|].
    rewrite Hr, Hsl, !requests_app, !sleeps_app. cbn [pauses attempt_numbers].
    split.
    + case_match; cbn; by rewrite ?app_nil_r, <- ?app_assoc.
    + case_match; cbn; by rewrite ?app_nil_r, <- ?app_assoc.
Qed.

End Retry.

(** ** Classification of answers *)

Section Classification.

Import client.




Lemma classify_transient r : TransientKind r → is_Some (retry_err r).
Proof.
  unfold retry_err. destruct 1; cbn; zcases; try by eexists.
  unfold saved_error in *. cbn [elements].
  match goal with H : head _ = Some _ |- _ => rewrite H end. by eexists.
Qed.

Lemma classify_client_error s b :
  400 ≤ s < 500 → s ≠ 429 →
  classify (Response s b) = Return (ErrorString ("client error: " +:+ Itoa s)).
Proof. intros. cbn. zcases; done. Qed.

Lemma classify_unexpected s b :
  ¬ (200 ≤ s < 300) → s < 400 →
  classify (Response s b) =
    Retry (ErrorString ("unexpected status code: " +:+ Itoa s)).
Proof. intros. cbn. zcases; done. Qed.

Lemma classify_Succeed_inv r :
  classify r = Succeed →
  ∃ s p, r = Response s (Bytes p) ∧ 200 ≤ s < 300 ∧ unmarshal_error p = None.
Proof.
  destruct r as [e|s b]; cbn; [done|].
  zcases; repeat case_match; intros; simplify_eq.
  eexists s, _. split; [done|]. split; [lia | done].
Qed.

Lemma classify_Return_inv r e :
  classify r = Return e →
  ∃ s b, r = Response s b ∧ 400 ≤ s < 500 ∧ s ≠ 429 ∧
         e = ErrorString ("client error: " +:+ Itoa s).
Proof.
  destruct r as [e'|s b]; cbn; [done|].
  zcases; repeat case_match; intros; simplify_eq.
  exists s, b. repeat split; lia.
Qed.

End Classification.

(** ** FetchPosts *)

Section Fetch.

Import client.

Variable E : Env.
Variable c : ExternalAPIClient.
Variable ctx : Context.
Hypothesis url_ok : new_request_err E (baseURL c +:+ "/posts") = None.

Lemma horizon_fetch L : horizon L 0 4 = 4 * L + 7 * Second.
Proof.
  cbn [horizon].
  change (pause 0) with 0. change (pause (0 + 1)) with Second.
  change (pause (0 + 1 + 1)) with (2 * Second).
  change (pause (0 + 1 + 1 + 1)) with (4 * Second). lia.
Qed.

Lemma FetchPosts_exhausted L n :
  0 ≤ L → in_time c L →
  (∀ k, (sent n ≤ k < sent n + 4)%nat →
        latency E k ≤ L ∧ is_Some (retry_err (reply E k))) →
  alive_until ctx (now n + 4 * L + 7 * Second) →
  ∃ e n',
    retry_err (reply E (sent n + 3)) = Some e ∧
    FetchPosts E c ctx n =
      (Err (Wrap "failed to fetch posts: "
              (Wrap "max retries exceeded, last error: " e)), n') ∧
    sent n' = (sent n + 4)%nat ∧
    now n' ≤ now n + 4 * L + 7 * Second ∧
    requests (trace n') = requests (trace n) ++ [0; 1; 2; 3] ∧
    sleeps (trace n') = sleeps (trace n) ++ [Second; 2 * Second; 4 * Second].
Proof.
  intros HL Hto Hsrv Hal.
  destruct (retry_loop_exhausted E c ctx _ url_ok L 4 HL Hto 0 None nil_slice
              n Hsrv)
    as (n' & Hrun & Hs & Hn & Hr & Hsl).
  { rewrite horizon_fetch. by rewrite <- Z.add_assoc in Hal. }
  destruct (Hsrv (sent n + 3)%nat) as [_ [e He]]; [lia|].
  exists e, n'. split; [done|].
  unfold FetchPosts, retryRequest.
  change (Z.to_nat (3 + 1)) with 4%nat. rewrite Hrun.
  cbn [last_err]. rewrite He. cbn [max_retries_exceeded].
  rewrite horizon_fetch in Hn. repeat split; try done; lia.
Qed.

Lemma Err_at_doneAt t e :
  Err_at ctx t = Some e → ∃ td, doneAt ctx = Some td ∧ td ≤ t.
Proof.
  unfold Err_at, doneAt, omin.
  destruct (deadline ctx), (cancelAt ctx); repeat case_match; intros;
    simplify_eq; eexists; (split; [done | lia]).
Qed.

Lemma Err_at_stable t t' e :
  Err_at ctx t = Some e → t ≤ t' → Err_at ctx t' = Some e.
Proof.
  unfold Err_at.
  destruct (deadline ctx), (cancelAt ctx); repeat case_match; intros;
    simplify_eq; try done; lia.
Qed.

(** A call under a context that is already done. *)
Lemma FetchPosts_done n e :
  Err_at ctx (now n) = Some e →
  FetchPosts E c ctx n =
    (Err (Wrap "failed to fetch posts: " e),
     mkNet (now n) (sent n)
           (trace n ++ [EvRequest 0 (now n); EvInterrupted (now n)])).
Proof.
  intros He. destruct (Err_at_doneAt _ _ He) as (td & Hd & Hle).
  unfold FetchPosts, retryRequest. change (Z.to_nat (3 + 1)) with 4%nat.
  rewrite retry_loop_S. change (0 <? 0) with false. cbv iota.
  rewrite url_ok, (Do_done E c ctx _ 0 n e He). cbn [classify].
  rewrite retry_loop_S. change (0 <? 0 + 1) with true. cbv iota.
  unfold select_backoff. cbn [now sent trace]. rewrite Hd.
  replace (Z.max (now n) td) with (now n) by lia. rewrite He.
  zcases. cbn. by rewrite <- app_assoc.
Qed.

(** A first answer that is a client error ends the call. *)
Lemma FetchPosts_client_error n s b :
  reply E (sent n) = Response s b →
  400 ≤ s < 500 → s ≠ 429 →
  alive_until ctx (now n + latency E (sent n)) →
  in_time c (latency E (sent n)) →
  FetchPosts E c ctx n =
    (Err (Wrap "failed to fetch posts: "
            (ErrorString ("client error: " +:+ Itoa s))),
     mkNet (now n + latency E (sent n)) (S (sent n))
           (trace n ++ [EvRequest 0 (now n)])).
Proof.
  intros Hr Hs Hne Hal Hto.
  unfold FetchPosts, retryRequest. change (Z.to_nat (3 + 1)) with 4%nat.
  rewrite (retry_loop_iter E c ctx _ url_ok) by (by rewrite ?Z.add_0_r).
  rewrite Hr, classify_client_error by done.
  change (pause 0) with 0. change (0 <? 0) with false.
  cbn. by rewrite !Z.add_0_r.
Qed.

End Fetch.

(** ** The retry policy of the Fetcher *)

Section FetcherClaims.

Import client.

(** C1, the claim as stated, fails on the backoff schedule: against a
    source that always answers HTTP 500 the call makes 4 attempts and
    waits 1s, 2s and 4s between them; no wait of 8s takes place. *)
Lemma backoff_8s_never_waited :
  let n' := (FetchPosts (scenario.always_status 500) scenario.api_client
               Background scenario.idle).2 in
  attempts (trace n') = 4%nat ∧
  sleeps (trace n') = [Second; 2 * Second; 4 * Second] ∧
  sleeps (trace n') ≠ [Second; 2 * Second; 4 * Second; 8 * Second] ∧
  8 * Second ∉ sleeps (trace n').
Proof.
  cbv zeta.
  assert (Hs : sleeps (trace (FetchPosts (scenario.always_status 500)
                 scenario.api_client Background scenario.idle).2)
               = [Second; 2 * Second; 4 * Second]) by (vm_compute; reflexivity).
  split; [vm_compute; reflexivity|]. split; [exact Hs|].
  rewrite Hs. split; [discriminate|].
  rewrite !elem_of_cons, elem_of_nil. unfold Second. lia.
Qed.

(** C1 (amended): transport failures, 5xx answers, HTTP 429 and
    undecodable or unreadable 2xx bodies are all retried; four such
    answers in a row make [FetchPosts] issue exactly 4 attempts, sleeping
    1s, 2s and 4s between consecutive attempts, and return "max retries
    exceeded" wrapping the failure of the last attempt; a backoff wait
    during which the context becomes done ends the call at that instant
    with the context's error and without a further attempt; and a call
    made under a context that is already done returns the context's
    error without letting time pass or a request reach the source. *)
Theorem fetch_retry_policy (E : Env) (c : ExternalAPIClient) :
  new_request_err E (baseURL c +:+ "/posts") = None →
  (∀ r, TransientKind r → is_Some (retry_err r)) ∧
  (∀ ctx n L,
     0 ≤ L → in_time c L →
     (∀ k, (sent n ≤ k < sent n + 4)%nat →
           latency E k ≤ L ∧ TransientKind (reply E k)) →
     alive_until ctx (now n + 4 * L + 7 * Second) →
     ∃ e n',
       retry_err (reply E (sent n + 3)) = Some e ∧
       FetchPosts E c ctx n =
         (Err (Wrap "failed to fetch posts: "
                 (Wrap "max retries exceeded, last error: " e)), n') ∧
       attempts (trace n') = (attempts (trace n) + 4)%nat ∧
       sent n' = (sent n + 4)%nat ∧
       sleeps (trace n') = sleeps (trace n) ++ [Second; 2 * Second; 4 * Second]) ∧
  (∀ ctx iters attempt lastErr dest n td,
     0 < attempt →
     doneAt ctx = Some td →
     td < now n + Z.max 0 (backoff attempt) →
     ∃ e n',
       retry_loop E c ctx (baseURL c +:+ "/posts") (S iters) attempt lastErr
         dest n = (Err e, n') ∧
       Err_at ctx (Z.max (now n) td) = Some e ∧
       (e = Canceled ∨ e = DeadlineExceeded) ∧
       now n' = Z.max (now n) td ∧
       sent n' = sent n ∧
       attempts (trace n') = attempts (trace n)) ∧
  (∀ ctx n e,
     Err_at ctx (now n) = Some e →
     ∃ n',
       FetchPosts E c ctx n = (Err (Wrap "failed to fetch posts: " e), n') ∧
       now n' = now n ∧ sent n' = sent n).
Proof.
  intros Hurl. split; [exact classify_transient|]. split; [|split].
  - intros ctx n L HL Hto Hsrv Hal.
    destruct (FetchPosts_exhausted E c ctx Hurl L n HL Hto)
      as (e & n' & He & Hrun & Hs & _ & Hr & Hsl); [|done|].
    { intros k Hk. destruct (Hsrv k Hk). split; [done|].
      by apply classify_transient. }
    exists e, n'. repeat split; try done.
    unfold attempts. rewrite Hr, length_app. done.
  - intros ctx iters attempt lastErr dest n td Hpos Hd Hlt.
    destruct (retry_loop_interrupted E c ctx (baseURL c +:+ "/posts")
                iters attempt lastErr dest n td Hpos Hd Hlt)
      as (e & n' & Hrun & He & Hk & Hn & Hs & Hr).
    exists e, n'. unfold attempts. rewrite Hr. done.
  - intros ctx n e He. eexists. split; [by apply FetchPosts_done|]. done.
Qed.

Lemma fetch_retry_policy_witness :
  (∃ e n',
     FetchPosts (scenario.always_status 500) scenario.api_client Background
       scenario.idle =
       (Err (Wrap "failed to fetch posts: "
               (Wrap "max retries exceeded, last error: " e)), n') ∧
     attempts (trace n') = 4%nat ∧
     sleeps (trace n') = [Second; 2 * Second; 4 * Second]) ∧
  (∃ e n',
     retry_loop (scenario.always_status 500) scenario.api_client
       scenario.two_seconds
       (baseURL scenario.api_client +:+ "/posts") 3 1 None nil_slice
       (mkNet (3 * Second / 2) 1 []) = (Err e, n') ∧
     now n' = 2 * Second ∧ attempts (trace n') = 0%nat) ∧
  (∃ n',
     FetchPosts (scenario.always_status 500) scenario.api_client
       scenario.cancelled scenario.idle =
       (Err (Wrap "failed to fetch posts: " Canceled), n') ∧
     sent n' = 0%nat).
Proof.
  destruct (fetch_retry_policy (scenario.always_status 500)
              scenario.api_client eq_refl) as (_ & Hb & Hc & Hd).
  split; [|split].
  - destruct (Hb Background scenario.idle 50000000)
      as (e & n' & _ & Hrun & Ha & _ & Hsl).
    + lia.
    + right. vm_compute. reflexivity.
    + intros k _. split; [vm_compute; discriminate|].
      apply transient_5xx. lia.
    + exact I.
    + exists e, n'. split; [exact Hrun|]. split; [exact Ha | exact Hsl].
  - destruct (Hc scenario.two_seconds 2%nat 1 None nil_slice
                (mkNet (3 * Second / 2) 1 []) (2 * Second))
      as (e & n' & Hrun & _ & _ & Hn & _ & Ha).
    + lia.
    + reflexivity.
    + vm_compute. reflexivity.
    + exists e, n'. split; [exact Hrun|]. split; [exact Hn | exact Ha].
  - destruct (Hd scenario.cancelled scenario.idle Canceled eq_refl)
      as (n' & Hrun & _ & Hs).
    exists n'. split; [exact Hrun | exact Hs].
Defined.

(** C8: an answer with a 4xx status other than 429 ends the call at the
    attempt that received it, whatever the number of attempts left, with
    the error "client error: <status>"; when it is the first answer,
    [FetchPosts] has made exactly one attempt, has not slept, and
    returns at the instant the answer arrived. *)
Theorem client_error_is_terminal (E : Env) (c : ExternalAPIClient)
    (ctx : Context) (s : Z) (b : BodyStream) :
  400 ≤ s < 500 → s ≠ 429 →
  (∀ url iters attempt lastErr dest n,
     new_request_err E url = None →
     reply E (sent n) = Response s b →
     alive_until ctx (now n + pause attempt + latency E (sent n)) →
     in_time c (latency E (sent n)) →
     ∃ n',
       retry_loop E c ctx url (S iters) attempt lastErr dest n =
         (Err (ErrorString ("client error: " +:+ Itoa s)), n') ∧
       requests (trace n') = requests (trace n) ++ [attempt] ∧
       sent n' = S (sent n)) ∧
  (∀ n,
     new_request_err E (baseURL c +:+ "/posts") = None →
     reply E (sent n) = Response s b →
     alive_until ctx (now n + latency E (sent n)) →
     in_time c (latency E (sent n)) →
     ∃ n',
       FetchPosts E c ctx n =
         (Err (Wrap "failed to fetch posts: "
                 (ErrorString ("client error: " +:+ Itoa s))), n') ∧
       attempts (trace n') = S (attempts (trace n)) ∧
       sleeps (trace n') = sleeps (trace n) ∧
       sent n' = S (sent n) ∧
       now n' = now n + latency E (sent n)).
Proof.
  intros Hs Hne. split.
  - intros url iters attempt lastErr dest n Hurl Hr Hal Hto.
    rewrite (retry_loop_iter E c ctx url Hurl) by done.
    rewrite Hr, classify_client_error by done. cbv zeta.
    eexists. split; [done|]. cbn [trace sent].
    rewrite !requests_app. split; [|done].
    f_equal. by case_match.
  - intros n Hurl Hr Hal Hto.
    rewrite (FetchPosts_client_error E c ctx Hurl n s b) by done.
    eexists. split; [done|]. cbn [trace sent now]. unfold attempts.
    rewrite requests_app, sleeps_app, length_app. cbn.
    rewrite app_nil_r. repeat split; lia.
Qed.

Lemma client_error_is_terminal_witness :
  ∃ n',
    FetchPosts (scenario.always_status 404) scenario.api_client Background
      scenario.idle =
      (Err (Wrap "failed to fetch posts: " (ErrorString "client error: 404")),
       n') ∧
    attempts (trace n') = 1%nat ∧ sleeps (trace n') = [].
Proof.
  destruct (client_error_is_terminal (scenario.always_status 404)
              scenario.api_client Background 404 (Bytes (Posts [])))
    as [_ H]; [lia | lia |].
  destruct (H scenario.idle eq_refl eq_refl I) as (n' & Hrun & Ha & Hsl & _).
  - right. vm_compute. reflexivity.
  - exists n'. split; [exact Hrun|]. split; [exact Ha | exact Hsl].
Defined.

(** C10, the claim as stated, fails on two counts.  A status of 600 or
    more is outside the 2xx, 4xx and 5xx ranges and is retried, but as a
    "server error" like a 5xx, not as an "unexpected status code".  And
    a 302 that carries a Location never reaches the classification: the
    HTTP client follows it, and the call succeeds after a single attempt
    with the posts served at the new location. *)
Lemma status_600_is_a_server_error :
  classify (Response 600 (Bytes (Posts []))) =
    Retry (ErrorString "server error: 600") ∧
  (∃ n',
     FetchPosts (scenario.always_status 600) scenario.api_client Background
       scenario.idle =
       (Err (Wrap "failed to fetch posts: "
               (Wrap "max retries exceeded, last error: "
                  (ErrorString "server error: 600"))), n') ∧
     attempts (trace n') = 4%nat) ∧
  (∃ n',
     FetchPosts (scenario.moved 302 [scenario.post_A]) scenario.api_client
       Background scenario.idle = (Ok [scenario.post_A], n') ∧
     attempts (trace n') = 1%nat ∧ sleeps (trace n') = []).
Proof.
  split; [reflexivity|]. split; eexists; (split; [vm_compute; reflexivity|]);
    vm_compute; done.
Qed.

(** C10 (amended): a response that the HTTP client hands back with a
    status below 400 and outside 2xx (a 3xx that the client does not
    follow, for instance) is retried with the error "unexpected status
    code: <status>", and four of them in a row use up the four attempts
    of [FetchPosts]; every status from 500 on, 600 and more included, is
    retried with the error "server error: <status>"; only a 2xx answer
    whose body decodes without an error succeeds; only a 4xx status
    other than 429 ends the call early; and an answer with one of the
    statuses 301, 302, 303, 307, 308 and a Location is not handed back
    at all: the client sends the request on to the location, and what
    the call gets is what that request gets - unless it would be the
    eleventh request of the call, in which case the call fails with
    "stopped after 10 redirects", a failed request like any other. *)
Theorem unexpected_status_is_retried (E : Env) (c : ExternalAPIClient) :
  (∀ s b, ¬ (200 ≤ s < 300) → s < 400 →
     classify (Response s b) =
       Retry (ErrorString ("unexpected status code: " +:+ Itoa s))) ∧
  (∀ s b, 500 ≤ s →
     classify (Response s b) =
       Retry (ErrorString ("server error: " +:+ Itoa s))) ∧
  (∀ r, classify r = Succeed →
     ∃ s p, r = Response s (Bytes p) ∧ 200 ≤ s < 300 ∧
            unmarshal_error p = None) ∧
  (∀ r e, classify r = Return e →
     ∃ s b, r = Response s b ∧ 400 ≤ s < 500 ∧ s ≠ 429 ∧
            e = ErrorString ("client error: " +:+ Itoa s)) ∧
  (∀ ctx n L st,
     new_request_err E (baseURL c +:+ "/posts") = None →
     0 ≤ L → in_time c L →
     (∀ k, (sent n ≤ k < sent n + 4)%nat →
           latency E k ≤ L ∧
           ∃ b, reply E k = Response (st k) b ∧
                ¬ (200 ≤ st k < 300) ∧ st k < 400) →
     alive_until ctx (now n + 4 * L + 7 * Second) →
     ∃ n',
       FetchPosts E c ctx n =
         (Err (Wrap "failed to fetch posts: "
                 (Wrap "max retries exceeded, last error: "
                    (ErrorString ("unexpected status code: "
                                  +:+ Itoa (st (sent n + 3)%nat))))), n') ∧
       attempts (trace n') = (attempts (trace n) + 4)%nat) ∧
  (∀ k d0 s loc b d x,
     server E k = (d0, Located s loc b d x) →
     shouldRedirect s = true → loc ≠ "" →
     exchange E k = send loc 2 (Z.max 0 d0) d x None) ∧
  (∀ url via t d0 s loc b d x cut,
     shouldRedirect s = true → loc ≠ "" → (10 ≤ via)%nat →
     (∀ tc e, cut = Some (tc, e) → t + Z.max 0 d0 < tc) →
     send url via t d0 (Located s loc b d x) cut =
       (TransportError
          (URLError "Get" loc (ErrorString "stopped after 10 redirects")),
        t + Z.max 0 d0)).
Proof.
  split; [exact classify_unexpected|].
  split; [intros s b Hs; cbn; zcases; done|].
  split; [exact classify_Succeed_inv|].
  split; [exact classify_Return_inv|].
  split; [|split].
  - intros ctx n L st Hurl HL Hto Hsrv Hal.
    destruct (FetchPosts_exhausted E c ctx Hurl L n HL Hto)
      as (e & n' & He & Hrun & Hs & _ & Hr & Hsl); [|done|].
    { intros k Hk. destruct (Hsrv k Hk) as (Hl & b & Hrep & H2 & H4).
      split; [done|]. unfold retry_err.
      rewrite Hrep, classify_unexpected by done. by eexists. }
    exists n'. unfold attempts. rewrite Hr, length_app. split; [|done].
    destruct (Hsrv (sent n + 3)%nat) as (_ & b & Hrep & H2 & H4); [lia|].
    unfold retry_err in He. rewrite Hrep, classify_unexpected in He by done.
    by simplify_eq.
  - intros k d0 s loc b d x Hsrv Hs Hloc.
    unfold exchange. rewrite Hsrv. cbn [fst snd send].
    rewrite Hs. apply String.eqb_neq in Hloc. rewrite Hloc. done.
  - intros url via t d0 s loc b d x cut Hs Hloc Hvia Hcut. cbn [send].
    rewrite Hs. apply String.eqb_neq in Hloc. rewrite Hloc.
    apply Nat.leb_le in Hvia. rewrite Hvia. cbn [andb negb].
    destruct cut as [[tc e]|]; [|done].
    specialize (Hcut tc e eq_refl). by zcases.
Qed.

Lemma unexpected_status_is_retried_witness :
  (∃ n',
     FetchPosts (scenario.always_status 304) scenario.api_client Background
       scenario.idle =
       (Err (Wrap "failed to fetch posts: "
               (Wrap "max retries exceeded, last error: "
                  (ErrorString "unexpected status code: 304"))), n') ∧
     attempts (trace n') = 4%nat) ∧
  reply (scenario.moved 307 [scenario.post_A]) 0 =
    Response 200 (Bytes (Posts [scenario.post_A])).
Proof.
  destruct (unexpected_status_is_retried (scenario.always_status 304)
              scenario.api_client) as (_ & _ & _ & _ & H & _).
  destruct (unexpected_status_is_retried (scenario.moved 307 [scenario.post_A])
              scenario.api_client) as (_ & _ & _ & _ & _ & Hmoved & _).
  split.
  - destruct (H Background scenario.idle 50000000 (λ _, 304) eq_refl)
      as (n' & Hrun & Ha).
    + lia.
    + right. vm_compute. reflexivity.
    + intros k _. split; [vm_compute; discriminate|].
      exists (Bytes (Posts [])). split; [reflexivity | lia].
    + exact I.
    + exists n'. split; [exact Hrun | exact Ha].
  - unfold reply.
    rewrite (Hmoved 0%nat 50000000 307 "https://example.org/posts"
               (Bytes (Posts [])) 50000000
               (Final (Response 200 (Bytes (Posts [scenario.post_A]))))
               eq_refl eq_refl); [reflexivity | discriminate].
Defined.

End FetcherClaims.

(** ** The store *)

Section Store.

Import database.

Implicit Types (rs : list Item) (r : Item) (ext title body : string).

Lemma has_key_elem_of ext rs : has_key ext rs = true ↔ ext ∈ ExternalID <$> rs.
Proof.
  unfold has_key. induction rs as [|r rs IH]; cbn.
  - split; [done | by intros ?%elem_of_nil].
  - rewrite orb_true_iff, IH, elem_of_cons, String.eqb_eq.
    split; (intros [?|?]; [by left | by right]).
Qed.

Lemma has_key_false ext rs : has_key ext rs = false ↔ ext ∉ ExternalID <$> rs.
Proof. rewrite <- has_key_elem_of. by destruct (has_key ext rs). Qed.

Lemma has_key_find ext rs : has_key ext rs = true ↔ is_Some (find_key ext rs).
Proof.
  unfold has_key, find_key. induction rs as [|r rs IH]; cbn.
  - split; [done | by intros [? ?]].
  - destruct (String.eqb (ExternalID r) ext); cbn; [|done].
    split; [by eexists | done].
Qed.

Lemma find_key_Some ext rs r :
  find_key ext rs = Some r → r ∈ rs ∧ ExternalID r = ext.
Proof.
  unfold find_key. induction rs as [|r' rs IH]; cbn; [done|].
  destruct (String.eqb_spec (ExternalID r') ext).
  - intros; simplify_eq. split; [left | done].
  - intros [? ?]%IH. split; [by right | done].
Qed.

Lemma insert_or_update_fresh id ext title body u t rs :
  has_key ext rs = false →
  insert_or_update id ext title body u t rs =
    rs ++ [mkItem id ext title body u t t].
Proof.
  unfold has_key. induction rs as [|r rs IH]; cbn; [done|].
  destruct (String.eqb (ExternalID r) ext); cbn; [done|].
  intros H. by rewrite IH.
Qed.

Lemma insert_or_update_keys id ext title body u t rs :
  ExternalID <$> insert_or_update id ext title body u t rs =
    if has_key ext rs then ExternalID <$> rs else (ExternalID <$> rs) ++ [ext].
Proof.
  unfold has_key. induction rs as [|r rs IH]; cbn; [done|].
  destruct (String.eqb (ExternalID r) ext); cbn; [done|].
  rewrite IH. by destruct (existsb _ rs).
Qed.

Lemma insert_or_update_length id ext title body u t rs :
  length (insert_or_update id ext title body u t rs) =
    if has_key ext rs then length rs else S (length rs).
Proof.
  rewrite <- (length_fmap ExternalID), insert_or_update_keys.
  destruct (has_key ext rs); rewrite ?length_app, !length_fmap; cbn; lia.
Qed.

Lemma insert_or_update_unique id ext title body u t rs :
  unique_keys rs → unique_keys (insert_or_update id ext title body u t rs).
Proof.
  unfold unique_keys. rewrite insert_or_update_keys. intros Hnd.
  destruct (has_key ext rs) eqn:Hk; [done|].
  apply has_key_false in Hk. apply NoDup_app. split; [done|].
  split; [|apply NoDup_singleton].
  intros x Hx ->%list_elem_of_singleton. done.
Qed.

Lemma insert_or_update_find id ext title body u t rs :
  find_key ext (insert_or_update id ext title body u t rs) =
    Some match find_key ext rs with
         | Some r => mkItem (item_ID r) ext title body u (CreatedAt r) t
         | None => mkItem id ext title body u t t
         end.
Proof.
  unfold find_key. induction rs as [|r rs IH]; cbn.
  - by rewrite String.eqb_refl.
  - destruct (String.eqb_spec (ExternalID r) ext) as [Heq|Hne]; cbn.
    + unfold on_duplicate_key_update. rewrite Heq, String.eqb_refl. done.
    + destruct (String.eqb_spec (ExternalID r) ext); [done|]. apply IH.
Qed.

Lemma insert_or_update_find_ne id ext title body u t rs k :
  k ≠ ext →
  find_key k (insert_or_update id ext title body u t rs) = find_key k rs.
Proof.
  intros Hne. unfold find_key. induction rs as [|r rs IH]; cbn.
  - destruct (String.eqb_spec ext k); [congruence | done].
  - destruct (String.eqb_spec (ExternalID r) ext) as [Heq|Hne']; cbn.
    + rewrite Heq. destruct (String.eqb_spec ext k); [congruence | done].
    + destruct (String.eqb (ExternalID r) k); [done | apply IH].
Qed.

Lemma count_key_absent ext rs :
  ext ∉ ExternalID <$> rs → count_key ext rs = 0%nat.
Proof.
  unfold count_key. induction rs as [|r rs IH]; [done|].
  rewrite fmap_cons, not_elem_of_cons, filter_cons. intros [Hne Hnotin].
  destruct (decide (ExternalID r = ext)); [congruence | by apply IH].
Qed.

Lemma count_key_unique ext rs :
  unique_keys rs → ext ∈ ExternalID <$> rs → count_key ext rs = 1%nat.
Proof.
  unfold unique_keys, count_key. induction rs as [|r rs IH].
  - by intros _ ?%elem_of_nil.
  - rewrite fmap_cons, NoDup_cons, elem_of_cons. intros [Hnotin Hnd] Hin.
    rewrite filter_cons. destruct (decide (ExternalID r = ext)) as [Heq|Hne].
    + subst ext. cbn [length]. f_equal. by apply count_key_absent.
    + destruct Hin as [?|Hin]; [congruence|]. by apply IH.
Qed.

Lemma UpsertItem_ok E t item d d' :
  UpsertItem E t item d = (None, d') →
  rows d' = insert_or_update (next_id d) (ExternalID item) (item_Title item)
              (item_Body item) (item_UserID item) (NOW t) (rows d) ∧
  statements d' = statements d ++
    [QUpsert (ExternalID item) (item_Title item) (item_Body item)
       (item_UserID item)].
Proof. unfold UpsertItem. case_match; intros; by simplify_eq. Qed.

Lemma UpsertItem_failed E t item d d' err :
  UpsertItem E t item d = (Some err, d') →
  rows d' = rows d ∧ next_id d' = next_id d ∧
  statements d' = statements d ++
    [QUpsert (ExternalID item) (item_Title item) (item_Body item)
       (item_UserID item)].
Proof. unfold UpsertItem. case_match; intros; by simplify_eq. Qed.

Lemma UpsertItem_unique E t item d d' o :
  UpsertItem E t item d = (o, d') → unique_keys (rows d) → unique_keys (rows d').
Proof.
  destruct o as [err|].
  - intros (-> & _)%UpsertItem_failed. done.
  - intros (-> & _)%UpsertItem_ok. apply insert_or_update_unique.
Qed.

Lemma UpsertItem_ok_find E t item d d' :
  UpsertItem E t item d = (None, d') →
  is_Some (find_key (ExternalID item) (rows d')).
Proof.
  intros (-> & _)%UpsertItem_ok. rewrite insert_or_update_find. by eexists.
Qed.

End Store.

Section StoreClaims.

Import database.

(** C4: two successful applications of the same payload leave exactly
    one row for its externalID (after the first and after the second),
    and the second adds no row; an upsert of a new externalID appends a
    row with both timestamps set to NOW(); an upsert of an existing
    externalID keeps the row's id and createdAt, overwrites title, body
    and ownerID, and sets updatedAt to NOW(); rows of other externalIDs
    are left as they were. *)
Theorem upsert_idempotent (E : Env) (t1 t2 : Z) (item : Item) (d d1 d2 : DB) :
  unique_keys (rows d) →
  UpsertItem E t1 item d = (None, d1) →
  UpsertItem E t2 item d1 = (None, d2) →
  let ext := ExternalID item in
  let stored id created updated :=
    mkItem id ext (item_Title item) (item_Body item) (item_UserID item)
           created updated in
  count_key ext (rows d1) = 1%nat ∧
  count_key ext (rows d2) = 1%nat ∧
  length (rows d2) = length (rows d1) ∧
  (find_key ext (rows d) = None →
     rows d1 = rows d ++ [stored (next_id d) (NOW t1) (NOW t1)]) ∧
  (∀ r, find_key ext (rows d) = Some r →
     find_key ext (rows d1) = Some (stored (item_ID r) (CreatedAt r) (NOW t1)) ∧
     length (rows d1) = length (rows d)) ∧
  (∃ r1, find_key ext (rows d1) = Some r1 ∧
     find_key ext (rows d2) = Some (stored (item_ID r1) (CreatedAt r1) (NOW t2))) ∧
  (∀ k, k ≠ ext →
     find_key k (rows d1) = find_key k (rows d) ∧
     find_key k (rows d2) = find_key k (rows d)).
Proof.
  intros Hu H1 H2 ext stored.
  pose proof (UpsertItem_unique _ _ _ _ _ _ H1 Hu) as Hu1.
  pose proof (UpsertItem_unique _ _ _ _ _ _ H2 Hu1) as Hu2.
  pose proof (UpsertItem_ok_find _ _ _ _ _ H1) as Hf1.
  pose proof (UpsertItem_ok_find _ _ _ _ _ H2) as Hf2.
  destruct (UpsertItem_ok _ _ _ _ _ H1) as [Hr1 _].
  destruct (UpsertItem_ok _ _ _ _ _ H2) as [Hr2 _].
  fold ext in Hf1, Hf2, Hr1, Hr2.
  assert (Hk1 : has_key ext (rows d1) = true) by by apply has_key_find.
  assert (Hk2 : has_key ext (rows d2) = true) by by apply has_key_find.
  split. { apply count_key_unique; [done | by apply has_key_elem_of]. }
  split. { apply count_key_unique; [done | by apply has_key_elem_of]. }
  split. { by rewrite Hr2, insert_or_update_length, Hk1. }
  split.
  { intros Hnone. rewrite Hr1. apply insert_or_update_fresh.
    destruct (has_key ext (rows d)) eqn:Hk; [|done].
    apply has_key_find in Hk. rewrite Hnone in Hk. by destruct Hk. }
  split.
  { intros r Hr. rewrite Hr1, insert_or_update_find, Hr. split; [done|].
    rewrite insert_or_update_length.
    by rewrite (proj2 (has_key_find ext (rows d))) by (rewrite Hr; by eexists). }
  split.
  { destruct Hf1 as [r1 Hf1]. exists r1. split; [done|].
    by rewrite Hr2, insert_or_update_find, Hf1. }
  intros k Hne.
  rewrite Hr2, insert_or_update_find_ne by done.
  rewrite Hr1, insert_or_update_find_ne by done. done.
Qed.

Lemma upsert_idempotent_witness :
  let E := scenario.serving [] [] [] in
  let item := jobs.item_of_post scenario.post_A in
  let d1 := (UpsertItem E (5 * Second) item scenario.empty_db).2 in
  let d2 := (UpsertItem E (65 * Second) item d1).2 in
  rows d1 = [mkItem 1 "1" "A" "b" 1 5 5] ∧
  count_key "1" (rows d2) = 1%nat ∧
  find_key "1" (rows d2) = Some (mkItem 1 "1" "A" "b" 1 5 65).
Proof.
  cbv zeta.
  pose proof (upsert_idempotent (scenario.serving [] [] [])
                (5 * Second) (65 * Second)
                (jobs.item_of_post scenario.post_A) scenario.empty_db
                _ _ (NoDup_nil_2 : unique_keys []) eq_refl eq_refl) as H.
  cbv zeta in H.
  destruct H as (_ & Hc & _ & Hnew & _ & (r1 & Hr1 & Hr2) & _).
  split; [exact (Hnew eq_refl)|]. split; [exact Hc|].
  vm_compute in Hr1. injection Hr1 as <-. exact Hr2.
Defined.

End StoreClaims.

(** ** The cache *)

Section Cache.

Import redis.

Implicit Types (m : gmap string Entry) (k key pattern : string).

Lemma lookup_foldr_delete m (keys : list string) k :
  foldr delete m keys !! k = if bool_decide (k ∈ keys) then None else m !! k.
Proof.
  induction keys as [|x keys IH]; cbn.
  - rewrite bool_decide_eq_false_2; [done | apply not_elem_of_nil].
  - destruct (decide (x = k)) as [->|Hne].
    + rewrite lookup_delete_eq, bool_decide_eq_true_2; [done | left].
    + rewrite lookup_delete_ne, IH by done.
      rewrite (bool_decide_ext (k ∈ x :: keys) (k ∈ keys)); [done|].
      rewrite elem_of_cons. split; [by intros [->|?] | by right].
Qed.

Lemma elem_of_matching t pattern m k :
  k ∈ omap (λ ke : string * Entry,
              if live t ke.2 && matches pattern ke.1 then Some ke.1 else None)
           (map_to_list m) ↔
  ∃ e, m !! k = Some e ∧ live t e = true ∧ matches pattern k = true.
Proof.
  rewrite list_elem_of_omap. split.
  - intros ([k' e] & Hin%elem_of_map_to_list & Hf). cbn in Hf.
    destruct (live t e && matches pattern k') eqn:Hb; simplify_eq.
    apply andb_true_iff in Hb as [? ?]. eauto.
  - intros (e & Hm & Hl & Hp). exists (k, e).
    split; [by apply elem_of_map_to_list|]. cbn. by rewrite Hl, Hp.
Qed.

(** What a successful invalidation leaves in the key space. *)
Lemma InvalidatePattern_ok E ctx t pattern r r' k :
  InvalidatePattern E ctx t pattern r = (None, r') →
  kv r' !! k =
    match kv r !! k with
    | Some e => if live t e && matches pattern k then None else Some e
    | None => None
    end.
Proof.
  unfold InvalidatePattern, Keys, Del.
  destruct (redis_fault E (length (commands r)) (CKeys pattern)); [done|].
  set (keys := omap _ _).
  assert (Hkeys : k ∈ keys ↔
            ∃ e, kv r !! k = Some e ∧ live t e = true ∧ matches pattern k = true)
    by apply elem_of_matching.
  assert (Hcase : (if bool_decide (k ∈ keys) then None else kv r !! k) =
            match kv r !! k with
            | Some e => if live t e && matches pattern k then None else Some e
            | None => None
            end).
  { case_bool_decide as Hin.
    - apply Hkeys in Hin as (e & -> & -> & ->). done.
    - destruct (kv r !! k) as [e|] eqn:He; [|done].
      destruct (live t e && matches pattern k) eqn:Hb; [|done].
      apply andb_true_iff in Hb as [? ?]. destruct Hin. apply Hkeys. eauto. }
  destruct (0 <? Z.of_nat (length keys)) eqn:Hlen.
  - simpl. destruct (redis_fault E _ (CDel keys)); [done|].
    intros; simplify_eq. simpl. by rewrite lookup_foldr_delete.
  - intros; simplify_eq. simpl. rewrite <- Hcase.
    apply Z.ltb_ge in Hlen.
    assert (keys = []) as -> by (destruct keys; [done | cbn [length] in Hlen; lia]).
    rewrite bool_decide_eq_false_2; [done | apply not_elem_of_nil].
Qed.

Lemma InvalidatePattern_miss E ctx t pattern r r' k :
  InvalidatePattern E ctx t pattern r = (None, r') →
  lookup_live t k (kv r') =
    if matches pattern k then None else lookup_live t k (kv r).
Proof.
  intros H. unfold lookup_live. rewrite (InvalidatePattern_ok _ _ _ _ _ _ k H).
  destruct (kv r !! k) as [e|]; [|by destruct (matches pattern k)].
  destruct (live t e) eqn:Hl, (matches pattern k); cbn; by rewrite ?Hl.
Qed.

(** With no live key matching, invalidation is a no-op that sends KEYS
    only. *)
Lemma InvalidatePattern_noop E ctx t pattern r :
  redis_fault E (length (commands r)) (CKeys pattern) = None →
  (∀ k e, kv r !! k = Some e → live t e = true → matches pattern k = false) →
  InvalidatePattern E ctx t pattern r =
    (None, mkClient (kv r) (commands r ++ [CKeys pattern])).
Proof.
  intros Hf Hnone. unfold InvalidatePattern, Keys. rewrite Hf.
  set (keys := omap _ _).
  assert (keys = []) as ->; [|done].
  apply elem_of_nil_inv. intros k (e & Hm & Hl & Hp)%elem_of_matching.
  rewrite (Hnone k e Hm Hl) in Hp. done.
Qed.

(** The commands an invalidation sends: KEYS, then at most one DEL. *)
Lemma InvalidatePattern_commands E ctx t pattern r o r' :
  InvalidatePattern E ctx t pattern r = (o, r') →
  ∃ rest, commands r' = commands r ++ CKeys pattern :: rest ∧
          (rest = [] ∨ ∃ keys, rest = [CDel keys]).
Proof.
  unfold InvalidatePattern, Keys, Del.
  destruct (redis_fault E (length (commands r)) (CKeys pattern)).
  { intros; simplify_eq. exists []. split; [done | by left]. }
  set (keys := omap _ _).
  destruct (0 <? Z.of_nat (length keys)).
  - simpl. intros H.
    exists [CDel keys]. split; [|right; by eexists].
    destruct (redis_fault E _ (CDel keys)); [destruct (redis_ran E _)|];
      simplify_eq; simpl; by rewrite <- app_assoc.
  - intros; simplify_eq. exists []. split; [done | by left].
Qed.

Lemma glob_star s : glob ["*"%char] s = true.
Proof. induction s as [|x s IH]; [done | exact IH]. Qed.

(** ["items:*"] covers every key that starts with ["items:"]. *)
Lemma matches_items suffix : matches jobs.items_pattern ("items:" +:+ suffix) = true.
Proof. unfold matches. cbn. apply glob_star. Qed.

End Cache.

(** ** The upsert loop of a sync run *)

Section UpsertLoop.

Import jobs database.

Variable E : Env.

Lemma tally_sum bs :
  0 ≤ (tally bs).1 ∧ 0 ≤ (tally bs).2 ∧
  (tally bs).1 + (tally bs).2 = Z.of_nat (length bs).
Proof.
  induction bs as [|b bs IH]; cbn [tally length]; [done|].
  destruct (tally bs) as [s f], b; cbn in *; lia.
Qed.

Lemma length_outcomes k qs : length (outcomes E k qs) = length qs.
Proof. revert k. induction qs as [|q qs IH]; intros k; cbn; by rewrite ?IH. Qed.

Lemma tally_cons b bs :
  tally (b :: bs) =
    ((tally bs).1 + (if b then 1 else 0), (tally bs).2 + (if b then 0 else 1)).
Proof. cbn. destruct (tally bs), b; cbn; f_equal; lia. Qed.

(** One iteration, according to the fate of its statement. *)
Lemma upsert_post_step cnt w p cnt1 w1 :
  upsert_post E (cnt, w) p = (cnt1, w1) →
  net w1 = net w ∧ rdb w1 = rdb w ∧
  statements (db w1) = statements (db w) ++ [query_of_post p] ∧
  match db_fault E (length (statements (db w))) (query_of_post p) with
  | None =>
      cnt1 = mkCounts (successCount cnt + 1) (errorCount cnt) ∧
      rows (db w1) =
        insert_or_update (next_id (db w)) (Itoa (ID p)) (Title p) (Body p)
          (UserID p) (NOW (clock w)) (rows (db w))
  | Some _ =>
      cnt1 = mkCounts (successCount cnt) (errorCount cnt + 1) ∧
      rows (db w1) = rows (db w)
  end.
Proof.
  unfold upsert_post, UpsertItem, query_of_post. cbn.
  destruct (db_fault E _ _); intros; simplify_eq; done.
Qed.

Lemma upsert_loop posts : ∀ cnt w cnt' w',
  fold_left (upsert_post E) posts (cnt, w) = (cnt', w') →
  let oc := tally (outcomes E (length (statements (db w)))
                     (query_of_post <$> posts)) in
  net w' = net w ∧ rdb w' = rdb w ∧
  statements (db w') = statements (db w) ++ (query_of_post <$> posts) ∧
  successCount cnt' = successCount cnt + oc.1 ∧
  errorCount cnt' = errorCount cnt + oc.2.
Proof.
  induction posts as [|p posts IH]; intros cnt w cnt' w' Hrun.
  - cbn in *. simplify_eq. rewrite app_nil_r. repeat split; lia.
  - cbn [fold_left] in Hrun.
    destruct (upsert_post E (cnt, w) p) as [cnt1 w1] eqn:Hstep.
    apply upsert_post_step in Hstep as (Hn & Hr & Hs & Hc).
    apply IH in Hrun as (Hn' & Hr' & Hs' & Hsc & Hec).
    rewrite Hs, length_app, Nat.add_1_r in Hsc, Hec.
    cbv zeta. rewrite fmap_cons. cbn [outcomes]. rewrite tally_cons.
    cbn [fst snd].
    split; [congruence|]. split; [congruence|].
    split; [by rewrite Hs', Hs, <- app_assoc|].
    destruct (db_fault E _ _); destruct Hc as [-> _]; cbn in *; lia.
Qed.

Lemma upsert_loop_db posts : ∀ cnt w cnt' w',
  fold_left (upsert_post E) posts (cnt, w) = (cnt', w') →
  db w' = db_after E (clock w) posts (db w).
Proof.
  unfold db_after.
  induction posts as [|p posts IH]; intros cnt w cnt' w' Hrun.
  - cbn in *. by simplify_eq.
  - cbn [fold_left] in *.
    destruct (upsert_post E (cnt, w) p) as [cnt1 w1] eqn:Hstep.
    apply IH in Hrun. rewrite Hrun. clear Hrun.
    unfold upsert_post in Hstep.
    destruct (UpsertItem E (clock w) (item_of_post p) (db w)) as [[err|] d'];
      simplify_eq; done.
Qed.

(** A stored key stays stored. *)
Lemma upsert_loop_keeps posts : ∀ cnt w cnt' w' k,
  fold_left (upsert_post E) posts (cnt, w) = (cnt', w') →
  is_Some (find_key k (rows (db w))) →
  is_Some (find_key k (rows (db w'))).
Proof.
  induction posts as [|p posts IH]; intros cnt w cnt' w' k Hrun Hk.
  - cbn in Hrun. by simplify_eq.
  - cbn [fold_left] in Hrun.
    destruct (upsert_post E (cnt, w) p) as [cnt1 w1] eqn:Hstep.
    apply upsert_post_step in Hstep as (_ & _ & _ & Hc).
    eapply IH; [done|].
    destruct (db_fault E _ _); destruct Hc as [_ ->]; [done|].
    destruct (decide (k = Itoa (ID p))) as [->|Hne].
    + rewrite insert_or_update_find. by eexists.
    + by rewrite insert_or_update_find_ne.
Qed.

(** A row is left alone by the successful upserts of other keys. *)
Lemma upsert_loop_frame posts : ∀ cnt w cnt' w' k r,
  fold_left (upsert_post E) posts (cnt, w) = (cnt', w') →
  find_key k (rows (db w)) = Some r →
  (∀ j p', posts !! j = Some p' →
     db_fault E (length (statements (db w)) + j) (query_of_post p') = None →
     Itoa (ID p') ≠ k) →
  find_key k (rows (db w')) = Some r.
Proof.
  induction posts as [|p posts IH]; intros cnt w cnt' w' k r Hrun Hk Hothers.
  - cbn in Hrun. by simplify_eq.
  - cbn [fold_left] in Hrun.
    destruct (upsert_post E (cnt, w) p) as [cnt1 w1] eqn:Hstep.
    apply upsert_post_step in Hstep as (_ & _ & Hs & Hc).
    eapply IH; [done| |].
    + pose proof (Hothers 0%nat p eq_refl) as H0.
      rewrite Nat.add_0_r in H0.
      destruct (db_fault E _ _); destruct Hc as [_ ->]; [done|].
      rewrite insert_or_update_find_ne; [done|]. intros ->. by apply H0.
    + intros j p' Hj Hf. apply (Hothers (S j) p' Hj).
      rewrite Hs, length_app in Hf. cbn [length] in Hf.
      by replace (length (statements (db w)) + S j)%nat
        with (length (statements (db w)) + 1 + j)%nat by lia.
Qed.

(** A successful upsert leaves a row for its key; the row mirrors the
    post unless a later successful upsert of the run has the same ID. *)
Lemma upsert_loop_stores posts : ∀ cnt w cnt' w' i p,
  fold_left (upsert_post E) posts (cnt, w) = (cnt', w') →
  posts !! i = Some p →
  db_fault E (length (statements (db w)) + i) (query_of_post p) = None →
  ∃ r, find_key (Itoa (ID p)) (rows (db w')) = Some r ∧
       ((∀ j p', (i < j)%nat → posts !! j = Some p' →
           db_fault E (length (statements (db w)) + j) (query_of_post p') = None →
           ID p' ≠ ID p) →
        mirrors r p).
Proof.
  induction posts as [|p0 posts IH]; intros cnt w cnt' w' i p Hrun Hi Hok;
    [done|].
  cbn [fold_left] in Hrun.
  destruct (upsert_post E (cnt, w) p0) as [cnt1 w1] eqn:Hstep.
  apply upsert_post_step in Hstep as (_ & _ & Hs & Hc).
  assert (Hshift : ∀ j, (length (statements (db w1)) + j =
                         length (statements (db w)) + S j)%nat).
  { intros j. rewrite Hs, length_app. cbn. lia. }
  destruct i as [|i].
  - cbn in Hi. simplify_eq. rewrite Nat.add_0_r in Hok.
    rewrite Hok in Hc. destruct Hc as [_ Hrows].
    assert (Hfind : is_Some (find_key (Itoa (ID p)) (rows (db w1)))).
    { rewrite Hrows, insert_or_update_find. by eexists. }
    destruct (upsert_loop_keeps _ _ _ _ _ _ Hrun Hfind) as [r Hr].
    exists r. split; [done|]. intros Hlater.
    rewrite Hrows, insert_or_update_find in Hfind.
    destruct Hfind as [r1 Hr1].
    rewrite (upsert_loop_frame posts cnt1 w1 cnt' w' (Itoa (ID p)) r1 Hrun) in Hr.
    + simplify_eq. unfold mirrors. by case_match.
    + by rewrite Hrows, insert_or_update_find.
    + intros j p' Hj Hf Heq. rewrite Hshift in Hf.
      apply (Hlater (S j) p'); [lia | done | done |].
      by apply (inj Itoa) in Heq.
  - cbn in Hi. rewrite <- Hshift in Hok.
    destruct (IH cnt1 w1 cnt' w' i p Hrun Hi Hok) as (r & Hr & Hm).
    exists r. split; [done|]. intros Hlater. apply Hm.
    intros j p' Hlt Hj Hf. rewrite Hshift in Hf.
    apply (Hlater (S j) p'); [lia | done | done].
Qed.

End UpsertLoop.

(** ** A sync run *)

Section SyncRun.

Import jobs database.

Variable E : Env.
Variable m : Manager.
Variable w : World.

Lemma syncData_fetch_failed err n' :
  fetch_of E m w = (Err err, n') →
  syncData E m w =
    (Some (Wrap "failed to fetch posts: " err),
     mkWorld n' (db w) (rdb w) (logs w ++ [starting])).
Proof. unfold syncData, fetch_of. cbn. by intros ->. Qed.

(** The shape of a run whose fetch succeeded: [wl] is the state at the
    end of the upsert loop, [s] and [f] are the two counters. *)
Lemma syncData_fetched posts n' :
  fetch_of E m w = (Ok posts, n') →
  let oc := tally (outcomes E (length (statements (db w)))
                     (query_of_post <$> posts)) in
  ∃ wl w',
    syncData E m w =
      (if 0 <? oc.2 then Some (errors_out_of oc.2 (length posts)) else None,
       w') ∧
    net w' = n' ∧
    db w' = db wl ∧
    db wl = db_after E (client.now n') posts (db w) ∧
    statements (db wl) = statements (db w) ++ (query_of_post <$> posts) ∧
    (∀ i p, posts !! i = Some p →
       db_fault E (length (statements (db w)) + i) (query_of_post p) = None →
       ∃ r, find_key (Itoa (ID p)) (rows (db wl)) = Some r ∧
            ((∀ j p', (i < j)%nat → posts !! j = Some p' →
                db_fault E (length (statements (db w)) + j) (query_of_post p')
                  = None →
                ID p' ≠ ID p) →
             mirrors r p)) ∧
    (if 0 <? oc.1
     then ∃ o, redis.InvalidatePattern E
                 (WithTimeout (m_ctx m) (2 * Minute) (clock w))
                 (client.now n') items_pattern (rdb w) = (o, rdb w') ∧
               ∀ err, o = Some err → invalidation_warning err ∈ logs w'
     else rdb w' = rdb w) ∧
    last (logs w') = Some (completed oc.1 oc.2 (client.now n' - clock w)).
Proof.
  intros Hfetch oc. unfold syncData. fold (fetch_of E m w) in *.
  unfold fetch_of in Hfetch. cbn [log net db rdb logs clock] in *.
  rewrite Hfetch.
  match goal with
  | |- context [fold_left (upsert_post E) posts ?a] =>
      destruct (fold_left (upsert_post E) posts a) as [cnt wl] eqn:Hloop
  end.
  pose proof Hloop as (Hn & Hr & Hs & Hsc & Hec)%upsert_loop.
  assert (Hstores := λ i p, upsert_loop_stores E posts _ _ _ _ i p Hloop).
  pose proof (upsert_loop_db E posts _ _ _ _ Hloop) as Hdb.
  unfold log, clock in Hn, Hr, Hs, Hsc, Hec, Hstores, Hdb.
  cbn [net db rdb logs successCount errorCount] in Hn, Hr, Hs, Hsc, Hec, Hstores, Hdb.
  rewrite Z.add_0_l in Hsc, Hec.
  unfold clock in *. rewrite Hsc, Hec, Hn, Hr. subst oc.
  destruct (tally _) as [s f]. cbn [fst snd].
  destruct (0 <? s) eqn:Hpos.
  - destruct (redis.InvalidatePattern E _ (client.now n') items_pattern (rdb w))
      as [o r'] eqn:Hinv.
    destruct o as [err|]; cbn [log net db rdb logs].
    + eexists wl, _. split; [by destruct (0 <? f)|]. cbn.
      repeat split; try done; [|by rewrite last_snoc].
      eexists. split; [done|]. intros ? [= <-].
      rewrite !elem_of_app, !list_elem_of_singleton. left. by right.
    + eexists wl, _. split; [by destruct (0 <? f)|]. cbn.
      repeat split; try done; [|by rewrite last_snoc].
      eexists. split; [done | done].
  - eexists wl, _. split; [by destruct (0 <? f)|]. cbn.
    rewrite Hn. repeat split; try done. by rewrite last_snoc.
Qed.

End SyncRun.

(** ** Independence from the behaviour of the cache *)

Section CacheIndependence.

Variables E E' : Env.
Hypothesis same : same_but_cache E E'.

Lemma Do_env c ctx url attempt n :
  client.Do E' c ctx url attempt n = client.Do E c ctx url attempt n.
Proof. destruct same as (Hs & _). unfold client.Do. by rewrite Hs. Qed.

Lemma retry_loop_env c ctx url iters : ∀ attempt lastErr dest n,
  client.retry_loop E' c ctx url iters attempt lastErr dest n =
  client.retry_loop E c ctx url iters attempt lastErr dest n.
Proof.
  destruct same as (_ & Hu & _).
  induction iters as [|i IH]; intros attempt lastErr dest n; [done|].
  cbn [client.retry_loop]. rewrite Hu.
  destruct (if 0 <? attempt then _ else _) as [[e|] n1]; [done|].
  destruct (new_request_err E url); [done|].
  rewrite Do_env. destruct (client.Do E c ctx url attempt n1) as [r n2].
  destruct (client.classify r); [done | done | apply IH].
Qed.

Lemma FetchPosts_env c ctx n :
  client.FetchPosts E' c ctx n = client.FetchPosts E c ctx n.
Proof.
  unfold client.FetchPosts, client.retryRequest. by rewrite retry_loop_env.
Qed.

Lemma db_after_env t posts : ∀ d, db_after E' t posts d = db_after E t posts d.
Proof.
  destruct same as (_ & _ & Hd). unfold db_after.
  induction posts as [|p posts IH]; intros d; [done|].
  cbn [fold_left]. rewrite IH. unfold database.UpsertItem. by rewrite Hd.
Qed.

Lemma outcomes_env qs : ∀ k, outcomes E' k qs = outcomes E k qs.
Proof.
  destruct same as (_ & _ & Hd).
  induction qs as [|q qs IH]; intros k; [done|].
  cbn [outcomes]. by rewrite IH, Hd.
Qed.

End CacheIndependence.

(** ** Sync runs: the claims *)

Section SyncClaims.

Import jobs database.

Lemma executed_app w w' qs :
  statements (db w') = statements (db w) ++ qs → executed w w' = qs.
Proof. unfold executed. intros ->. by rewrite drop_app_length. Qed.

Lemma issued_app w w' cs :
  redis.commands (rdb w') = redis.commands (rdb w) ++ cs → issued w w' = cs.
Proof. unfold issued. intros ->. by rewrite drop_app_length. Qed.

(** The counts of a run whose fetch succeeded. *)
Lemma counts_fetched E m w posts n' :
  fetch_of E m w = (Ok posts, n') →
  let oc := tally (outcomes E (length (statements (db w)))
                     (query_of_post <$> posts)) in
  executed w (syncData E m w).2 = query_of_post <$> posts ∧
  succeeded E w (syncData E m w).2 = oc.1 ∧
  failed E w (syncData E m w).2 = oc.2.
Proof.
  intros Hf oc.
  destruct (syncData_fetched E m w posts n' Hf)
    as (wl & w' & Hrun & _ & Hdb & _ & Hs & _).
  rewrite Hrun. cbn [snd]. rewrite <- Hdb in Hs.
  unfold succeeded, failed. by rewrite (executed_app _ _ _ Hs).
Qed.

(** The counts of a run whose fetch failed. *)
Lemma counts_fetch_failed E m w err n' :
  fetch_of E m w = (Err err, n') →
  executed w (syncData E m w).2 = [] ∧
  issued w (syncData E m w).2 = [] ∧
  succeeded E w (syncData E m w).2 = 0 ∧
  failed E w (syncData E m w).2 = 0.
Proof.
  intros Hf. rewrite (syncData_fetch_failed E m w err n' Hf).
  unfold succeeded, failed, executed, issued. cbn [snd db rdb].
  by rewrite !drop_all.
Qed.

(** C2, the claim as stated, fails in both directions: a run in which
    one of two upserts succeeded returns a non-nil error although it is
    no total failure, and a run that fetched no record returns nil
    although no record was processed successfully. *)
Lemma partial_failure_is_an_error :
  let E := scenario.serving [scenario.post_A; scenario.post_B] [1%nat] [] in
  let E0 := scenario.serving [] [] [] in
  let m := scenario.manager in
  let w := scenario.start in
  (is_Err (fetch_of E m w).1 = false ∧
   succeeded E w (syncData E m w).2 = 1 ∧
   failed E w (syncData E m w).2 = 1 ∧
   is_Some (syncData E m w).1) ∧
  (is_Err (fetch_of E0 m w).1 = false ∧
   succeeded E0 w (syncData E0 m w).2 = 0 ∧
   (syncData E0 m w).1 = None) ∧
  ¬ (is_Some (syncData E m w).1 ↔
     is_Err (fetch_of E m w).1 = true ∨ succeeded E w (syncData E m w).2 = 0).
Proof.
  cbv zeta.
  assert (H1 : (syncData (scenario.serving [scenario.post_A; scenario.post_B]
                  [1%nat] []) scenario.manager scenario.start).1
               = Some (errors_out_of 1 2)) by (vm_compute; reflexivity).
  split; [|split].
  - split; [vm_compute; reflexivity|]. split; [vm_compute; reflexivity|].
    split; [vm_compute; reflexivity|]. rewrite H1. by eexists.
  - split; [vm_compute; reflexivity|]. split; vm_compute; reflexivity.
  - intros [Hto _]. destruct Hto as [Hf|Hs].
    + rewrite H1. by eexists.
    + vm_compute in Hf. discriminate.
    + vm_compute in Hs. discriminate.
Qed.

(** C2 (amended): the error returned by a sync run is non-nil exactly
    when the fetch failed or at least one upsert failed; successful
    upserts do not turn a run with a failed upsert into a success, and a
    run without any upsert at all returns nil. *)
Theorem sync_error_iff_fetch_or_upsert_failed (E : Env) (m : Manager) (w : World) :
  is_Some (syncData E m w).1 ↔
  is_Err (fetch_of E m w).1 = true ∨ 0 < failed E w (syncData E m w).2.
Proof.
  destruct (fetch_of E m w) as [[posts|err] n'] eqn:Hf.
  - destruct (counts_fetched E m w posts n' Hf) as (_ & _ & Hfailed).
    rewrite Hfailed.
    destruct (syncData_fetched E m w posts n' Hf) as (wl & w' & Hrun & _).
    rewrite Hrun. cbn [fst is_Err].
    destruct (Z.ltb_spec 0 (tally (outcomes E (length (statements (db w)))
                                     (query_of_post <$> posts))).2).
    + split; [by right | by eexists].
    + split; [by intros [? ?] | intros [?|?]; [done | lia]].
  - rewrite (syncData_fetch_failed E m w err n' Hf). cbn.
    split; [by left | by eexists].
Qed.

(** C3: when the fetch returns M records, the run sends exactly one
    upsert per record, in order, whether or not earlier ones failed; the
    numbers of succeeded and failed upserts add up to M and are the
    success_count and error_count of the "Data sync completed" entry;
    every record whose upsert succeeded has a row under its externalID;
    a listAll after the run whose SELECT does not fail returns a listing
    that holds this row, and no listAll returns a listing without it;
    the row carries the record's title, body and owner unless a later
    successful upsert of the run has the same ID; with N > 0 failures
    the run returns the error "sync completed with N errors out of M
    items", and with none it returns nil. *)
Theorem sync_partial_failure_accounting (E : Env) (m : Manager) (w : World)
    (posts : list PostResponse) (n' : client.Net) :
  fetch_of E m w = (Ok posts, n') →
  let w' := (syncData E m w).2 in
  let s := succeeded E w w' in
  let f := failed E w w' in
  executed w w' = query_of_post <$> posts ∧
  0 ≤ s ∧ 0 ≤ f ∧ s + f = Z.of_nat (length posts) ∧
  (∃ entry, last (logs w') = Some entry ∧
     logger.message entry = "Data sync completed" ∧
     logger.field "success_count" entry = Some (logger.FInt s) ∧
     logger.field "error_count" entry = Some (logger.FInt f)) ∧
  (∀ i p, posts !! i = Some p →
     db_fault E (length (statements (db w)) + i) (query_of_post p) = None →
     ∃ r, find_key (Itoa (ID p)) (rows (db w')) = Some r ∧
          (∀ E', db_fault E' (length (statements (db w'))) QSelectItems = None →
             ∃ items, (GetAllItems E' (db w')).1 = Ok items ∧ r ∈ items) ∧
          (∀ E' items d', GetAllItems E' (db w') = (Ok items, d') → r ∈ items) ∧
          ((∀ j p', (i < j)%nat → posts !! j = Some p' →
              db_fault E (length (statements (db w)) + j) (query_of_post p')
                = None →
              ID p' ≠ ID p) →
           mirrors r p)) ∧
  (0 < f → (syncData E m w).1 = Some (errors_out_of f (length posts))) ∧
  (f = 0 → (syncData E m w).1 = None).
Proof.
  intros Hf w' s f.
  destruct (counts_fetched E m w posts n' Hf) as (Hex & Hs & Hfl).
  fold w' in Hex, Hs, Hfl. fold s in Hs. fold f in Hfl.
  destruct (syncData_fetched E m w posts n' Hf)
    as (wl & w1 & Hrun & _ & Hdb & _ & _ & Hst & _ & Hlast).
  assert (w' = w1) as Hw by (unfold w'; by rewrite Hrun).
  pose proof (tally_sum (outcomes E (length (statements (db w)))
                           (query_of_post <$> posts))) as (H0s & H0f & Hsum).
  rewrite length_outcomes, length_fmap in Hsum.
  rewrite <- Hs in H0s, Hsum, Hlast. rewrite <- Hfl in H0f, Hsum, Hlast, Hrun.
  rewrite <- Hw in Hdb, Hlast.
  split; [done|]. split; [done|]. split; [done|]. split; [done|].
  split. { eexists. split; [exact Hlast|]. done. }
  split.
  { intros i p Hi Hok. destruct (Hst i p Hi Hok) as (r & Hr & Hm).
    rewrite <- Hdb in Hr. exists r. split; [done|].
    pose proof Hr as [Hin _]%find_key_Some.
    split; [|split; [|done]].
    - intros E' Hsel. unfold GetAllItems. rewrite Hsel. cbn [fst].
      eexists. split; [done|]. by rewrite merge_sort_Permutation.
    - intros E' items d'. unfold GetAllItems.
      destruct (db_fault E' _ _); intros; simplify_eq.
      by rewrite merge_sort_Permutation. }
  rewrite Hrun. cbn [fst].
  split; intros; zcases; done.
Qed.

Lemma sync_error_iff_fetch_or_upsert_failed_witness :
  let E := scenario.serving scenario.ten_posts [2; 5; 7]%nat [] in
  is_Some (syncData E scenario.manager scenario.start).1.
Proof.
  cbv zeta.
  apply (proj2 (sync_error_iff_fetch_or_upsert_failed
                  (scenario.serving scenario.ten_posts [2; 5; 7]%nat [])
                  scenario.manager scenario.start)).
  right. vm_compute. reflexivity.
Defined.

Lemma sync_partial_failure_accounting_witness :
  let E := scenario.serving scenario.ten_posts [2; 5; 7]%nat [] in
  let w' := (syncData E scenario.manager scenario.start).2 in
  succeeded E scenario.start w' = 7 ∧
  failed E scenario.start w' = 3 ∧
  (syncData E scenario.manager scenario.start).1 = Some (errors_out_of 3 10) ∧
  ∃ items,
    (GetAllItems E (db w')).1 = Ok items ∧
    length items = 7%nat ∧
    Forall (λ p, ∃ r, r ∈ items ∧ mirrors r p)
      ((λ i, mkPost 1 i ("title " +:+ Itoa i) "body") <$> [1; 2; 4; 5; 7; 9; 10]).
Proof.
  cbv zeta.
  pose proof (sync_partial_failure_accounting
                (scenario.serving scenario.ten_posts [2; 5; 7]%nat [])
                scenario.manager scenario.start scenario.ten_posts
                (fetch_of (scenario.serving scenario.ten_posts [2; 5; 7]%nat [])
                   scenario.manager scenario.start).2) as H.
  cbv zeta in H.
  destruct H as (_ & _ & _ & _ & _ & Hrows & Herr & _);
    [vm_compute; reflexivity|].
  split; [vm_compute; reflexivity|].
  split; [vm_compute; reflexivity|].
  split; [rewrite Herr; [f_equal | vm_compute; reflexivity]|].
  destruct (GetAllItems (scenario.serving scenario.ten_posts [2; 5; 7]%nat [])
              (db (syncData (scenario.serving scenario.ten_posts [2; 5; 7]%nat [])
                     scenario.manager scenario.start).2)).1
    as [items|err] eqn:Hget; [|vm_compute in Hget; discriminate].
  exists items. split; [reflexivity|].
  split; [vm_compute in Hget; injection Hget as <-; reflexivity|].
  assert (Hone : ∀ i p, scenario.ten_posts !! i = Some p →
            bool_decide (i ∈ [2; 5; 7]%nat) = false →
            ∃ r, r ∈ items ∧ mirrors r p).
  { intros i p Hp Hok.
    destruct (Hrows i p Hp) as (r & _ & Hlist & _ & Hmirror).
    { cbn. by rewrite Hok. }
    exists r. split.
    - destruct (Hlist (scenario.serving scenario.ten_posts [2; 5; 7]%nat []))
        as (items' & Hget' & Hin); [reflexivity|].
      rewrite Hget in Hget'. injection Hget' as <-. exact Hin.
    - apply Hmirror. intros j p' Hij Hp' _ Heq.
      unfold scenario.ten_posts in Hp, Hp'.
      rewrite list_lookup_fmap in Hp, Hp'.
      destruct (seqZ 1 10 !! i) as [zi|] eqn:Hzi; [|discriminate].
      destruct (seqZ 1 10 !! j) as [zj|] eqn:Hzj; [|discriminate].
      apply lookup_seqZ in Hzi as [-> _]. apply lookup_seqZ in Hzj as [-> _].
      injection Hp as <-. injection Hp' as <-. cbn [ID] in Heq. lia. }
  repeat apply Forall_cons_2; [..|apply Forall_nil_2].
  - apply (Hone 0%nat); reflexivity.
  - apply (Hone 1%nat); reflexivity.
  - apply (Hone 3%nat); reflexivity.
  - apply (Hone 4%nat); reflexivity.
  - apply (Hone 6%nat); reflexivity.
  - apply (Hone 8%nat); reflexivity.
  - apply (Hone 9%nat); reflexivity.
Defined.

(** C5: when the fetch fails the run returns at once with the wrapped
    fetch error; the store and the cache are exactly as before, no
    statement and no cache command has been sent, and the run has zero
    succeeded and zero failed upserts. *)
Theorem fetch_failure_aborts_run (E : Env) (m : Manager) (w : World)
    (err : error) (n' : client.Net) :
  fetch_of E m w = (Err err, n') →
  let w' := (syncData E m w).2 in
  (syncData E m w).1 = Some (Wrap "failed to fetch posts: " err) ∧
  db w' = db w ∧ rdb w' = rdb w ∧
  executed w w' = [] ∧ issued w w' = [] ∧
  succeeded E w w' = 0 ∧ failed E w w' = 0.
Proof.
  intros Hf w'.
  destruct (counts_fetch_failed E m w err n' Hf) as (He & Hi & Hs & Hfl).
  unfold w'. rewrite (syncData_fetch_failed E m w err n' Hf) in *.
  done.
Qed.

Lemma fetch_failure_aborts_run_witness :
  let E := scenario.always_status 500 in
  let r := syncData E scenario.manager scenario.start in
  is_Some r.1 ∧ db r.2 = scenario.empty_db ∧ rdb r.2 = scenario.empty_cache.
Proof.
  cbv zeta.
  pose proof (fetch_failure_aborts_run (scenario.always_status 500)
                scenario.manager scenario.start
                (Wrap "failed to fetch posts: "
                   (Wrap "max retries exceeded, last error: "
                      (ErrorString "server error: 500")))
                (fetch_of (scenario.always_status 500) scenario.manager
                   scenario.start).2) as H.
  cbv zeta in H.
  destruct H as (Herr & Hdb & Hrdb & _); [vm_compute; reflexivity|].
  split; [rewrite Herr; by eexists|]. split; [exact Hdb | exact Hrdb].
Defined.

Lemma InvalidatePattern_no_fault E ctx t pattern r :
  redis_fault E (length (redis.commands r)) (CKeys pattern) = None →
  (∀ keys, redis_fault E (S (length (redis.commands r))) (CDel keys) = None) →
  ∃ r', redis.InvalidatePattern E ctx t pattern r = (None, r').
Proof.
  intros Hk Hd. unfold redis.InvalidatePattern, redis.Keys, redis.Del.
  rewrite Hk. case_match; [|by eexists]. simpl.
  rewrite length_app, Nat.add_1_r, Hd. by eexists.
Qed.

(** C9: a run with at least one successful upsert sends KEYS "items:*"
    to the cache, followed by at most one DEL; when neither command
    fails, every key matching the pattern is a miss afterwards and every
    other key reads as before; a run without a successful upsert sends
    nothing to the cache; the returned error, the store, the clock and
    the two counts of a run do not depend on how the cache behaves; and
    [InvalidatePattern] itself, when it succeeds, turns exactly the
    matching keys into misses, and is a successful no-op sending KEYS
    only when no live key matches.  A failing KEYS leaves the warning
    "Failed to invalidate cache" in the log. *)
Theorem sync_invalidates_items_cache (E : Env) (m : Manager) (w : World)
    (posts : list PostResponse) (n' : client.Net) :
  fetch_of E m w = (Ok posts, n') →
  let w' := (syncData E m w).2 in
  let k := length (redis.commands (rdb w)) in
  (0 < succeeded E w w' →
     (∃ rest, issued w w' = CKeys "items:*" :: rest ∧
              (rest = [] ∨ ∃ keys, rest = [CDel keys])) ∧
     (∀ err, redis_fault E k (CKeys "items:*") = Some err →
             invalidation_warning err ∈ logs w') ∧
     (redis_fault E k (CKeys "items:*") = None →
      (∀ keys, redis_fault E (S k) (CDel keys) = None) →
      ∀ key, redis.lookup_live (clock w') key (redis.kv (rdb w')) =
             if redis.matches "items:*" key then None
             else redis.lookup_live (clock w') key (redis.kv (rdb w)))) ∧
  (succeeded E w w' = 0 → rdb w' = rdb w ∧ issued w w' = []) ∧
  (∀ E', same_but_cache E E' →
     (syncData E' m w).1 = (syncData E m w).1 ∧
     db (syncData E' m w).2 = db w' ∧
     net (syncData E' m w).2 = net w' ∧
     succeeded E' w (syncData E' m w).2 = succeeded E w w' ∧
     failed E' w (syncData E' m w).2 = failed E w w') ∧
  (∀ ctx t pattern r r',
     redis.InvalidatePattern E ctx t pattern r = (None, r') →
     ∀ key, redis.lookup_live t key (redis.kv r') =
            if redis.matches pattern key then None
            else redis.lookup_live t key (redis.kv r)) ∧
  (∀ ctx t pattern r,
     redis_fault E (length (redis.commands r)) (CKeys pattern) = None →
     (∀ key e, redis.kv r !! key = Some e → redis.live t e = true →
               redis.matches pattern key = false) →
     redis.InvalidatePattern E ctx t pattern r =
       (None, redis.mkClient (redis.kv r) (redis.commands r ++ [CKeys pattern]))).
Proof.
  intros Hf w' k.
  destruct (counts_fetched E m w posts n' Hf) as (_ & Hs & Hfl).
  fold w' in Hs, Hfl.
  destruct (syncData_fetched E m w posts n' Hf)
    as (wl & w1 & Hrun & Hnet & Hdb & Hafter & _ & _ & Hinv & _).
  assert (w' = w1) as Hw by (unfold w'; by rewrite Hrun).
  rewrite <- Hw in Hnet, Hdb, Hinv. rewrite <- Hs in Hinv.
  split; [|split; [|split; [|split]]].
  - intros Hpos. apply Z.ltb_lt in Hpos. rewrite Hpos in Hinv.
    destruct Hinv as (o & Hinv & Hwarn). split; [|split].
    + destruct (InvalidatePattern_commands _ _ _ _ _ _ _ Hinv)
        as (rest & Hc & Hrest).
      exists rest. split; [by apply issued_app | done].
    + intros err Hk. apply Hwarn.
      unfold redis.InvalidatePattern, redis.Keys in Hinv.
      fold k in Hinv. change items_pattern with "items:*" in Hinv.
      rewrite Hk in Hinv. by injection Hinv as <- _.
    + intros Hk Hd key.
      destruct (InvalidatePattern_no_fault E
                  (WithTimeout (m_ctx m) (2 * Minute) (clock w))
                  (client.now n') items_pattern (rdb w) Hk Hd) as [r' Hok].
      rewrite Hok in Hinv. injection Hinv as _ Hr'. rewrite <- Hr'.
      unfold clock. rewrite Hnet.
      apply (InvalidatePattern_miss _ _ _ _ _ _ _ Hok).
  - intros H0. rewrite H0 in Hinv. change (0 <? 0) with false in Hinv.
    split; [done|]. unfold issued. by rewrite Hinv, drop_all.
  - intros E' Hsame.
    assert (Hf' : fetch_of E' m w = (Ok posts, n')).
    { unfold fetch_of in *. by rewrite (FetchPosts_env E E' Hsame). }
    destruct (counts_fetched E' m w posts n' Hf') as (_ & Hs' & Hfl').
    destruct (syncData_fetched E' m w posts n' Hf')
      as (wl' & w1' & Hrun' & Hnet' & Hdb' & Hafter' & _).
    rewrite Hs', Hfl', Hs, Hfl, Hrun', Hrun, Hw. cbn [fst snd].
    rewrite !(outcomes_env E E' Hsame).
    rewrite Hw in Hdb, Hnet.
    rewrite Hdb', Hafter', Hdb, Hafter, Hnet', Hnet.
    by rewrite (db_after_env E E' Hsame).
  - intros ctx t pattern r r' Hok key.
    apply (InvalidatePattern_miss _ _ _ _ _ _ _ Hok).
  - intros ctx t pattern r. apply InvalidatePattern_noop.
Qed.

End SyncClaims.

Section InvalidationWitness.

Import jobs.

Lemma sync_invalidates_items_cache_witness :
  let E := scenario.serving [scenario.post_A] [] [] in
  let w' := (syncData E scenario.manager scenario.warm).2 in
  issued scenario.warm w' = [CKeys "items:*"; CDel ["items:all"]] ∧
  redis.lookup_live (clock w') "items:all" (redis.kv (rdb w')) = None ∧
  redis.lookup_live (clock w') "orders:all" (redis.kv (rdb w')) =
    Some scenario.orders_payload.
Proof.
  cbv zeta.
  pose proof (sync_invalidates_items_cache
                (scenario.serving [scenario.post_A] [] [])
                scenario.manager scenario.warm [scenario.post_A]
                (fetch_of (scenario.serving [scenario.post_A] [] [])
                   scenario.manager scenario.warm).2) as H.
  cbv zeta in H.
  destruct H as (Hinv & _); [vm_compute; reflexivity|].
  destruct Hinv as (_ & _ & Hmiss); [vm_compute; reflexivity|].
  split; [vm_compute; reflexivity|].
  assert (Hk : redis_fault (scenario.serving [scenario.post_A] [] [])
                 (length (redis.commands (rdb scenario.warm)))
                 (CKeys "items:*") = None) by reflexivity.
  assert (Hd : ∀ keys, redis_fault (scenario.serving [scenario.post_A] [] [])
                 (S (length (redis.commands (rdb scenario.warm))))
                 (CDel keys) = None) by (intros keys; reflexivity).
  split.
  - rewrite (Hmiss Hk Hd "items:all"). reflexivity.
  - rewrite (Hmiss Hk Hd "orders:all"). vm_compute. reflexivity.
Defined.

End InvalidationWitness.

(** ** The HTTP handlers *)

Section Handlers.

Import api.

(** C6 fails on the code: [SyncDataManual] drops the context it is
    given.  With a source that answers 500 three times and then serves
    the posts, 29 s each time, the answer to the fourth attempt arrives
    123 s after the start of the run: within the handler's 3-minute
    deadline, under which the fetch succeeds, but the manual run is cut
    off at 2 minutes by the manager's own timeout and the handler
    answers 500.  Whatever context the caller passes, the run is the
    same. *)
Theorem manual_sync_cut_off_at_two_minutes :
  let E := scenario.recovering [scenario.post_A] in
  let h := mkHandler scenario.manager in
  let r := syncData E h Background scenario.start in
  let caller_ctx := WithTimeout Background (3 * Minute) (clock scenario.start) in
  deadline caller_ctx = Some (3 * Minute) ∧
  client.FetchPosts E (jobs.m_client scenario.manager) caller_ctx
    (net scenario.start) =
    (Ok [scenario.post_A],
     client.mkNet (123 * Second) 4
       [client.EvRequest 0 0; client.EvSleep Second;
        client.EvRequest 1 (30 * Second); client.EvSleep (2 * Second);
        client.EvRequest 2 (61 * Second); client.EvSleep (4 * Second);
        client.EvRequest 3 (94 * Second)]) ∧
  status r.1 = StatusInternalServerError ∧
  body r.1 =
    ErrorBody "sync failed"
      ("failed to fetch posts: failed to fetch posts: max retries exceeded, last error: request failed: Get "
       +:+ quoted "https://jsonplaceholder.typicode.com/posts"
       +:+ ": context deadline exceeded") ∧
  clock r.2 = 2 * Minute ∧
  (∀ E' m ctx ctx' w,
     jobs.SyncDataManual E' m ctx w = jobs.SyncDataManual E' m ctx' w) ∧
  (∀ E' m ctx w, jobs.SyncDataManual E' m ctx w = jobs.syncData E' m w).
Proof.
  cbv zeta. repeat split; vm_compute; reflexivity.
Qed.

Lemma GetJSON_client E ctx t key r :
  (redis.GetJSON E ctx t key r).2 =
    redis.mkClient (redis.kv r) (redis.commands r ++ [CGet key]).
Proof.
  unfold redis.GetJSON, redis.Get.
  destruct (redis_fault E _ _); [done|].
  by destruct (redis.lookup_live t key (redis.kv r)).
Qed.

Lemma lookup_live_insert t t' key v ttl (kv : gmap string redis.Entry) :
  0 < ttl → t ≤ t' < t + ttl →
  redis.lookup_live t' key (<[key := redis.mkEntry v (Some (t + ttl))]> kv)
    = Some v.
Proof.
  intros Hpos Ht. unfold redis.lookup_live, redis.live.
  rewrite lookup_insert_eq. cbn. zcases. done.
Qed.

(** C7: [getItems] reads the cache first.  On a hit it answers 200 with
    the cached items, cached = true and X-Cache HIT, having sent GET to
    the cache and nothing to the store.  On any failure of the cache
    read it selects all items from the store; when that succeeds it
    sends SET for the items key with the items and a TTL of 5 minutes,
    and answers 200 with the items, cached = false and X-Cache MISS
    whether or not the SET failed (after a SET that went through, a read
    of the key within the next 5 minutes finds the items).  The answer
    is 500 exactly when both the cache read and the store read fail. *)
Theorem getItems_read_through (E : Env) (h : Handler) (request_ctx : Context)
    (w : World) :
  let ctx := WithTimeout request_ctx (30 * Second) (clock w) in
  let t := clock w in
  let cached := redis.GetJSON E ctx t itemsCacheKey (rdb w) in
  let resp := (getItems E h request_ctx w).1 in
  let w' := (getItems E h request_ctx w).2 in
  (∀ items, cached.1 = Ok items →
     resp = mkResponse 200 (Some "HIT")
              (ItemsBody items (Z.of_nat (length items)) true t) ∧
     db w' = db w ∧
     issued w w' = [CGet "items:all"]) ∧
  (∀ e items d', cached.1 = Err e →
     database.GetAllItems E (db w) = (Ok items, d') →
     resp = mkResponse 200 (Some "MISS")
              (ItemsBody items (Z.of_nat (length items)) false t) ∧
     executed w w' = [QSelectItems] ∧
     issued w w' =
       [CGet "items:all"; CSet "items:all" (JSONItems items) (5 * Minute)] ∧
     (redis_fault E (S (length (redis.commands (rdb w))))
        (CSet "items:all" (JSONItems items) (5 * Minute)) = None →
      ∀ t', t ≤ t' < t + 5 * Minute →
        redis.lookup_live t' "items:all" (redis.kv (rdb w'))
          = Some (JSONItems items))) ∧
  (∀ e err d', cached.1 = Err e →
     database.GetAllItems E (db w) = (Err err, d') →
     resp = mkResponse 500 None
              (ErrorBody "failed to retrieve items" (Error err)) ∧
     executed w w' = [QSelectItems] ∧
     issued w w' = [CGet "items:all"]) ∧
  (status resp = StatusInternalServerError ↔
   is_Err cached.1 = true ∧ is_Err (database.GetAllItems E (db w)).1 = true).
Proof.
  intros ctx t cached resp w'.
  pose proof (GetJSON_client E ctx t itemsCacheKey (rdb w)) as Hc.
  fold cached in Hc.
  unfold resp, w', getItems. fold ctx t cached.
  destruct cached as [[items|e] r'] eqn:Hcached; cbn [fst snd] in *; subst r'.
  - split; [|split; [|split]]; try done.
    + intros ? [= <-]. cbn. split; [done|]. split; [done|].
      by apply issued_app.
    + cbn. split; [done | by intros [? _]].
  - unfold database.GetAllItems, redis.SetJSON, redis.Set_.
    cbn [redis.json_Marshal rdb db net logs redis.commands redis.kv log clock].
    destruct (db_fault E (length (database.statements (db w))) QSelectItems)
      as [err|] eqn:Hsel.
    + split; [done|]. split; [done|]. split; [|done].
      intros ? ? ? _ [= <- <-]. cbn. split; [done|].
      split; [by apply executed_app | by apply issued_app].
    + split; [done|]. split; [|split; [done|]].
      * intros ? ? ? _ [= <- <-].
        rewrite length_app, Nat.add_1_r.
        change (redis.set_args itemsCacheTTL) with (redis.EX 300).
        cbn [redis.expires]. change (300 * Second) with (5 * Minute).
        destruct (redis_fault E _ _) as [err|] eqn:Hset;
          [destruct (redis_ran E _)|]; cbn.
        -- split; [done|]. split; [by apply executed_app|].
           split; [apply issued_app; cbn; by rewrite <- app_assoc | done].
        -- split; [done|]. split; [by apply executed_app|].
           split; [apply issued_app; cbn; by rewrite <- app_assoc | done].
        -- split; [done|]. split; [by apply executed_app|].
           split; [apply issued_app; cbn; by rewrite <- app_assoc|].
           intros _ t' Ht'. by apply lookup_live_insert.
      * destruct (redis_fault E _ _); [destruct (redis_ran E _)|]; cbn;
          split; (done || by intros [_ ?]).
Qed.

Lemma getItems_read_through_witness :
  let E := scenario.serving [scenario.post_A] [] [] in
  let h := mkHandler scenario.manager in
  let w := (jobs.syncData E scenario.manager scenario.warm).2 in
  let first := getItems E h Background w in
  let second := getItems E h Background first.2 in
  let row := mkItem 1 "1" "A" "b" 1 0 0 in
  first.1 = mkResponse 200 (Some "MISS") (ItemsBody [row] 1 false (clock w)) ∧
  second.1 = mkResponse 200 (Some "HIT") (ItemsBody [row] 1 true (clock w)).
Proof.
  cbv zeta.
  pose proof (getItems_read_through (scenario.serving [scenario.post_A] [] [])
                (mkHandler scenario.manager) Background
                (jobs.syncData (scenario.serving [scenario.post_A] [] [])
                   scenario.manager scenario.warm).2) as H1.
  pose proof (getItems_read_through (scenario.serving [scenario.post_A] [] [])
                (mkHandler scenario.manager) Background
                (getItems (scenario.serving [scenario.post_A] [] [])
                   (mkHandler scenario.manager) Background
                   (jobs.syncData (scenario.serving [scenario.post_A] [] [])
                      scenario.manager scenario.warm).2).2) as H2.
  cbv zeta in H1, H2.
  destruct H1 as (_ & Hmiss & _). destruct H2 as (Hhit & _).
  split.
  - destruct (Hmiss redis.Nil [mkItem 1 "1" "A" "b" 1 0 0]
                (database.GetAllItems (scenario.serving [scenario.post_A] [] [])
                   (db (jobs.syncData (scenario.serving [scenario.post_A] [] [])
                          scenario.manager scenario.warm).2)).2)
      as (Hresp & _); [vm_compute; reflexivity | vm_compute; reflexivity |].
    exact Hresp.
  - destruct (Hhit [mkItem 1 "1" "A" "b" 1 0 0]) as (Hresp & _);
      [vm_compute; reflexivity|].
    exact Hresp.
Defined.

End Handlers.

(** * Further properties of the code *)

(** ** Bounds on what a fetch can do *)

Section FetchBounds.

Import client.

Variable E : Env.
Variable c : ExternalAPIClient.
Variable ctx : Context.

Lemma Err_at_None_alive t : Err_at ctx t = None → alive_until ctx t.
Proof.
  unfold Err_at, alive_until, doneAt, omin.
  destruct (deadline ctx), (cancelAt ctx); zcases; intros; simplify_eq; lia.
Qed.

(** The cut-off instant of a call started at [t] under a context that
    is not done yet. *)
Lemma cutoff_facts t :
  alive_until ctx t →
  (∀ tc e, cutoff c ctx t = Some (tc, e) → t ≤ tc) ∧
  (0 < Timeout c → ∃ tc e, cutoff c ctx t = Some (tc, e) ∧ tc ≤ t + Timeout c) ∧
  (∀ td, doneAt ctx = Some td → ∃ tc e, cutoff c ctx t = Some (tc, e) ∧ tc ≤ td).
Proof.
  unfold alive_until, cutoff. intros Hal.
  destruct (doneAt ctx) as [td|]; destruct (Z.ltb_spec 0 (Timeout c));
    try destruct (Z.leb_spec td (t + Timeout c));
    (split; [intros; simplify_eq; lia|]);
    (split; [intros; first [lia | eexists _, _; split; [done | lia]]|]);
    intros; simplify_eq; first [lia | eexists _, _; split; [done | lia]].
Qed.

(** What one call of [Do] can change. *)
Lemma Do_facts url attempt n r n' :
  Do E c ctx url attempt n = (r, n') →
  now n ≤ now n' ∧
  (sent n ≤ sent n' ≤ S (sent n))%nat ∧
  requests (trace n') = requests (trace n) ++ [attempt] ∧
  sleeps (trace n') = sleeps (trace n) ∧
  (0 < Timeout c → now n' ≤ now n + Timeout c) ∧
  (∀ td, doneAt ctx = Some td → now n' ≤ Z.max (now n) td) ∧
  ((∃ e, r = TransportError e) ∨
   (sent n' = S (sent n) ∧ r = reply E (sent n))).
Proof.
  unfold Do, reply, exchange.
  assert (Htr : requests (trace n ++ [EvRequest attempt (now n)]) =
                requests (trace n) ++ [attempt]) by by rewrite requests_app.
  assert (Hsl : sleeps (trace n ++ [EvRequest attempt (now n)]) =
                sleeps (trace n)) by (rewrite sleeps_app; apply app_nil_r).
  destruct (Err_at ctx (now n)) as [e|] eqn:Herr.
  { intros [= <- <-]. cbn [now sent trace].
    repeat split; try done; try lia. left. by eexists. }
  apply Err_at_None_alive in Herr.
  destruct (cutoff_facts (now n) Herr) as (Hge & Hclient & Hctx).
  destruct (server E (sent n)) as [lat x]. cbn [fst snd].
  destruct (send url 1 (now n) lat x (cutoff c ctx (now n))) as [r0 t'] eqn:Hsend.
  intros [= <- <-]. cbn [now sent trace].
  apply send_facts in Hsend as (Ht & Htc & Hr); [|done].
  split; [lia|]. split; [lia|]. split; [done|]. split; [done|].
  split. { intros HT. destruct (Hclient HT) as (tc & e & Hc & Hle).
           specialize (Htc tc e Hc). lia. }
  split. { intros td Hd. destruct (Hctx td Hd) as (tc & e & Hc & Hle).
           specialize (Htc tc e Hc). lia. }
  destruct Hr as [?|[-> _]]; [by left | by right].
Qed.

(** What one backoff wait can change. *)
Lemma select_backoff_facts d n o n' :
  select_backoff ctx d n = (o, n') →
  now n ≤ now n' ≤ now n + Z.max 0 d ∧
  sent n' = sent n ∧
  requests (trace n') = requests (trace n) ∧
  (∀ td, doneAt ctx = Some td → now n' ≤ Z.max (now n) td).
Proof.
  unfold select_backoff.
  assert (Hr : ∀ e, requests (trace n ++ [e]) = requests (trace n) ++ requests [e])
    by (intros; apply requests_app).
  destruct (doneAt ctx) as [td|]; zcases; intros [= <- <-];
    cbn [now sent trace]; rewrite Hr; cbn; rewrite app_nil_r;
    (split; [lia|]); (split; [done|]); (split; [done|]);
    intros ? ?; simplify_eq; lia.
Qed.

Lemma pause_nonneg attempt : 0 ≤ pause attempt.
Proof. unfold pause. case_match; lia. Qed.

(** What a run of the retry loop can change, whatever the source and the
    context do. *)
Lemma retry_loop_bounds url iters : ∀ attempt lastErr dest n r n',
  retry_loop E c ctx url iters attempt lastErr dest n = (r, n') →
  now n ≤ now n' ∧
  (sent n ≤ sent n' ≤ sent n + iters)%nat ∧
  (attempts (trace n) ≤ attempts (trace n') ≤ attempts (trace n) + iters)%nat ∧
  (0 < Timeout c → now n' ≤ now n + horizon (Timeout c) attempt iters) ∧
  (∀ td, doneAt ctx = Some td → now n' ≤ Z.max (now n) td) ∧
  (∀ ps, r = Ok ps →
     (sent n < sent n')%nat ∧
     ∃ s p, reply E (sent n' - 1) = Response s (Bytes p) ∧
            200 ≤ s < 300 ∧ unmarshal_error p = None ∧
            (∃ dest0, ps = elems (Unmarshal p dest0).2) ∧
            ((∀ k d, (sent n ≤ k < sent n' - 1)%nat →
                     decoded (reply E k) d = d) →
             ps = elems (Unmarshal p dest).2)).
Proof.
  induction iters as [|i IH]; intros attempt lastErr dest n r n' Hrun.
  - cbn in Hrun. simplify_eq. cbn [horizon].
    split; [lia|]. split; [lia|]. split; [lia|]. split; [lia|].
    split; [intros; lia | done].
  - rewrite retry_loop_S in Hrun. cbn [horizon].
    pose proof (pause_nonneg attempt) as Hp.
    assert (Hsel : ∃ o n1,
              (if 0 <? attempt then select_backoff ctx (backoff attempt) n
               else (None, n)) = (o, n1) ∧
              now n ≤ now n1 ≤ now n + pause attempt ∧ sent n1 = sent n ∧
              requests (trace n1) = requests (trace n) ∧
              (∀ td, doneAt ctx = Some td → now n1 ≤ Z.max (now n) td)).
    { unfold pause. destruct (0 <? attempt).
      - destruct (select_backoff ctx (backoff attempt) n) as [o n1] eqn:Hs.
        exists o, n1. split; [done|]. by apply select_backoff_facts in Hs.
      - exists None, n. repeat split; try done; lia. }
    destruct Hsel as (o & n1 & Hsel & Ht1 & Hs1 & Hr1 & Hd1).
    rewrite Hsel in Hrun. unfold attempts in *.
    destruct o as [e|].
    { simplify_eq. rewrite Hs1, Hr1.
      split; [lia|]. split; [lia|]. split; [lia|].
      split; [|split; [by apply Hd1 | done]].
      intros HT. pose proof (horizon_nonneg (Timeout c) (attempt + 1) i). lia. }
    destruct (new_request_err E url) as [e|].
    { simplify_eq. rewrite Hs1, Hr1.
      split; [lia|]. split; [lia|]. split; [lia|].
      split; [|split; [by apply Hd1 | done]].
      intros HT. pose proof (horizon_nonneg (Timeout c) (attempt + 1) i). lia. }
    destruct (Do E c ctx url attempt n1) as [rep n2] eqn:HDo.
    apply Do_facts in HDo as (Ht2 & Hs2 & Hr2 & _ & HT2 & Hd2 & Hrep).
    cbv zeta in Hrun.
    assert (Hlen : length (requests (trace n2)) = S (length (requests (trace n)))).
    { rewrite Hr2, Hr1, length_app. cbn. lia. }
    assert (Hdone : ∀ td, doneAt ctx = Some td → now n2 ≤ Z.max (now n) td).
    { intros td Htd. specialize (Hd1 td Htd). specialize (Hd2 td Htd). lia. }
    destruct (classify rep) as [|e|e] eqn:Hcl.
    + simplify_eq. rewrite Hlen.
      split; [lia|]. split; [lia|]. split; [lia|].
      split. { intros HT. specialize (HT2 HT).
               pose proof (horizon_nonneg (Timeout c) (attempt + 1) i). lia. }
      split; [done|].
      intros ? [= <-].
      destruct Hrep as [[e ->]|[Hs ->]]; [done|].
      apply classify_Succeed_inv in Hcl as (s & p & Hrep & Hs200 & Hnone).
      split; [lia|]. exists s, p. rewrite Hs, Hs1.
      replace (S (sent n) - 1)%nat with (sent n) by lia.
      rewrite <- Hs1. split; [done|]. split; [done|]. split; [done|].
      rewrite Hrep. cbn [decoded].
      rewrite (proj2 (andb_true_iff _ _)) by (split; lia).
      split; [by eexists | done].
    + simplify_eq. rewrite Hlen.
      split; [lia|]. split; [lia|]. split; [lia|].
      split. { intros HT. specialize (HT2 HT).
               pose proof (horizon_nonneg (Timeout c) (attempt + 1) i). lia. }
      split; done.
    + apply IH in Hrun as (Ht & Hs & Ha & HT & Hd & Hok).
      rewrite Hlen in Ha.
      split; [lia|]. split; [lia|]. split; [lia|].
      split. { intros H0. specialize (HT H0). specialize (HT2 H0). lia. }
      split. { intros td Htd. specialize (Hd td Htd).
               specialize (Hdone td Htd). lia. }
      intros ps Hps.
      destruct (Hok ps Hps) as (Hlt & s & p & Hlast & H2xx & Hnone & Hany & Hfresh).
      split; [lia|]. exists s, p.
      split; [done|]. split; [done|]. split; [done|]. split; [done|].
      intros Hid. assert (decoded rep dest = dest) as Hsame.
      { destruct Hrep as [[e0 ->]|[Hs2' ->]]; [done|].
        apply Hid. lia. }
      rewrite Hsame in Hfresh. apply Hfresh.
      intros k d Hk. apply Hid. lia.
Qed.

End FetchBounds.

Section FetchProperties.

Import client.

(** X1: [retryRequest] issues at most [maxRetries + 1] requests, and at
    most that many go out to the network, whatever the source and the
    context do; [FetchPosts] therefore never issues more than 4.  The clock never
    runs backwards.  With a negative [maxRetries] no request is issued at
    all and the call fails with "max retries exceeded" around a nil
    error. *)
Theorem retryRequest_attempt_bound (E : Env) (c : ExternalAPIClient)
    (ctx : Context) (url : string) (dest : Slice) (maxRetries : Z) (n : Net) :
  let n' := (retryRequest E c ctx url dest maxRetries n).2 in
  let fetched := (FetchPosts E c ctx n).2 in
  (attempts (trace n') ≤ attempts (trace n) + Z.to_nat (maxRetries + 1))%nat ∧
  (sent n ≤ sent n' ≤ sent n + Z.to_nat (maxRetries + 1))%nat ∧
  now n ≤ now n' ∧
  (attempts (trace fetched) ≤ attempts (trace n) + 4)%nat ∧
  (sent fetched ≤ sent n + 4)%nat ∧
  (maxRetries < 0 →
     retryRequest E c ctx url dest maxRetries n =
       (Err (WrapNil "max retries exceeded, last error: "), n)).
Proof.
  cbv zeta. unfold FetchPosts, retryRequest.
  destruct (retry_loop E c ctx url (Z.to_nat (maxRetries + 1)) 0 None dest n)
    as [r n'] eqn:Hrun.
  pose proof Hrun as (Ht & Hs & Ha & _)%retry_loop_bounds.
  destruct (retry_loop E c ctx (baseURL c +:+ "/posts") (Z.to_nat (3 + 1))
              0 None nil_slice n) as [r4 n4] eqn:Hrun4.
  apply retry_loop_bounds in Hrun4 as (_ & Hs4 & Ha4 & _).
  change (Z.to_nat (3 + 1)) with 4%nat in *.
  cbn [snd]. split; [lia|]. split; [lia|]. split; [lia|].
  split; [by destruct r4; cbn; lia|]. split; [by destruct r4; cbn; lia|].
  intros Hneg. rewrite <- Hrun.
  replace (Z.to_nat (maxRetries + 1)) with 0%nat by lia. done.
Qed.

Lemma retryRequest_attempt_bound_witness :
  retryRequest (scenario.always_status 500) scenario.api_client Background
    "https://example.org/posts" nil_slice (-1) scenario.idle =
  (Err (WrapNil "max retries exceeded, last error: "), scenario.idle).
Proof.
  pose proof (retryRequest_attempt_bound (scenario.always_status 500)
                scenario.api_client Background "https://example.org/posts"
                nil_slice (-1) scenario.idle) as H.
  cbv zeta in H. destruct H as (_ & _ & _ & _ & _ & H).
  apply H. lia.
Defined.

(** X2: a fetch never outlasts its context: when the context is done at
    instant [td], [FetchPosts] has returned by [td] (or at once, if [td]
    is already past). *)
Theorem fetch_never_outlasts_context (E : Env) (c : ExternalAPIClient)
    (ctx : Context) (n : Net) (td : Z) :
  doneAt ctx = Some td →
  now n ≤ now (FetchPosts E c ctx n).2 ≤ Z.max (now n) td.
Proof.
  intros Hd. unfold FetchPosts, retryRequest.
  destruct (retry_loop E c ctx _ _ 0 None _ n) as [r n1] eqn:Hrun.
  apply retry_loop_bounds in Hrun as (Ht & _ & _ & _ & Hdn & _).
  specialize (Hdn td Hd). by destruct r.
Qed.

Lemma fetch_never_outlasts_context_witness :
  now (FetchPosts (scenario.always_status 500) scenario.api_client
         scenario.two_seconds scenario.idle).2 ≤ 2 * Second.
Proof.
  destruct (fetch_never_outlasts_context (scenario.always_status 500)
              scenario.api_client scenario.two_seconds scenario.idle
              (2 * Second) eq_refl) as [_ H].
  exact H.
Defined.

(** X6: the fetch of a sync run, made under the 2-minute timeout that
    [syncData] puts on the manager's context, is over at most 2 minutes
    after the run started, whatever the source does and whatever timeout
    the client has. *)
Theorem sync_fetch_within_two_minutes (E : Env) (m : jobs.Manager) (w : World) :
  clock w ≤ now (fetch_of E m w).2 ≤ clock w + 2 * Minute.
Proof.
  unfold fetch_of, FetchPosts, retryRequest, clock.
  destruct (retry_loop E (jobs.m_client m) _ _ _ 0 None _ (net w))
    as [r n1] eqn:Hrun.
  apply retry_loop_bounds in Hrun as (Ht & _ & _ & _ & Hdn & _).
  assert (∃ td', doneAt (WithTimeout (jobs.m_ctx m) (2 * Minute) (now (net w)))
                   = Some td' ∧ td' ≤ now (net w) + 2 * Minute)
    as (td' & Hd' & Hle).
  { unfold doneAt, WithTimeout, omin. cbn.
    destruct (deadline (jobs.m_ctx m)), (cancelAt (jobs.m_ctx m));
      eexists; (split; [done | lia]). }
  specialize (Hdn td' Hd'). unfold Minute, Second in *.
  destruct r; cbn [snd]; lia.
Qed.

Lemma FetchPosts_within (E : Env) (c : ExternalAPIClient) (ctx : Context)
    (n : Net) :
  0 < Timeout c →
  now (FetchPosts E c ctx n).2 ≤ now n + 4 * Timeout c + 7 * Second.
Proof.
  intros HT. unfold FetchPosts, retryRequest.
  change (Z.to_nat (3 + 1)) with 4%nat.
  destruct (retry_loop E c ctx _ 4 0 None _ n) as [r n1] eqn:Hrun.
  apply retry_loop_bounds in Hrun as (_ & _ & _ & Hb & _).
  specialize (Hb HT). rewrite horizon_fetch in Hb.
  destruct r; cbn [snd]; lia.
Qed.

(** X3: with a positive client timeout T, [FetchPosts] returns within
    4 T + 7 s of its start, however slow or silent the source is: each of
    the at most 4 requests is cut off after T, and the waits between them
    add up to at most 7 s. *)
Theorem fetch_bounded_by_client_timeout (E : Env) (c : ExternalAPIClient)
    (ctx : Context) (n : Net) :
  0 < Timeout c →
  now (FetchPosts E c ctx n).2 ≤ now n + 4 * Timeout c + 7 * Second.
Proof. apply FetchPosts_within. Qed.

Lemma fetch_bounded_by_client_timeout_witness :
  now (FetchPosts (scenario.recovering []) scenario.api_client Background
         scenario.idle).2 ≤ 127 * Second.
Proof.
  apply (fetch_bounded_by_client_timeout (scenario.recovering [])
           scenario.api_client Background scenario.idle).
  vm_compute. reflexivity.
Defined.



Lemma wrap64_small z : - 2 ^ 63 ≤ z < 2 ^ 63 → wrap64 z = z.
Proof. intros H. unfold wrap64. rewrite Z.mod_small; lia. Qed.

(** X5: the backoff before retry number [attempt] is 2^(attempt-1)
    seconds as long as [attempt] is at most 34; beyond that the int64
    arithmetic overflows, and from retry 65 on the shift yields 0, so the
    loop no longer waits at all. *)
Theorem backoff_exact_until_overflow (attempt : Z) :
  (1 ≤ attempt ≤ 34 → backoff attempt = 2 ^ (attempt - 1) * Second) ∧
  (65 ≤ attempt → backoff attempt = 0).
Proof.
  unfold backoff. split; intros H.
  - rewrite Z.shiftl_1_l.
    assert (0 < 2 ^ (attempt - 1) ≤ 2 ^ 33).
    { split; [apply Z.pow_pos_nonneg; lia|].
      apply Z.pow_le_mono_r; lia. }
    change (2 ^ 33) with 8589934592 in *. unfold Second.
    rewrite (wrap64_small (2 ^ (attempt - 1))) by lia.
    apply wrap64_small. lia.
  - rewrite Z.shiftl_1_l.
    replace (attempt - 1) with (64 + (attempt - 65)) by lia.
    rewrite Z.pow_add_r by lia.
    assert (wrap64 (2 ^ 64 * 2 ^ (attempt - 65)) = 0) as ->; [|done].
    unfold wrap64.
    rewrite (Z.mul_comm (2 ^ 64)), Z.add_comm, Z.mod_add by lia. done.
Qed.

Lemma backoff_exact_until_overflow_witness :
  backoff 3 = 4 * Second ∧ backoff 70 = 0.
Proof.
  destruct (backoff_exact_until_overflow 3) as [H3 _].
  destruct (backoff_exact_until_overflow 70) as [_ H70].
  split; [rewrite H3 by lia; reflexivity | apply H70; lia].
Defined.

End FetchProperties.

(** ** The store across statements and runs *)

Section StoreProperties.

Import database.

Global Instance created_desc_total : Total created_desc.
Proof. intros a b. unfold created_desc. lia. Qed.

Global Instance created_desc_trans : Transitive created_desc.
Proof. intros a b c. unfold created_desc. lia. Qed.

(** X7: a successful [GetAllItems] returns every row of the table
    exactly once (a permutation of the table), ordered by created_at from
    newest to oldest; a failing one returns the driver's error; neither
    changes the table. *)
Theorem GetAllItems_sorted_listing (E : Env) (d : DB) :
  rows (GetAllItems E d).2 = rows d ∧
  next_id (GetAllItems E d).2 = next_id d ∧
  (∀ items, (GetAllItems E d).1 = Ok items →
     items ≡ₚ rows d ∧
     length items = length (rows d) ∧
     StronglySorted created_desc items ∧
     ∀ i j a b, (i < j)%nat → items !! i = Some a → items !! j = Some b →
                CreatedAt b ≤ CreatedAt a) ∧
  (∀ err, db_fault E (length (statements d)) QSelectItems = Some err →
     (GetAllItems E d).1 = Err err).
Proof.
  unfold GetAllItems.
  destruct (db_fault E (length (statements d)) QSelectItems) as [err|];
    cbn [fst snd rows next_id].
  - split; [done|]. split; [done|]. split; [done|]. by intros ? [= <-].
  - split; [done|]. split; [done|]. split; [|done].
    intros items [= <-].
    pose proof (merge_sort_Permutation created_desc (rows d)) as Hp.
    pose proof (StronglySorted_merge_sort created_desc (rows d)) as Hs.
    split; [done|]. split; [by rewrite Hp|]. split; [done|].
    generalize dependent (merge_sort created_desc (rows d)).
    intros l _ Hs. induction Hs as [|x l Hs IH Hall]; intros i j a b Hij Hi Hj.
    + by rewrite lookup_nil in Hi.
    + destruct j as [|j]; [lia|]. cbn in Hj. destruct i as [|i].
      * cbn in Hi. simplify_eq.
        rewrite Forall_forall in Hall. apply (Hall b).
        by eapply list_elem_of_lookup_2.
      * cbn in Hi. eapply (IH i j); [lia | done | done].
Qed.

Lemma GetAllItems_sorted_listing_witness :
  let E := scenario.serving [] [] [] in
  let d := mkDB [mkItem 1 "1" "A" "b" 1 5 5; mkItem 2 "2" "B" "c" 1 9 9] 3 [] in
  (GetAllItems E d).1 =
    Ok [mkItem 2 "2" "B" "c" 1 9 9; mkItem 1 "1" "A" "b" 1 5 5].
Proof.
  cbv zeta.
  pose proof (GetAllItems_sorted_listing (scenario.serving [] [] [])
                (mkDB [mkItem 1 "1" "A" "b" 1 5 5; mkItem 2 "2" "B" "c" 1 9 9]
                   3 [])) as (_ & _ & H & _).
  destruct (H [mkItem 2 "2" "B" "c" 1 9 9; mkItem 1 "1" "A" "b" 1 5 5])
    as (_ & _ & _ & _); [vm_compute; reflexivity|].
  vm_compute. reflexivity.
Defined.

(** One statement keeps every stored row's key, id and created_at. *)
Lemma UpsertItem_keeps_row E t item d o d' k r :
  UpsertItem E t item d = (o, d') →
  find_key k (rows d) = Some r →
  ∃ r', find_key k (rows d') = Some r' ∧
        item_ID r' = item_ID r ∧ ExternalID r' = ExternalID r ∧
        CreatedAt r' = CreatedAt r.
Proof.
  intros Hup Hr. destruct o as [err|].
  - apply UpsertItem_failed in Hup as (-> & _). by exists r.
  - apply UpsertItem_ok in Hup as (-> & _).
    destruct (decide (k = ExternalID item)) as [->|Hne].
    + rewrite insert_or_update_find, Hr. eexists. split; [done|]. cbn.
      apply find_key_Some in Hr as [_ ->]. done.
    + rewrite insert_or_update_find_ne by done. by exists r.
Qed.

Lemma UpsertItem_length E t item d o d' :
  UpsertItem E t item d = (o, d') → (length (rows d) ≤ length (rows d'))%nat.
Proof.
  destruct o as [err|].
  - by intros (-> & _)%UpsertItem_failed.
  - intros (-> & _)%UpsertItem_ok. rewrite insert_or_update_length.
    case_match; lia.
Qed.

Lemma db_after_invariants E t posts : ∀ d,
  (unique_keys (rows d) → unique_keys (rows (db_after E t posts d))) ∧
  (length (rows d) ≤ length (rows (db_after E t posts d)))%nat ∧
  (∀ k r, find_key k (rows d) = Some r →
     ∃ r', find_key k (rows (db_after E t posts d)) = Some r' ∧
           item_ID r' = item_ID r ∧ ExternalID r' = ExternalID r ∧
           CreatedAt r' = CreatedAt r).
Proof.
  unfold db_after. induction posts as [|p posts IH]; intros d; cbn [fold_left].
  - split; [done|]. split; [done|]. intros k r Hr. by exists r.
  - destruct (UpsertItem E t (jobs.item_of_post p) d) as [o d1] eqn:Hup.
    cbn [snd]. destruct (IH d1) as (Hu & Hl & Hk).
    split. { intros H. apply Hu. by eapply UpsertItem_unique. }
    split. { apply UpsertItem_length in Hup. lia. }
    intros k r Hr.
    destruct (UpsertItem_keeps_row _ _ _ _ _ _ _ _ Hup Hr)
      as (r1 & Hr1 & Hid1 & Hx1 & Hc1).
    destruct (Hk k r1 Hr1) as (r' & Hr' & Hid & Hx & Hc).
    exists r'. split; [done|]. split; [congruence|]. split; congruence.
Qed.

(** The store a sync run leaves behind. *)
Lemma syncData_db E m w :
  db (jobs.syncData E m w).2 = db w ∨
  ∃ posts, db (jobs.syncData E m w).2 =
             db_after E (clock (jobs.syncData E m w).2) posts (db w).
Proof.
  destruct (fetch_of E m w) as [[posts|err] n'] eqn:Hf.
  - right. exists posts.
    destruct (syncData_fetched E m w posts n' Hf)
      as (wl & w' & Hrun & Hnet & Hdb & Hafter & _).
    rewrite Hrun. cbn [snd]. unfold clock. by rewrite Hnet, Hdb, Hafter.
  - left. by rewrite (syncData_fetch_failed E m w err n' Hf).
Qed.

(** X8: whatever a sync run meets (fetch failure, failing upserts,
    failing cache), it keeps the UNIQUE key of the table, never removes a
    row, and leaves the id, the externalID and the created_at of every
    row that was already stored as they were. *)
Theorem sync_keeps_store_invariants (E : Env) (m : jobs.Manager) (w : World) :
  let w' := (jobs.syncData E m w).2 in
  (unique_keys (rows (db w)) → unique_keys (rows (db w'))) ∧
  (length (rows (db w)) ≤ length (rows (db w')))%nat ∧
  (∀ k r, find_key k (rows (db w)) = Some r →
     ∃ r', find_key k (rows (db w')) = Some r' ∧
           item_ID r' = item_ID r ∧ ExternalID r' = ExternalID r ∧
           CreatedAt r' = CreatedAt r).
Proof.
  cbv zeta. destruct (syncData_db E m w) as [->|[posts ->]].
  - split; [done|]. split; [done|]. intros k r Hr. by exists r.
  - apply db_after_invariants.
Qed.

Lemma sync_keeps_store_invariants_witness :
  let E := scenario.serving [mkPost 7 1 "A2" "b2"] [] [] in
  let w := mkWorld (client.mkNet (90 * Second) 0 [])
             (mkDB [mkItem 1 "1" "A" "b" 1 5 5] 2 []) scenario.empty_cache [] in
  ∃ r', find_key "1" (rows (db (jobs.syncData E scenario.manager w).2)) = Some r' ∧
        item_ID r' = 1 ∧ CreatedAt r' = 5.
Proof.
  cbv zeta.
  pose proof (sync_keeps_store_invariants
                (scenario.serving [mkPost 7 1 "A2" "b2"] [] [])
                scenario.manager
                (mkWorld (client.mkNet (90 * Second) 0 [])
                   (mkDB [mkItem 1 "1" "A" "b" 1 5 5] 2 [])
                   scenario.empty_cache [])) as H.
  cbv zeta in H. destruct H as (_ & _ & H).
  destruct (H "1" (mkItem 1 "1" "A" "b" 1 5 5) eq_refl)
    as (r' & Hr' & Hid & _ & Hc).
  exists r'. split; [exact Hr'|]. split; [exact Hid | exact Hc].
Defined.

End StoreProperties.

(** ** The cache as a store of listings *)

Section CacheProperties.

Import redis.




(** What an invalidation does to a key, whatever its outcome. *)
Lemma InvalidatePattern_any E ctx t pattern r k :
  kv (InvalidatePattern E ctx t pattern r).2 !! k = kv r !! k ∨
  (kv (InvalidatePattern E ctx t pattern r).2 !! k = None ∧
   ∃ e, kv r !! k = Some e ∧ live t e = true ∧ matches pattern k = true).
Proof.
  unfold InvalidatePattern, Keys, Del.
  destruct (redis_fault E (length (commands r)) (CKeys pattern)); [by left|].
  set (keys := omap _ _).
  assert (Hkeys : k ∈ keys ↔
            ∃ e, kv r !! k = Some e ∧ live t e = true ∧ matches pattern k = true)
    by apply elem_of_matching.
  assert (Hdel : kv r !! k = foldr delete (kv r) keys !! k ∨
            (foldr delete (kv r) keys !! k = None ∧
             ∃ e, kv r !! k = Some e ∧ live t e = true ∧ matches pattern k = true)).
  { rewrite lookup_foldr_delete. case_bool_decide as Hin; [|by left].
    right. split; [done|]. by apply Hkeys. }
  destruct (0 <? Z.of_nat (length keys)); [|by left]. simpl.
  destruct (redis_fault E _ (CDel keys)); [destruct (redis_ran E _)|]; simpl;
    first [by left | destruct Hdel as [<-|?]; [by left | by right]].
Qed.

(** X10: an invalidation only ever removes keys that match its pattern
    and were live when it listed them: whatever its outcome - success, a
    failing KEYS, a failing DEL, a DEL that the server ran although its
    reply was lost - every key that does not match reads as before, and
    no key is created or changed.  When it reports success no live key
    matches the pattern any more; when it reports an error the matching
    keys may be gone all the same. *)
Theorem invalidation_removes_matching_keys_only (E : Env) (ctx : Context)
    (t : Z) (pattern : string) (r : Client) :
  let out := InvalidatePattern E ctx t pattern r in
  (∀ k, matches pattern k = false → kv out.2 !! k = kv r !! k) ∧
  (∀ k e, kv out.2 !! k = Some e → kv r !! k = Some e) ∧
  (out.1 = None →
   ∀ k, matches pattern k = true → lookup_live t k (kv out.2) = None) ∧
  (let lost := InvalidatePattern scenario.lost_reply Background 0 "items:*"
                 scenario.warm_cache in
   is_Some lost.1 ∧
   lookup_live 0 "items:all" (kv scenario.warm_cache) = Some (JSONItems []) ∧
   lookup_live 0 "items:all" (kv lost.2) = None).
Proof.
  cbv zeta. split; [|split; [|split]].
  - intros k Hno.
    destruct (InvalidatePattern_any E ctx t pattern r k)
      as [H|(_ & e & _ & _ & Hm)]; [done | congruence].
  - intros k e He.
    destruct (InvalidatePattern_any E ctx t pattern r k)
      as [H|(Hnone & _)]; congruence.
  - intros Hok k Hm.
    destruct (InvalidatePattern E ctx t pattern r) as [o r'] eqn:Hinv.
    cbn [fst snd] in *. subst o.
    rewrite (InvalidatePattern_miss _ _ _ _ _ _ k Hinv). by rewrite Hm.
  - split; [vm_compute; by eexists|]. split; vm_compute; reflexivity.
Qed.

Lemma invalidation_removes_matching_keys_only_witness :
  let E := scenario.serving [] [] [1%nat] in
  let out := InvalidatePattern E Background 0 "items:*" scenario.warm_cache in
  kv out.2 !! "orders:all" = kv scenario.warm_cache !! "orders:all".
Proof.
  cbv zeta.
  destruct (invalidation_removes_matching_keys_only (scenario.serving [] [] [1%nat])
              Background 0 "items:*" scenario.warm_cache) as (H & _).
  apply H. reflexivity.
Defined.

End CacheProperties.

(** ** Handlers and runs composed *)

Section Composition.

Import api.

(** The error a run returns, by the fate of its fetch and upserts. *)
Lemma syncData_result E m w :
  (jobs.syncData E m w).1 =
    match (fetch_of E m w).1 with
    | Err err => Some (Wrap "failed to fetch posts: " err)
    | Ok posts =>
        if 0 <? failed E w (jobs.syncData E m w).2
        then Some (errors_out_of (failed E w (jobs.syncData E m w).2)
                     (length posts))
        else None
    end.
Proof.
  destruct (fetch_of E m w) as [[posts|err] n'] eqn:Hf; cbn [fst].
  - destruct (counts_fetched E m w posts n' Hf) as (_ & _ & ->).
    destruct (syncData_fetched E m w posts n' Hf) as (wl & w' & -> & _).
    done.
  - by rewrite (syncData_fetch_failed E m w err n' Hf).
Qed.

(** X11: the handler of POST /api/v1/sync answers 500 exactly when the
    fetch failed or at least one upsert failed, and 200 otherwise; in
    particular a run in which some upserts succeeded and others failed is
    answered with 500.  The 500 body carries "sync failed" and the text
    of the run's error. *)
Theorem sync_handler_reports_any_failure (E : Env) (h : Handler)
    (request_ctx : Context) (w : World) :
  let out := syncData E h request_ctx w in
  let m := jobManager h in
  (status out.1 = StatusOK ∨ status out.1 = StatusInternalServerError) ∧
  (status out.1 = StatusInternalServerError ↔
   is_Err (fetch_of E m w).1 = true ∨ 0 < failed E w out.2) ∧
  (0 < succeeded E w out.2 → 0 < failed E w out.2 →
   status out.1 = StatusInternalServerError) ∧
  (status out.1 = StatusInternalServerError →
   ∃ err, body out.1 = ErrorBody "sync failed" (Error err) ∧
          (is_Err (fetch_of E m w).1 = true ∨
           err = errors_out_of (failed E w out.2)
                   (Z.to_nat (succeeded E w out.2 + failed E w out.2)))).
Proof.
  cbv zeta. unfold syncData, jobs.SyncDataManual.
  set (w1 := log logger.Info "Manual sync requested" [] w).
  pose proof (syncData_result E (jobManager h) w1) as Hres.
  change (fetch_of E (jobManager h) w1) with (fetch_of E (jobManager h) w) in *.
  assert (Hcnt : ∀ w', failed E w1 w' = failed E w w' ∧
                       succeeded E w1 w' = succeeded E w w') by done.
  destruct (jobs.syncData E (jobManager h) w1) as [o w'] eqn:Hrun.
  cbn [fst snd] in Hres. destruct (Hcnt w') as [Hf Hs]. rewrite Hf in Hres.
  assert (Hlog : ∀ l msg fs, failed E w (log l msg fs w') = failed E w w' ∧
                             succeeded E w (log l msg fs w') = succeeded E w w')
    by done.
  destruct (fetch_of E (jobManager h) w) as [[posts|err] n'] eqn:Hfetch;
    cbn [fst is_Err] in *.
  - destruct (counts_fetched E (jobManager h) w1 posts n') as (Hex & Hsc & Hfl);
      [done|].
    rewrite Hrun in Hex, Hsc, Hfl. cbn [snd] in Hex, Hsc, Hfl.
    pose proof (tally_sum (outcomes E (length (database.statements (db w1)))
                             (query_of_post <$> posts))) as (H0s & H0f & Hsum).
    rewrite length_outcomes, length_fmap in Hsum.
    rewrite <- Hsc, <- Hfl, Hs, Hf in Hsum.
    destruct (Z.ltb_spec 0 (failed E w w')) as [Hpos|Hzero]; subst o.
    + cbn [fst snd status body].
      destruct (Hlog logger.Error_ "Manual sync failed"
                  [("error", logger.FError
                      (errors_out_of (failed E w w') (length posts)))])
        as [-> ->].
      split; [by right|]. split; [split; [by right | done]|].
      split; [done|]. intros _. eexists. split; [done|]. right.
      do 2 f_equal. lia.
    + cbn [fst snd status body].
      split; [by left|]. split; [split; [done | intros [?|?]; [done | lia]]|].
      split; [lia | done].
  - subst o. cbn [fst snd status body].
    split; [by right|]. split; [split; [by left | done]|].
    split; [done|]. intros _. eexists. split; [done | by left].
Qed.

Lemma sync_handler_reports_any_failure_witness :
  let E := scenario.serving scenario.ten_posts [2; 5; 7]%nat [] in
  let out := syncData E (NewRouter (client.mkExternalAPIConfig "https://x" 30))
               Background scenario.start in
  succeeded E scenario.start out.2 = 7 ∧
  status out.1 = StatusInternalServerError.
Proof.
  cbv zeta.
  pose proof (sync_handler_reports_any_failure
                (scenario.serving scenario.ten_posts [2; 5; 7]%nat [])
                (NewRouter (client.mkExternalAPIConfig "https://x" 30))
                Background scenario.start) as H.
  cbv zeta in H. destruct H as (_ & _ & H & _).
  split; [vm_compute; reflexivity|].
  apply H; vm_compute; reflexivity.
Defined.

Lemma getItems_hit E h request_ctx w items r' :
  redis.GetJSON E (WithTimeout request_ctx (30 * Second) (clock w)) (clock w)
    itemsCacheKey (rdb w) = (Ok items, r') →
  getItems E h request_ctx w =
    (mkResponse StatusOK (Some "HIT")
       (ItemsBody items (Z.of_nat (length items)) true (clock w)),
     log logger.Debug "Items served from cache" []
       (mkWorld (net w) (db w) r' (logs w))).
Proof. unfold getItems. by intros ->. Qed.

Lemma getItems_miss E h request_ctx w e r' items d' :
  redis.GetJSON E (WithTimeout request_ctx (30 * Second) (clock w)) (clock w)
    itemsCacheKey (rdb w) = (Err e, r') →
  database.GetAllItems E (db w) = (Ok items, d') →
  let out := getItems E h request_ctx w in
  out.1 = mkResponse StatusOK (Some "MISS")
            (ItemsBody items (Z.of_nat (length items)) false (clock w)) ∧
  net out.2 = net w ∧ db out.2 = d' ∧
  rdb out.2 =
    (redis.SetJSON E (WithTimeout request_ctx (30 * Second) (clock w))
       (clock w) itemsCacheKey items itemsCacheTTL r').2.
Proof.
  intros Hget Hall. cbv zeta. unfold getItems. rewrite Hget.
  cbn [db rdb net logs]. rewrite Hall. cbn [db rdb net logs clock].
  by destruct (redis.SetJSON E _ _ itemsCacheKey items itemsCacheTTL r')
    as [[err|] r''].
Qed.

(** X12: after a read of the items that missed the cache, fetched the
    listing from the store and cached it, a second read made [dt] later
    is served from the cache with the same listing and without a
    statement to the store as long as [dt] is less than 5 minutes; from 5
    minutes on it is a miss again and goes back to the store. *)
Theorem second_read_within_ttl_is_a_hit (E : Env) (h : Handler)
    (request_ctx request_ctx' : Context) (w : World) (items : list Item)
    (d' : database.DB) (dt : Duration) :
  let ctx := WithTimeout request_ctx (30 * Second) (clock w) in
  let k := length (redis.commands (rdb w)) in
  is_Err (redis.GetJSON E ctx (clock w) itemsCacheKey (rdb w)).1 = true →
  database.GetAllItems E (db w) = (Ok items, d') →
  redis_fault E (S k) (CSet "items:all" (JSONItems items) (5 * Minute)) = None →
  redis_fault E (S (S k)) (CGet "items:all") = None →
  let first := getItems E h request_ctx w in
  let later := elapse dt first.2 in
  let second := getItems E h request_ctx' later in
  (dt < 5 * Minute →
     second.1 = mkResponse StatusOK (Some "HIT")
                  (ItemsBody items (Z.of_nat (length items)) true (clock w + dt)) ∧
     executed later second.2 = []) ∧
  (5 * Minute ≤ dt →
     X_Cache second.1 ≠ Some "HIT" ∧
     executed later second.2 = [QSelectItems]).
Proof.
  intros ctx k Hmiss Hall Hset Hget first later second.
  pose proof (GetJSON_client E ctx (clock w) itemsCacheKey (rdb w)) as Hc.
  destruct (redis.GetJSON E ctx (clock w) itemsCacheKey (rdb w))
    as [[?|e] r'] eqn:Hfirst; [done|]. cbn [snd] in Hc. subst r'.
  destruct (getItems_miss E h request_ctx w e _ items d' Hfirst Hall)
    as (_ & Hnet & Hdb & Hrdb).
  fold first in Hnet, Hdb, Hrdb.
  unfold redis.SetJSON, redis.Set_ in Hrdb.
  cbn [redis.json_Marshal redis.commands redis.kv] in Hrdb.
  rewrite length_app, Nat.add_1_r in Hrdb. fold k in Hrdb.
  change itemsCacheKey with "items:all" in *.
  change itemsCacheTTL with (5 * Minute) in *.
  rewrite Hset in Hrdb. change (0 <? 5 * Minute) with true in Hrdb.
  cbn [snd] in Hrdb.
  assert (Hclock : clock later = clock w + dt).
  { unfold later, elapse, clock. cbn. by rewrite Hnet. }
  assert (Hlen : length (redis.commands (rdb later)) = S (S k)).
  { unfold later, elapse. cbn [rdb]. rewrite Hrdb. cbn.
    rewrite !length_app. cbn. unfold k. lia. }
  assert (Hkv : redis.kv (rdb later) !! "items:all" =
                Some (redis.mkEntry (JSONItems items) (Some (clock w + 5 * Minute)))).
  { unfold later, elapse. cbn [rdb]. rewrite Hrdb. cbn [redis.kv].
    apply lookup_insert_eq. }
  set (ctx2 := WithTimeout request_ctx' (30 * Second) (clock later)).
  assert (Hread : (redis.GetJSON E ctx2 (clock later) "items:all" (rdb later)).1 =
                  if clock later <? clock w + 5 * Minute
                  then Ok items else Err redis.Nil).
  { unfold redis.GetJSON, redis.Get. rewrite Hlen, Hget.
    unfold redis.lookup_live, redis.live. rewrite Hkv.
    cbn [redis.payload redis.expiry].
    by destruct (clock later <? clock w + 5 * Minute). }
  split.
  - intros Hlt. rewrite (proj2 (Z.ltb_lt _ _)) in Hread by lia.
    destruct (redis.GetJSON E ctx2 (clock later) "items:all" (rdb later))
      as [res r2] eqn:Hsecond. cbn [fst] in Hread. subst res.
    unfold second. rewrite (getItems_hit E h request_ctx' later items r2 Hsecond).
    cbn [fst snd]. rewrite Hclock. split; [done|].
    unfold executed. cbn. by rewrite drop_all.
  - intros Hge. rewrite (proj2 (Z.ltb_ge _ _)) in Hread by lia.
    destruct (redis.GetJSON E ctx2 (clock later) "items:all" (rdb later))
      as [res r2] eqn:Hsecond. cbn [fst] in Hread. subst res.
    unfold second, getItems. fold ctx2.
    change itemsCacheKey with "items:all". rewrite Hsecond.
    cbn [db rdb net logs]. unfold database.GetAllItems.
    destruct (db_fault E _ QSelectItems); cbn.
    + split; [done|]. by apply executed_app.
    + match goal with
      | |- context [redis.Set_ ?a ?b ?c ?d ?e ?f] =>
          destruct (redis.Set_ a b c d e f) as [[?|] ?]
      end; cbn; (split; [done|]); by apply executed_app.
Qed.

Lemma second_read_within_ttl_is_a_hit_witness :
  let E := scenario.serving [] [] [] in
  let h := NewRouter (client.mkExternalAPIConfig "https://x" 30) in
  let row := mkItem 1 "1" "A" "b" 1 5 5 in
  let w := mkWorld scenario.idle (database.mkDB [row] 2 [])
             scenario.empty_cache [] in
  let first := getItems E h Background w in
  (getItems E h Background (elapse Minute first.2)).1 =
    mkResponse StatusOK (Some "HIT") (ItemsBody [row] 1 true Minute) ∧
  X_Cache (getItems E h Background (elapse (5 * Minute) first.2)).1
    ≠ Some "HIT".
Proof.
  cbv zeta.
  pose proof (λ dt, second_read_within_ttl_is_a_hit (scenario.serving [] [] [])
                (NewRouter (client.mkExternalAPIConfig "https://x" 30))
                Background Background
                (mkWorld scenario.idle
                   (database.mkDB [mkItem 1 "1" "A" "b" 1 5 5] 2 [])
                   scenario.empty_cache [])
                [mkItem 1 "1" "A" "b" 1 5 5]
                (database.GetAllItems (scenario.serving [] [] [])
                   (database.mkDB [mkItem 1 "1" "A" "b" 1 5 5] 2 [])).2 dt) as H.
  cbv zeta in H. split.
  - destruct (H Minute) as [Hhit _];
      [reflexivity | reflexivity | reflexivity | reflexivity |].
    destruct Hhit as [Hresp _]; [reflexivity|]. exact Hresp.
  - destruct (H (5 * Minute)) as [_ Hmiss];
      [reflexivity | reflexivity | reflexivity | reflexivity |].
    destruct Hmiss as [Hx _]; [discriminate|]. exact Hx.
Defined.

Lemma dead_stays_dead t t' key (m : gmap string redis.Entry) :
  (match m !! key with
   | Some e => redis.live t e = false
   | None => True
   end) →
  t ≤ t' → redis.lookup_live t' key m = None.
Proof.
  unfold redis.lookup_live, redis.live. destruct (m !! key) as [e|]; [|done].
  destruct (redis.expiry e); [|done]. intros Hd Hle.
  apply Z.ltb_ge in Hd. by rewrite (proj2 (Z.ltb_ge _ _)) by lia.
Qed.

Lemma GetJSON_dead E ctx t key r :
  redis.lookup_live t key (redis.kv r) = None →
  ∃ e r', redis.GetJSON E ctx t key r = (Err e, r').
Proof.
  intros Hd. unfold redis.GetJSON, redis.Get. rewrite Hd.
  destruct (redis_fault E _ _); by eexists _, _.
Qed.

(** X13: after a sync run with at least one successful upsert whose
    cache invalidation went through, the next read of the items, however
    much later, is not served from the cache: it is a MISS that returns
    the listing of the store as the run left it. *)
Theorem read_after_sync_is_fresh (E : Env) (m : jobs.Manager) (h : Handler)
    (request_ctx : Context) (w : World) (posts : list PostResponse)
    (n' : client.Net) (dt : Duration) :
  fetch_of E m w = (Ok posts, n') →
  let w1 := (jobs.syncData E m w).2 in
  let k := length (redis.commands (rdb w)) in
  0 < succeeded E w w1 →
  redis_fault E k (CKeys "items:*") = None →
  (∀ keys, redis_fault E (S k) (CDel keys) = None) →
  db_fault E (length (database.statements (db w1))) QSelectItems = None →
  0 ≤ dt →
  (getItems E h request_ctx (elapse dt w1)).1 =
    mkResponse StatusOK (Some "MISS")
      (ItemsBody (listing (database.rows (db w1)))
         (Z.of_nat (length (database.rows (db w1)))) false (clock w1 + dt)).
Proof.
  intros Hf w1 k Hpos Hk Hd Hsel Hdt.
  destruct (counts_fetched E m w posts n' Hf) as (_ & Hs & _).
  fold w1 in Hs.
  destruct (syncData_fetched E m w posts n' Hf)
    as (wl & w' & Hrun & Hnet & _ & _ & _ & _ & Hinv & _).
  assert (w1 = w') as <- by (unfold w1; by rewrite Hrun).
  rewrite <- Hs in Hinv. rewrite (proj2 (Z.ltb_lt _ _) Hpos) in Hinv.
  destruct Hinv as (o & Hinv & _).
  destruct (InvalidatePattern_no_fault E
              (WithTimeout (jobs.m_ctx m) (2 * Minute) (clock w))
              (client.now n') jobs.items_pattern (rdb w) Hk Hd) as [r' Hok].
  rewrite Hok in Hinv. injection Hinv as _ ->.
  pose proof (InvalidatePattern_ok _ _ _ _ _ _ "items:all" Hok) as Hkey.
  change (redis.matches jobs.items_pattern "items:all") with true in Hkey.
  assert (Hdead : redis.lookup_live (clock (elapse dt w1)) "items:all"
                    (redis.kv (rdb (elapse dt w1))) = None).
  { apply (dead_stays_dead (client.now n')).
    - cbn [elapse rdb]. rewrite Hkey.
      destruct (redis.kv (rdb w) !! "items:all") as [e|]; [|done].
      destruct (redis.live (client.now n') e) eqn:Hl; cbn; done.
    - unfold elapse, clock. cbn. rewrite Hnet. lia. }
  destruct (GetJSON_dead E
              (WithTimeout request_ctx (30 * Second) (clock (elapse dt w1)))
              _ _ _ Hdead) as (e & r2 & Hget).
  destruct (getItems_miss E h request_ctx (elapse dt w1) e r2
              (listing (database.rows (db w1)))
              (database.GetAllItems E (db w1)).2 Hget) as (Hresp & _).
  { unfold database.GetAllItems. cbn [elapse db]. by rewrite Hsel. }
  rewrite Hresp. unfold listing.
  rewrite (Permutation_length
             (merge_sort_Permutation database.created_desc (database.rows (db w1)))).
  done.
Qed.

Lemma read_after_sync_is_fresh_witness :
  let E := scenario.serving [scenario.post_A] [] [] in
  let h := NewRouter (client.mkExternalAPIConfig "https://x" 30) in
  let w1 := (jobs.syncData E scenario.manager scenario.warm).2 in
  (getItems E h Background (elapse Minute w1)).1 =
    mkResponse StatusOK (Some "MISS")
      (ItemsBody [mkItem 1 "1" "A" "b" 1 0 0] 1 false (clock w1 + Minute)).
Proof.
  cbv zeta.
  pose proof (read_after_sync_is_fresh
                (scenario.serving [scenario.post_A] [] []) scenario.manager
                (NewRouter (client.mkExternalAPIConfig "https://x" 30))
                Background scenario.warm [scenario.post_A]
                (fetch_of (scenario.serving [scenario.post_A] [] [])
                   scenario.manager scenario.warm).2 Minute) as H.
  cbv zeta in H.
  rewrite H; [reflexivity | vm_compute; reflexivity | vm_compute; reflexivity
             | reflexivity | intros keys; reflexivity | reflexivity
             | discriminate].
Defined.

(** Under a context that is already done, a fetch fails on the spot. *)
Lemma FetchPosts_done_any E c ctx n e :
  Err_at ctx (client.now n) = Some e →
  ∃ err n',
    client.FetchPosts E c ctx n = (Err err, n') ∧
    client.now n' = client.now n ∧ client.sent n' = client.sent n ∧
    (new_request_err E (client.baseURL c +:+ "/posts") = None →
     err = Wrap "failed to fetch posts: " e).
Proof.
  intros He.
  destruct (new_request_err E (client.baseURL c +:+ "/posts")) as [e0|] eqn:Hurl.
  - unfold client.FetchPosts, client.retryRequest.
    change (Z.to_nat (3 + 1)) with 4%nat.
    rewrite retry_loop_S. change (0 <? 0) with false. cbv iota.
    rewrite Hurl. by eexists _, _.
  - rewrite (FetchPosts_done E c ctx Hurl n e He). by eexists _, _.
Qed.

(** X14: once [Stop] has cancelled the manager's context, a sync run of
    that manager fails at once: it returns an error, lets no request
    reach the source, sends nothing to the store or the cache, and takes
    no time; for a manager built by [jobs.New] and a well-formed URL the
    error is "context canceled" under the two "failed to fetch posts"
    prefixes.  A second [Stop] changes nothing. *)
Theorem stopped_manager_syncs_nothing (E : Env) (m : jobs.Manager) (t : Z)
    (w : World) :
  t ≤ clock w →
  let out := jobs.syncData E (jobs.Stop m t) w in
  is_Some out.1 ∧
  db out.2 = db w ∧ rdb out.2 = rdb w ∧
  client.sent (net out.2) = client.sent (net w) ∧
  clock out.2 = clock w ∧
  (new_request_err E (client.baseURL (jobs.m_client m) +:+ "/posts") = None →
   deadline (jobs.m_ctx m) = None →
   out.1 = Some (Wrap "failed to fetch posts: "
                   (Wrap "failed to fetch posts: " Canceled))) ∧
  jobs.Stop (jobs.Stop m t) (clock w) = jobs.Stop m t.
Proof.
  intros Ht out.
  set (ctx := WithTimeout (jobs.m_ctx (jobs.Stop m t)) (2 * Minute) (clock w)).
  assert (Herr : ∃ e, Err_at ctx (clock w) = Some e ∧
                      (deadline (jobs.m_ctx m) = None → e = Canceled)).
  { unfold ctx, Err_at, WithTimeout, jobs.Stop, omin. cbn.
    unfold Minute, Second.
    destruct (deadline (jobs.m_ctx m)), (cancelAt (jobs.m_ctx m));
      zcases; eexists; (split; [done|]); done. }
  destruct Herr as (e & Herr & Hcanceled).
  destruct (FetchPosts_done_any E (jobs.m_client (jobs.Stop m t)) ctx (net w) e
              Herr) as (err & n' & Hfetch & Hnow & Hsent & Hurl).
  assert (Hrun : out = (Some (Wrap "failed to fetch posts: " err),
                        mkWorld n' (db w) (rdb w) (logs w ++ [starting])))
    by (apply syncData_fetch_failed; exact Hfetch).
  rewrite Hrun. cbn [fst snd db rdb net]. unfold clock. cbn [net].
  split; [by eexists|]. split; [done|]. split; [done|]. split; [done|].
  split; [done|]. split.
  - intros Hok Hnodl. by rewrite (Hurl Hok), (Hcanceled Hnodl).
  - unfold jobs.Stop. cbn. do 2 f_equal. unfold omin. unfold clock in Ht.
    destruct (cancelAt (jobs.m_ctx m)); f_equal; lia.
Qed.

Lemma stopped_manager_syncs_nothing_witness :
  let E := scenario.serving [scenario.post_A] [] [] in
  let m := jobs.Stop (jobs_New (client.mkExternalAPIConfig "https://x" 30)) 0 in
  (jobs.syncData E m scenario.start).1 =
    Some (Wrap "failed to fetch posts: "
            (Wrap "failed to fetch posts: " Canceled)) ∧
  db (jobs.syncData E m scenario.start).2 = scenario.empty_db.
Proof.
  cbv zeta.
  pose proof (stopped_manager_syncs_nothing
                (scenario.serving [scenario.post_A] [] [])
                (jobs_New (client.mkExternalAPIConfig "https://x" 30)) 0
                scenario.start) as H.
  cbv zeta in H.
  destruct H as (_ & Hdb & _ & _ & _ & Herr & _); [reflexivity|].
  split; [apply Herr; reflexivity | exact Hdb].
Defined.

End Composition.

(** ** Configuration *)

Section Configuration.

Import strconv config.

Lemma digit_pretty_N_char d :
  (d < 10)%N → digit (pretty_N_char d) = Some (Z.of_N d).
Proof.
  intros Hd.
  assert (d = 0 ∨ d = 1 ∨ d = 2 ∨ d = 3 ∨ d = 4 ∨ d = 5 ∨ d = 6 ∨ d = 7
          ∨ d = 8 ∨ d = 9)%N as Hcases by lia.
  repeat (destruct Hcases as [->|Hcases]; [reflexivity|]).
  by subst d.
Qed.

Lemma pretty_N_char_no_sign d :
  Ascii.eqb (pretty_N_char d) "-" = false ∧
  Ascii.eqb (pretty_N_char d) "+" = false.
Proof. unfold pretty_N_char. by repeat case_match. Qed.

(** Reading back the digits that [pretty] puts in front of a string. *)
Lemma digits_pretty_N_go x : ∀ s (f : Z → option Z),
  (∀ acc, digits acc s = f acc) →
  ∃ k, 0 ≤ k ∧
       ∀ acc, digits acc (pretty_N_go x s) = f (acc * 10 ^ k + Z.of_N x).
Proof.
  induction (N.lt_wf_0 x) as [x _ IH]. intros s f Hf.
  destruct (decide (x = 0)%N) as [->|Hne].
  - exists 0. split; [done|]. intros acc. rewrite pretty_N_go_0, Hf.
    f_equal. lia.
  - rewrite pretty_N_go_step by lia.
    destruct (IH (x `div` 10)%N) with
      (s := String (pretty_N_char (x `mod` 10)) s)
      (f := λ acc, f (acc * 10 + Z.of_N (x `mod` 10)))
      as (k & Hk & Hread).
    { apply N.div_lt; lia. }
    { intros acc. cbn [digits].
      rewrite digit_pretty_N_char by (apply N.mod_lt; lia). apply Hf. }
    exists (k + 1). split; [lia|]. intros acc. rewrite Hread. f_equal.
    rewrite Z.pow_add_r, Z.pow_1_r by lia.
    rewrite (N.div_mod x 10) at 3 by lia. lia.
Qed.

Lemma pretty_N_go_head x : ∀ s,
  (0 < x)%N →
  ∃ d rest, pretty_N_go x s = String (pretty_N_char d) rest.
Proof.
  induction (N.lt_wf_0 x) as [x _ IH]. intros s Hpos.
  rewrite pretty_N_go_step by done.
  destruct (decide (x `div` 10 = 0)%N) as [->|Hne].
  - rewrite pretty_N_go_0. by eexists _, _.
  - apply IH; [by apply N.div_lt | by apply N.neq_0_lt_0].
Qed.

Lemma Atoi_digits_string body v :
  (∃ d rest, body = String (pretty_N_char d) rest) →
  digits 0 body = Some v →
  - 2 ^ 63 ≤ v ≤ 2 ^ 63 - 1 →
  Atoi body = Some v.
Proof.
  intros (d & rest & ->) Hv Hr. unfold Atoi.
  destruct (pretty_N_char_no_sign d) as [-> ->]. rewrite Hv.
  destruct (Z.leb_spec (- 2 ^ 63) v), (Z.leb_spec v (2 ^ 63 - 1)); (done || lia).
Qed.

Lemma Atoi_Itoa n : - 2 ^ 63 ≤ n ≤ 2 ^ 63 - 1 → Atoi (Itoa n) = Some n.
Proof.
  intros Hr. unfold Itoa, pretty, pretty_Z. destruct n as [|p|p].
  - reflexivity.
  - unfold pretty, pretty_positive, pretty, pretty_N.
    rewrite decide_False by done.
    destruct (digits_pretty_N_go (N.pos p) "" Some) as (k & _ & Hread); [done|].
    apply Atoi_digits_string; [by apply pretty_N_go_head | | done].
    rewrite Hread. f_equal.
  - unfold pretty, pretty_positive, pretty, pretty_N.
    rewrite decide_False by done.
    destruct (digits_pretty_N_go (N.pos p) "" Some) as (k & _ & Hread); [done|].
    destruct (pretty_N_go_head (N.pos p) "") as (d & rest & Hhead); [done|].
    replace ("-" +:+ pretty_N_go (N.pos p) "")
      with (String "-"%char (pretty_N_go (N.pos p) "")) by reflexivity.
    unfold Atoi. change (Ascii.eqb "-" "-") with true. cbv iota.
    specialize (Hread 0). rewrite Hhead in *. rewrite Hread.
    change (0 * 10 ^ k + Z.of_N (N.pos p)) with (Z.pos p).
    destruct (Z.leb_spec (- 2 ^ 63) (- Z.pos p)),
             (Z.leb_spec (- Z.pos p) (2 ^ 63 - 1)); (done || lia).
Qed.

Lemma Atoi_range s n : Atoi s = Some n → - 2 ^ 63 ≤ n ≤ 2 ^ 63 - 1.
Proof.
  unfold Atoi. destruct s as [|a rest]; [done|].
  destruct (if Ascii.eqb a "-" then _ else _) as [neg body].
  destruct body; [done|]. destruct (digits 0 _) as [v|]; [|done].
  set (m := if neg then - v else v).
  destruct (Z.leb_spec (- 2 ^ 63) m), (Z.leb_spec m (2 ^ 63 - 1));
    intros [= <-]; lia.
Qed.

Lemma digits_stray s1 a s2 acc :
  digit a = None → digits acc (s1 +:+ String a s2) = None.
Proof.
  intros Ha. revert acc.
  induction s1 as [|b s1 IH]; intros acc.
  - change ("" +:+ String a s2) with (String a s2). cbn [digits].
    by rewrite Ha.
  - change (String b s1 +:+ String a s2) with (String b (s1 +:+ String a s2)).
    cbn [digits]. destruct (digit b); [apply IH | done].
Qed.

Lemma Atoi_stray s1 a s2 :
  digit a = None → a ≠ "-"%char → a ≠ "+"%char →
  Atoi (s1 +:+ String a s2) = None.
Proof.
  intros Ha Hm Hp. unfold Atoi. destruct s1 as [|b s1].
  - change ("" +:+ String a s2) with (String a s2). cbv beta iota.
    rewrite (proj2 (Ascii.eqb_neq _ _) Hm), (proj2 (Ascii.eqb_neq _ _) Hp).
    pose proof (digits_stray "" a s2 0 Ha) as Hd.
    change ("" +:+ String a s2) with (String a s2) in Hd. by rewrite Hd.
  - change (String b s1 +:+ String a s2) with (String b (s1 +:+ String a s2)).
    cbv beta iota.
    destruct (Ascii.eqb b "-"); [|destruct (Ascii.eqb b "+")].
    + destruct (s1 +:+ String a s2) eqn:Hs; [done|]. rewrite <- Hs.
      by rewrite digits_stray.
    + destruct (s1 +:+ String a s2) eqn:Hs; [done|]. rewrite <- Hs.
      by rewrite digits_stray.
    + pose proof (digits_stray (String b s1) a s2 0 Ha) as Hd.
      change (String b s1 +:+ String a s2)
        with (String b (s1 +:+ String a s2)) in Hd.
      by rewrite Hd.
Qed.

(** X15: [getEnvAsInt] yields the default when the variable is unset or
    empty, and also - silently - when its value is not a number: a value
    with a character that is neither a digit nor a sign never yields
    anything but the default.  A variable holding the decimal form of an
    int64 yields that number, and whatever is read fits an int64.
    [getEnv] yields the default exactly for an unset or empty
    variable. *)
Theorem getEnvAsInt_falls_back (env : gmap string string) (key : string)
    (defaultValue : Z) :
  (env !! key = None ∨ env !! key = Some "" →
     getEnvAsInt env key defaultValue = defaultValue ∧
     ∀ ds, getEnv env key ds = ds) ∧
  (∀ n, - 2 ^ 63 ≤ n ≤ 2 ^ 63 - 1 → env !! key = Some (Itoa n) →
     getEnvAsInt env key defaultValue = n) ∧
  (∀ s1 a s2, env !! key = Some (s1 +:+ String a s2) →
     digit a = None → a ≠ "-"%char → a ≠ "+"%char →
     getEnvAsInt env key defaultValue = defaultValue) ∧
  (- 2 ^ 63 ≤ defaultValue ≤ 2 ^ 63 - 1 →
     - 2 ^ 63 ≤ getEnvAsInt env key defaultValue ≤ 2 ^ 63 - 1) ∧
  (∀ value ds, env !! key = Some value → value ≠ "" →
     getEnv env key ds = value).
Proof.
  unfold getEnvAsInt, getEnv, Getenv.
  split; [|split; [|split; [|split]]].
  - by intros [->| ->].
  - intros n Hr ->. change (default "" (Some (Itoa n))) with (Itoa n).
    rewrite (Atoi_Itoa n Hr).
    destruct (String.eqb_spec (Itoa n) "") as [Heq|]; [|done].
    pose proof (Atoi_Itoa n Hr) as H. by rewrite Heq in H.
  - intros s1 a s2 -> Ha Hm Hp.
    change (default "" (Some ?s)) with s.
    rewrite (Atoi_stray s1 a s2 Ha Hm Hp). by case_match.
  - intros Hd. destruct (negb _); [|done].
    destruct (Atoi _) as [n|] eqn:Hn; [by apply Atoi_range in Hn | done].
  - intros value ds -> Hne. change (default "" (Some value)) with value.
    by destruct (String.eqb_spec value "").
Qed.

Lemma getEnvAsInt_falls_back_witness :
  getEnvAsInt {["EXTERNAL_API_TIMEOUT" := "45"]} "EXTERNAL_API_TIMEOUT" 30 = 45 ∧
  getEnvAsInt {["EXTERNAL_API_TIMEOUT" := "45s"]} "EXTERNAL_API_TIMEOUT" 30 = 30 ∧
  getEnvAsInt {["EXTERNAL_API_TIMEOUT" := ""]} "EXTERNAL_API_TIMEOUT" 30 = 30.
Proof.
  split; [|split].
  - destruct (getEnvAsInt_falls_back {["EXTERNAL_API_TIMEOUT" := "45"]}
                "EXTERNAL_API_TIMEOUT" 30) as (_ & H & _).
    apply (H 45); [lia | reflexivity].
  - destruct (getEnvAsInt_falls_back {["EXTERNAL_API_TIMEOUT" := "45s"]}
                "EXTERNAL_API_TIMEOUT" 30) as (_ & _ & H & _).
    apply (H "45" "s"%char ""); [reflexivity | reflexivity | done | done].
  - destruct (getEnvAsInt_falls_back {["EXTERNAL_API_TIMEOUT" := ""]}
                "EXTERNAL_API_TIMEOUT" 30) as (H & _).
    destruct H as [H _]; [right; reflexivity | exact H].
Defined.

Lemma getEnvAsInt_decimal env key d n :
  env !! key = Some (Itoa n) →
  - 2 ^ 63 ≤ n ≤ 2 ^ 63 - 1 →
  getEnvAsInt env key d = n.
Proof.
  intros Henv Hr.
  unfold getEnvAsInt, Getenv. rewrite Henv.
  change (default "" (Some (Itoa n))) with (Itoa n).
  rewrite (Atoi_Itoa n Hr).
  destruct (String.eqb_spec (Itoa n) "") as [Heq|]; [|done].
  pose proof (Atoi_Itoa n Hr) as H. by rewrite Heq in H.
Qed.

(** X16: from the environment to the behaviour of the fetch: with
    EXTERNAL_API_TIMEOUT set to the decimal form of n seconds (n positive
    and small enough for n seconds to fit a Duration), the client built
    from the loaded configuration cuts every request off after n seconds,
    and a fetch returns within 4 n + 7 seconds whatever the source does;
    with the variable unset the timeout is 30 seconds. *)
Theorem configured_timeout_bounds_fetch (env : gmap string string) (n : Z) :
  let c := client.New (ExternalAPI (Load env)) in
  (0 < n ≤ 9223372036 →
   env !! "EXTERNAL_API_TIMEOUT" = Some (Itoa n) →
   client.Timeout c = n * Second ∧
   ∀ E ctx net0,
     client.now (client.FetchPosts E c ctx net0).2
       ≤ client.now net0 + (4 * n + 7) * Second) ∧
  (env !! "EXTERNAL_API_TIMEOUT" = None → client.Timeout c = 30 * Second).
Proof.
  cbv zeta. unfold Load, client.New. cbn [ExternalAPI client.cfg_Timeout].
  split.
  - intros Hn Henv.
    rewrite (getEnvAsInt_decimal env _ 30 n Henv) by lia.
    assert (HT : wrap64 (wrap64 n * Second) = n * Second).
    { unfold Second. rewrite (wrap64_small n) by lia. apply wrap64_small. lia. }
    rewrite HT. split; [done|]. intros E ctx net0.
    match goal with
    | |- context [client.FetchPosts E ?c ctx net0] =>
        pose proof (FetchPosts_within E c ctx net0) as Hb
    end.
    cbn [client.Timeout] in Hb. unfold Second in *. lia.
  - intros Hnone. unfold getEnvAsInt, Getenv. rewrite Hnone. reflexivity.
Qed.

Lemma configured_timeout_bounds_fetch_witness :
  client.Timeout
    (client.New (ExternalAPI (Load {["EXTERNAL_API_TIMEOUT" := "45"]})))
    = 45 * Second.
Proof.
  destruct (configured_timeout_bounds_fetch {["EXTERNAL_API_TIMEOUT" := "45"]}
              45) as [H _].
  destruct H as [HT _]; [lia | reflexivity | exact HT].
Defined.

End Configuration.

(** ** Freshness of the cached listing *)

Section Freshness.

Import api.

Lemma lookup_live_earlier t t' key (m : gmap string redis.Entry) v :
  redis.lookup_live t' key m = Some v → t ≤ t' →
  redis.lookup_live t key m = Some v.
Proof.
  unfold redis.lookup_live, redis.live. destruct (m !! key) as [e|]; [|done].
  destruct (redis.expiry e) as [x|]; [|done].
  destruct (Z.ltb_spec t' x); [|done]. intros Hv Hle.
  by rewrite (proj2 (Z.ltb_lt _ _)) by lia.
Qed.

Lemma GetJSON_Ok_inv E ctx t key r items :
  (redis.GetJSON E ctx t key r).1 = Ok items →
  redis.lookup_live t key (redis.kv r) = Some (JSONItems items).
Proof.
  unfold redis.GetJSON, redis.Get. destruct (redis_fault E _ _); [done|].
  destruct (redis.lookup_live t key (redis.kv r)) as [[its|raw]|]; cbn;
    intros; by simplify_eq.
Qed.

Lemma fresh_cache_later t t' w w' :
  fresh_cache t w → t ≤ t' →
  redis.kv (rdb w') = redis.kv (rdb w) →
  database.rows (db w') = database.rows (db w) →
  fresh_cache t' w'.
Proof.
  unfold fresh_cache. intros Hfresh Hle -> -> items Hlive.
  apply Hfresh. by eapply lookup_live_earlier.
Qed.

(** X17: a read of the items never changes the table, and it keeps the
    cache fresh: if no stale listing can be read from the cache before
    the call, none can be read after it, at any later instant, and the
    listing the call answers with - from the cache or from the store - is
    the listing of the store. *)
Theorem reads_keep_cache_fresh (E : Env) (h : Handler) (request_ctx : Context)
    (w : World) :
  let out := getItems E h request_ctx w in
  database.rows (db out.2) = database.rows (db w) ∧
  (fresh_cache (clock w) w →
     (∀ t', clock w ≤ t' → fresh_cache t' out.2) ∧
     (∀ items n c ts, body out.1 = ItemsBody items n c ts →
        items = listing (database.rows (db w)))).
Proof.
  cbv zeta.
  set (ctx := WithTimeout request_ctx (30 * Second) (clock w)).
  pose proof (GetJSON_client E ctx (clock w) itemsCacheKey (rdb w)) as Hc.
  pose proof (GetJSON_Ok_inv E ctx (clock w) itemsCacheKey (rdb w)) as Hinv.
  unfold getItems. fold ctx.
  destruct (redis.GetJSON E ctx (clock w) itemsCacheKey (rdb w))
    as [[items|e] r'] eqn:Hget; cbn [fst snd] in Hc, Hinv; subst r'.
  - cbn. split; [done|]. intros Hfresh. split.
    + intros t' Ht'. by apply (fresh_cache_later (clock w) t' w).
    + intros ? ? ? ? [= <- _ _ _]. by apply Hfresh, Hinv.
  - cbn [db rdb net logs]. unfold database.GetAllItems.
    destruct (db_fault E _ QSelectItems) as [err|].
    + cbn. split; [done|]. intros Hfresh. split; [|done].
      intros t' Ht'. by apply (fresh_cache_later (clock w) t' w).
    + cbn [db rdb net logs clock]. unfold redis.SetJSON, redis.Set_.
      cbn [redis.json_Marshal redis.commands redis.kv].
      assert (Hwritten : ∀ exp t' items,
                redis.lookup_live t' itemsCacheKey
                  (<[itemsCacheKey :=
                       redis.mkEntry
                         (JSONItems (merge_sort database.created_desc
                                       (database.rows (db w)))) exp]>
                     (redis.kv (rdb w))) = Some (JSONItems items) →
                items = listing (database.rows (db w))).
      { intros exp t' items. unfold redis.lookup_live.
        rewrite lookup_insert_eq. cbn.
        case_match; intros; by simplify_eq. }
      destruct (redis_fault E _ (CSet _ _ _)) as [err|];
        [destruct (redis_ran E _)|].
      * cbn. split; [done|]. intros Hfresh. split.
        -- intros t' Ht' items. apply Hwritten.
        -- by intros ? ? ? ? [= <- _ _ _].
      * cbn. split; [done|]. intros Hfresh. split.
        -- intros t' Ht'. by apply (fresh_cache_later (clock w) t' w).
        -- by intros ? ? ? ? [= <- _ _ _].
      * cbn. split; [done|]. intros Hfresh. split.
        -- intros t' Ht' items. apply Hwritten.
        -- by intros ? ? ? ? [= <- _ _ _].
Qed.

Lemma reads_keep_cache_fresh_witness :
  let E := scenario.serving [] [] [] in
  let h := NewRouter (client.mkExternalAPIConfig "https://x" 30) in
  let w := mkWorld scenario.idle
             (database.mkDB [mkItem 1 "1" "A" "b" 1 5 5] 2 [])
             scenario.empty_cache [] in
  fresh_cache Minute (getItems E h Background w).2.
Proof.
  cbv zeta.
  pose proof (reads_keep_cache_fresh (scenario.serving [] [] [])
                (NewRouter (client.mkExternalAPIConfig "https://x" 30))
                Background
                (mkWorld scenario.idle
                   (database.mkDB [mkItem 1 "1" "A" "b" 1 5 5] 2 [])
                   scenario.empty_cache [])) as H.
  cbv zeta in H. destruct H as [_ H].
  destruct H as [Hfresh _].
  - intros items Hlive. vm_compute in Hlive. discriminate.
  - apply Hfresh. discriminate.
Defined.

Lemma fetch_clock_mono E m w : clock w ≤ client.now (fetch_of E m w).2.
Proof.
  unfold fetch_of, client.FetchPosts, client.retryRequest, clock.
  destruct (client.retry_loop E _ _ _ _ 0 None _ (net w)) as [r n1] eqn:Hrun.
  apply retry_loop_bounds in Hrun as (Ht & _). by destruct r.
Qed.

(** X18: a sync run keeps the cache fresh when it sends no statement to
    the store (its fetch failed, or it fetched no post), and when at
    least one of its upserts succeeded and its invalidation went
    through: if no stale listing could be read from the cache before the
    run, none can be read after it, at any later instant.  (A run whose
    invalidation fails after a successful upsert can leave a stale
    listing behind, and a run all of whose upserts failed is left
    out.) *)
Theorem sync_keeps_cache_fresh (E : Env) (m : jobs.Manager) (w : World) :
  let w' := (jobs.syncData E m w).2 in
  let k := length (redis.commands (rdb w)) in
  fresh_cache (clock w) w →
  executed w w' = [] ∨
  (0 < succeeded E w w' ∧
   redis_fault E k (CKeys "items:*") = None ∧
   ∀ keys, redis_fault E (S k) (CDel keys) = None) →
  ∀ t', clock w' ≤ t' → fresh_cache t' w'.
Proof.
  intros w' k Hfresh Hcase t' Ht'.
  pose proof (fetch_clock_mono E m w) as Hmono.
  destruct (fetch_of E m w) as [[posts|err] n'] eqn:Hf; cbn [snd] in Hmono.
  - destruct (counts_fetched E m w posts n' Hf) as (Hex & Hs & _).
    fold w' in Hex, Hs.
    destruct (syncData_fetched E m w posts n' Hf)
      as (wl & w1 & Hrun & Hnet & Hdb & Hafter & _ & _ & Hinv & _).
    assert (w' = w1) as <- by (unfold w'; by rewrite Hrun).
    rewrite <- Hs in Hinv.
    assert (Hclock : clock w' = client.now n') by (unfold clock; by rewrite Hnet).
    destruct Hcase as [Hnone|(Hpos & Hk & Hd)].
    + rewrite Hex in Hnone. apply fmap_nil_inv in Hnone. subst posts.
      assert (Hzero : succeeded E w w' = 0) by (by rewrite Hs).
      rewrite Hzero in Hinv. change (0 <? 0) with false in Hinv.
      apply (fresh_cache_later (clock w) t' w); [done | lia | by rewrite Hinv |].
      by rewrite Hdb, Hafter.
    + apply Z.ltb_lt in Hpos. rewrite Hpos in Hinv.
      destruct Hinv as (o & Hinv & _).
      destruct (InvalidatePattern_no_fault E
                  (WithTimeout (jobs.m_ctx m) (2 * Minute) (clock w))
                  (client.now n') jobs.items_pattern (rdb w) Hk Hd)
        as [r' Hok].
      rewrite Hok in Hinv. injection Hinv as _ ->.
      pose proof (InvalidatePattern_ok _ _ _ _ _ _ "items:all" Hok) as Hkey.
      change (redis.matches jobs.items_pattern "items:all") with true in Hkey.
      intros items Hlive.
      rewrite (dead_stays_dead (client.now n') t' "items:all") in Hlive;
        [done | | lia].
      rewrite Hkey. destruct (redis.kv (rdb w) !! "items:all") as [e|]; [|done].
      destruct (redis.live (client.now n') e) eqn:Hl; cbn; done.
  - unfold w' in *. rewrite (syncData_fetch_failed E m w err n' Hf) in *.
    apply (fresh_cache_later (clock w) t' w); [done | | done | done].
    unfold clock in *. cbn [snd net] in Ht'. lia.
Qed.

Lemma sync_keeps_cache_fresh_witness :
  let E := scenario.serving [scenario.post_B] [] [] in
  let w := scenario.cached in
  let w' := (jobs.syncData E scenario.manager w).2 in
  redis.lookup_live (clock w) "items:all" (redis.kv (rdb w))
    = Some (JSONItems (listing (database.rows (db w)))) ∧
  length (database.rows (db w)) = 1%nat ∧
  length (database.rows (db w')) = 2%nat ∧
  fresh_cache (5 * Minute) w'.
Proof.
  cbv zeta.
  split; [vm_compute; reflexivity|].
  split; [reflexivity|]. split; [vm_compute; reflexivity|].
  pose proof (sync_keeps_cache_fresh (scenario.serving [scenario.post_B] [] [])
                scenario.manager scenario.cached) as H.
  cbv zeta in H. apply H.
  - intros items Hlive. vm_compute in Hlive. injection Hlive as <-.
    vm_compute. reflexivity.
  - right. split; [vm_compute; reflexivity|].
    split; [reflexivity | intros keys; reflexivity].
  - vm_compute. discriminate.
Defined.

End Freshness.
